(* ===================================================================== *)
(* nmappy: a threaded TCP port scanner (src/nmappy.py).                  *)
(*                                                                       *)
(* Shallow embedding of the scan engine and the properties of its        *)
(* specification:                                                        *)
(*   - the service catalog (SERVICE_PROBES, SERVICE_KEYWORDS);           *)
(*   - identify_service and scan_port, written in a small trace-and-     *)
(*     exception monad over a scripted socket;                           *)
(*   - threaded_port_scan and threader, run by an interleaving step      *)
(*     function over a model of queue.Queue.                             *)
(* ===================================================================== *)

From Stdlib Require Import ZArith NArith Ascii String.
From Stdlib.Strings Require Import Byte.
From stdpp Require Import base tactics option list sorting gmap pretty relations.

Local Open Scope Z_scope.

(* ===================================================================== *)
(* Part I. Definitions                                                   *)
(* ===================================================================== *)

(* --------------------------------------------------------------------- *)
(* Python values                                                         *)
(* --------------------------------------------------------------------- *)

(* A Python str is a sequence of Unicode code points; a bytes object is a
   sequence of octets; an int is unbounded. *)
Definition text : Type := list N.
Definition bytes : Type := list byte.

(* A str literal of the source (all of them are ASCII). *)
Definition lit (s : string) : text := N_of_ascii <$> list_ascii_of_string s.

(* A bytes literal b"..." without escapes; escapes are spelled as octets. *)
Definition blit (s : string) : bytes := list_byte_of_string s.

(* f"{n}" for an int n: its decimal numeral. *)
Definition str_of_int (n : Z) : text := lit (pretty n).

(* [keyword in response] on str: does [k] occur as a contiguous run of [t]? *)
Fixpoint starts_with (k t : text) : bool :=
  match k, t with
  | [], _ => true
  | _ :: _, [] => false
  | a :: k', b :: t' => (a =? b)%N && starts_with k' t'
  end.

Fixpoint contains (k t : text) : bool :=
  starts_with k t ||
  match t with
  | [] => false
  | _ :: t' => contains k t'
  end.

(* The mathematical notion [contains] decides. *)
Definition substring (k t : text) : Prop :=
  ∃ before after, t = before ++ k ++ after.

(* --------------------------------------------------------------------- *)
(* The service catalog                                                   *)
(* --------------------------------------------------------------------- *)

Definition CR : byte := x0d.
Definition LF : byte := x0a.

(* SERVICE_PROBES: dict[int, bytes]; only looked up by key. *)
Definition SERVICE_PROBES : gmap Z bytes :=
  list_to_map
    [ (20, blit "NOOP" ++ [CR; LF]);
      (21, blit "HELLO" ++ [CR; LF]);
      (22, [LF]);
      (23, [CR; LF]);
      (25, blit "EHLO example.com" ++ [CR; LF]);
      (53, [x00; x00; x01; x00; x00; x01; x00; x00; x00; x00; x00; x00; x07]
             ++ blit "example" ++ [x03] ++ blit "com"
             ++ [x00; x00; x01; x00; x01]);
      (80, blit "HEAD / HTTP/1.0" ++ [CR; LF; CR; LF]);
      (110, blit "USER test" ++ [CR; LF]);
      (143, blit "TAG LOGIN test test" ++ [CR; LF]);
      (443, [x16; x03; x01; x00; x01; x01]);
      (587, blit "EHLO example.com" ++ [CR; LF]);
      (3306, [x00]);
      (3389, [x03; x00; x00; x13; x0e; xe0; x00; x00; x00; x00; x00; x01;
              x00; x08; x03; x00; x00; x00]);
      (5900, blit "RFB 003.003" ++ [LF]);
      (8080, blit "HEAD / HTTP/1.0" ++ [CR; LF; CR; LF]) ].

(* SERVICE_KEYWORDS: dict[str, str]; iterated with .items(), so the
   insertion order of the literal is kept as the order of the list. *)
Definition SERVICE_KEYWORDS : list (text * text) :=
  [ (lit "HTTP", lit "HTTP");
    (lit "220", lit "FTP");
    (lit "FTP", lit "FTP");
    (lit "SSH", lit "SSH");
    (lit "Telnet", lit "Telnet");
    (lit "Login", lit "Telnet");
    (lit "POP3", lit "POP3");
    (lit "IMAP", lit "IMAP");
    (lit "SMTP", lit "SMTP");
    (lit "MySQL", lit "MySQL");
    (lit "RFB", lit "VNC");
    (lit "RDP", lit "Remote Desktop");
    (lit "HTTPS", lit "HTTPS") ].

(* The loop of identify_service,
     for keyword, service in SERVICE_KEYWORDS.items():
         if keyword in response: return service
   over an arbitrary table; [None] when the loop runs to its end. *)
Fixpoint first_keyword (table : list (text * text)) (response : text)
  : option text :=
  match table with
  | [] => None
  | (keyword, service) :: rest =>
      if contains keyword response then Some service
      else first_keyword rest response
  end.

Definition classify (response : text) : option text :=
  first_keyword SERVICE_KEYWORDS response.

(* --------------------------------------------------------------------- *)
(* Traces and exceptions                                                 *)
(* --------------------------------------------------------------------- *)

(* An instance of Python's Exception class (OSError, socket.timeout,
   OverflowError, UnicodeError, ...), with its str(). *)
Inductive exception : Type :=
| Exception (message : text).

Definition message (e : exception) : text :=
  match e with Exception m => m end.

Inductive result (A : Type) : Type :=
| Ok (a : A)
| Raise (e : exception).
Arguments Ok {A} a.
Arguments Raise {A} e.

(* What a thread does to the outside: console, threads, queue, sockets.
   ScanPortCall and ScanPortReturn mark the entry and the normal exit of
   scan_port; QueueTaskDone carries the item the calling worker holds. *)
Inductive event : Type :=
| Print (line : text)
| ThreadStart
| QueuePut (port : Z)
| QueueJoin
| QueueGet (port : Z)
| QueueTaskDone (port : Z)
| ScanPortCall (ip : text) (port : Z) (verbose : bool)
| ScanPortReturn
| SocketCreate
| SetTimeout (seconds : Z)
| ConnectEx (ip : text) (port : Z)
| SendAll (data : bytes)
| Recv (bufsize : nat)
| SocketClose.

(* A computation: the events it performed, in order, and how it ended. *)
Definition M (A : Type) : Type := (list event * result A)%type.

Definition ret {A} (a : A) : M A := ([], Ok a).

Definition bind {A B} (m : M A) (k : A → M B) : M B :=
  match m with
  | (t, Ok a) => let '(t', r) := k a in (t ++ t', r)
  | (t, Raise e) => (t, Raise e)
  end.

#[global] Instance M_ret : MRet M := @ret.
#[global] Instance M_bind : MBind M := λ A B k m, bind m k.

(* A call that always succeeds. *)
Definition emit (e : event) : M unit := ([e], Ok tt).

(* A call whose outcome the environment decides. *)
Definition perform {A} (e : event) (r : result A) : M A := ([e], r).

(* try: body / except Exception as e: handler e *)
Definition try_except {A} (body : M A) (handler : exception → M A) : M A :=
  match body with
  | (t, Ok a) => (t, Ok a)
  | (t, Raise e) => let '(t', r) := handler e in (t ++ t', r)
  end.

(* for x in xs: body x *)
Fixpoint for_each {A} (xs : list A) (body : A → M unit) : M unit :=
  match xs with
  | [] => mret tt
  | x :: xs' => body x ;; for_each xs' body
  end.

Definition events {A} (m : M A) : list event := m.1.
Definition outcome {A} (m : M A) : result A := m.2.

(* The lines written to the console. *)
Definition printed (t : list event) : list text :=
  omap (λ e, match e with Print line => Some line | _ => None end) t.

(* --------------------------------------------------------------------- *)
(* The environment: sockets and the codec                                *)
(* --------------------------------------------------------------------- *)

(* How one stream socket answers: connect_ex returns an errno (0 on
   success) or raises; sendall returns or raises; recv returns the data
   that arrived or raises. *)
Record socket : Type := {
  connect_ex_result : result Z;
  sendall_result : bytes → result unit;
  recv_result : result bytes;
}.

(* The network gives the behaviour of the socket that is connected to
   (ip, port); the codec is bytes.decode(errors="ignore"). *)
Record environment : Type := {
  network : text → Z → socket;
  decode_ignore : bytes → result text;
}.

Definition connect_ex (sock : socket) (ip : text) (port : Z) : M Z :=
  perform (ConnectEx ip port) (connect_ex_result sock).

Definition sendall (sock : socket) (data : bytes) : M unit :=
  perform (SendAll data) (sendall_result sock data).

(* recv(bufsize) hands over at most bufsize octets. *)
Definition recv (sock : socket) (bufsize : nat) : M bytes :=
  perform (Recv bufsize)
    match recv_result sock with
    | Ok data => Ok (take bufsize data)
    | Raise e => Raise e
    end.

Definition decode (env : environment) (data : bytes) : M text :=
  ([], decode_ignore env data).

(* --------------------------------------------------------------------- *)
(* identify_service and scan_port                                        *)
(* --------------------------------------------------------------------- *)

Definition identify_service (env : environment) (sock : socket) (port : Z)
  : M text :=
  try_except
    (match SERVICE_PROBES !! port with
     | Some probe =>
         sendall sock probe ;;
         data ← recv sock 1024 ;
         response ← decode env data ;
         match classify response with
         | Some service => mret service
         | None => mret (lit "Unknown")
         end
     | None => mret (lit "Unknown")
     end)
    (λ _, mret (lit "Unknown")).

(* f"Port {port} is open (Service: {service_name})" *)
Definition open_line (port : Z) (service_name : text) : text :=
  lit "Port " ++ str_of_int port ++ lit " is open (Service: "
    ++ service_name ++ lit ")".

(* f"Error scanning port {port}: {e}" *)
Definition error_line (port : Z) (e : exception) : text :=
  lit "Error scanning port " ++ str_of_int port ++ lit ": " ++ message e.

(* scan_port on a system where socket.socket(), settimeout, close and
   print return normally, so that only the connection and the probe can
   fail. Full.scan_port below lets each of these calls raise as well and is
   this function where none of them does. *)
Definition scan_port (env : environment) (ip : text) (port : Z)
    (verbose : bool) : M unit :=
  emit (ScanPortCall ip port verbose) ;;
  try_except
    (let sock := network env ip port in
     emit SocketCreate ;;
     emit (SetTimeout 1) ;;
     result ← connect_ex sock ip port ;
     (if result =? 0 then
        service_name ←
          (if verbose then identify_service env sock port
           else mret (lit "Unknown")) ;
        emit (Print (open_line port service_name))
      else mret tt) ;;
     emit SocketClose)
    (λ e, emit (Print (error_line port e))) ;;
  emit ScanPortReturn.

(* --------------------------------------------------------------------- *)
(* threaded_port_scan and threader                                       *)
(* --------------------------------------------------------------------- *)

(* range(start, stop): empty when stop <= start. *)
Definition range (start stop : Z) : list Z := seqZ start (stop - start).

(* f"Scanning IP: {ip} from port {min_port} to {max_port} using threads...\n" *)
Definition banner (ip : text) (min_port max_port : Z) : text :=
  lit "Scanning IP: " ++ ip ++ lit " from port " ++ str_of_int min_port
    ++ lit " to " ++ str_of_int max_port ++ lit " using threads..."
    ++ [10%N].

(* The main thread. Thread(target=threader, args=(queue, ip)).start() is
   ThreadStart; queue.put and queue.join are requests to the shared queue,
   served by [step] below. *)
Definition threaded_port_scan (ip : text) (min_port max_port : Z) : M unit :=
  emit (Print (banner ip min_port max_port)) ;;
  let total_ports := max_port - min_port + 1 in
  let max_threads := Z.min 100 total_ports in
  for_each (range 0 max_threads) (λ _, emit ThreadStart) ;;
  for_each (range min_port (max_port + 1)) (λ port, emit (QueuePut port)) ;;
  emit QueueJoin.

(* What a worker does with the item [worker] it took from the queue, up
   to its call of queue.task_done(). *)
Definition threader (env : environment) (ip : text) (worker : Z) : M unit :=
  scan_port env ip worker (worker <=? 100).

(* --------------------------------------------------------------------- *)
(* Threads over the shared queue                                         *)
(* --------------------------------------------------------------------- *)

Inductive thread : Type :=
| Main
| Worker (i : nat).

#[global] Instance thread_eq_dec : EqDecision thread.
Proof. solve_decision. Defined.

(* A worker is at queue.get(), or inside its call for an item with the rest
   of that call still to run, or has died of an uncaught exception while it
   held an item. *)
Inductive worker_state : Type :=
| Getting
| Scanning (port : Z) (todo : list event) (r : result unit)
| Dead (port : Z).

(* queue.Queue: the FIFO of items and the count of tasks that were put and
   not yet marked done. *)
Record state : Type := {
  main : list event;
  workers : list worker_state;
  queue : list Z;
  unfinished_tasks : Z;
  trace : list (thread * event);
}.

Definition init (ip : text) (min_port max_port : Z) : state :=
  {| main := events (threaded_port_scan ip min_port max_port);
     workers := [];
     queue := [];
     unfinished_tasks := 0;
     trace := [] |}.

(* One step of the main thread: its next call. put appends and counts the
   task; join waits until the count is zero. *)
Definition step_main (s : state) : option state :=
  match main s with
  | [] => None
  | e :: rest =>
      let tr := trace s ++ [(Main, e)] in
      match e with
      | ThreadStart =>
          Some {| main := rest; workers := workers s ++ [Getting];
                  queue := queue s; unfinished_tasks := unfinished_tasks s;
                  trace := tr |}
      | QueuePut port =>
          Some {| main := rest; workers := workers s;
                  queue := queue s ++ [port];
                  unfinished_tasks := unfinished_tasks s + 1;
                  trace := tr |}
      | QueueJoin =>
          if unfinished_tasks s =? 0 then
            Some {| main := rest; workers := workers s; queue := queue s;
                    unfinished_tasks := unfinished_tasks s; trace := tr |}
          else None
      | _ =>
          Some {| main := rest; workers := workers s; queue := queue s;
                  unfinished_tasks := unfinished_tasks s; trace := tr |}
      end
  end.

(* One step of worker [i]: get waits for an item; the call for the item
   runs one event at a time; when it has returned, task_done lowers the
   count (ValueError below zero); an exception ends the thread.
   Full.step_worker below is this function for any call, and so also for
   calls of scan_port that end with an exception. *)
Definition step_worker (env : environment) (ip : text) (i : nat) (s : state)
  : option state :=
  match workers s !! i with
  | None => None
  | Some Getting =>
      match queue s with
      | [] => None
      | port :: rest =>
          let call := threader env ip port in
          Some {| main := main s;
                  workers := <[i := Scanning port (events call) (outcome call)]>
                               (workers s);
                  queue := rest; unfinished_tasks := unfinished_tasks s;
                  trace := trace s ++ [(Worker i, QueueGet port)] |}
      end
  | Some (Scanning port (e :: todo) r) =>
      Some {| main := main s;
              workers := <[i := Scanning port todo r]> (workers s);
              queue := queue s; unfinished_tasks := unfinished_tasks s;
              trace := trace s ++ [(Worker i, e)] |}
  | Some (Scanning port [] (Ok _)) =>
      if unfinished_tasks s <=? 0 then
        Some {| main := main s; workers := <[i := Dead port]> (workers s);
                queue := queue s; unfinished_tasks := unfinished_tasks s;
                trace := trace s |}
      else
        Some {| main := main s; workers := <[i := Getting]> (workers s);
                queue := queue s;
                unfinished_tasks := unfinished_tasks s - 1;
                trace := trace s ++ [(Worker i, QueueTaskDone port)] |}
  | Some (Scanning port [] (Raise _)) =>
      Some {| main := main s; workers := <[i := Dead port]> (workers s);
              queue := queue s; unfinished_tasks := unfinished_tasks s;
              trace := trace s |}
  | Some (Dead _) => None
  end.

Definition step (env : environment) (ip : text) (t : thread) (s : state)
  : option state :=
  match t with
  | Main => step_main s
  | Worker i => step_worker env ip i s
  end.

(* Running a schedule: the threads in the order they move. *)
Fixpoint run (env : environment) (ip : text) (schedule : list thread)
    (s : state) : option state :=
  match schedule with
  | [] => Some s
  | t :: schedule' =>
      match step env ip t s with
      | Some s' => run env ip schedule' s'
      | None => None
      end
  end.

(* The states an execution of threaded_port_scan can be in. *)
Definition steps (env : environment) (ip : text) (s s' : state) : Prop :=
  ∃ t, step env ip t s = Some s'.

Definition reachable (env : environment) (ip : text) (min_port max_port : Z)
    (s : state) : Prop :=
  rtc (steps env ip) (init ip min_port max_port) s.

(* threaded_port_scan has returned: the main thread has nothing left. *)
Definition returned (s : state) : Prop := main s = [].

(* No thread can move. *)
Definition quiescent (env : environment) (ip : text) (s : state) : Prop :=
  ∀ t, step env ip t s = None.

(* Readings of a trace. *)
Definition enqueued (tr : list (thread * event)) : list Z :=
  omap (λ te, match te.2 with QueuePut p => Some p | _ => None end) tr.

Definition dequeued (tr : list (thread * event)) : list Z :=
  omap (λ te, match te.2 with QueueGet p => Some p | _ => None end) tr.

Definition completed (tr : list (thread * event)) : list Z :=
  omap (λ te, match te.2 with QueueTaskDone p => Some p | _ => None end) tr.

Definition started (tr : list (thread * event)) : nat :=
  length (omap (λ te, match te.2 with ThreadStart => Some te.1 | _ => None end)
            tr).

Definition by_thread (t : thread) (tr : list (thread * event)) : list event :=
  omap (λ te, if decide (te.1 = t) then Some te.2 else None) tr.

(* The items that workers hold. *)
Definition held (ws : list worker_state) : list Z :=
  omap (λ w, match w with
             | Getting => None
             | Scanning p _ _ => Some p
             | Dead p => Some p
             end) ws.

(* Everything worker [i] does for item [p], in order: the put it answers,
   its get, its whole call of scan_port, its task_done. *)
Definition life_of_port (env : environment) (ip : text) (i : nat) (p : Z)
  : list (thread * event) :=
  [(Main, QueuePut p); (Worker i, QueueGet p)]
    ++ ((λ e, (Worker i, e)) <$> events (threader env ip p))
    ++ [(Worker i, QueueTaskDone p)].


(* Readings of what one thread does. *)
Definition puts (t : list event) : list Z :=
  omap (λ e, match e with QueuePut p => Some p | _ => None end) t.

Definition starts (t : list event) : nat :=
  length (omap (λ e, match e with ThreadStart => Some e | _ => None end) t).

(* The events of one call of scan_port, apart from the mark of its entry. *)
Definition scan_io (e : event) : Prop :=
  match e with
  | Print _ | ScanPortReturn | SocketCreate | SetTimeout _ | ConnectEx _ _
  | SendAll _ | Recv _ | SocketClose => True
  | _ => False
  end.

(* The worker count and the ports of a range. *)
Definition pool_size (min_port max_port : Z) : nat :=
  Z.to_nat (Z.min 100 (max_port - min_port + 1)).

Definition ports (min_port max_port : Z) : list Z :=
  seqZ min_port (max_port - min_port + 1).


(* --------------------------------------------------------------------- *)
(* The invariant of executions                                           *)
(* --------------------------------------------------------------------- *)

(* A worker inside a call is inside the call threader makes for the item it
   holds: the call returns normally, what it has done of it stands in the
   trace after the put and the get of the item; no worker is dead. *)
Definition worker_ok (env : environment) (ip : text)
    (tr : list (thread * event)) (i : nat) (w : worker_state) : Prop :=
  match w with
  | Getting => True
  | Scanning p todo r =>
      r = Ok tt
      ∧ ∃ done, done ++ todo = events (threader env ip p)
          ∧ ([(Main, QueuePut p); (Worker i, QueueGet p)]
               ++ ((λ e, (Worker i, e)) <$> done)) `sublist_of` tr
  | Dead _ => False
  end.

Record invariant (env : environment) (ip : text) (min_port max_port : Z)
    (s : state) : Prop := {
  (* the main thread is somewhere in its program *)
  inv_main :
    by_thread Main (trace s) ++ main s
    = events (threaded_port_scan ip min_port max_port);
  (* only the main thread puts and starts threads *)
  inv_enqueued : enqueued (trace s) = puts (by_thread Main (trace s));
  inv_started : started (trace s) = starts (by_thread Main (trace s));
  inv_pool : length (workers s) = started (trace s);
  (* the queue is first in, first out *)
  inv_fifo : enqueued (trace s) = dequeued (trace s) ++ queue s;
  (* an item taken is done or held by a worker *)
  inv_held : dequeued (trace s) ≡ₚ completed (trace s) ++ held (workers s);
  (* the count of Queue is the number of items queued or held *)
  inv_count :
    unfinished_tasks s
    = Z.of_nat (length (queue s) + length (held (workers s)));
  inv_worker :
    ∀ i w, workers s !! i = Some w → worker_ok env ip (trace s) i w;
  inv_queue : ∀ p, p ∈ queue s → (Main, QueuePut p) ∈ trace s;
  (* a task marked done went through its whole life, in order *)
  inv_done :
    ∀ i p, (Worker i, QueueTaskDone p) ∈ trace s →
           life_of_port env ip i p `sublist_of` trace s;
  (* every call of scan_port is the one threader makes *)
  inv_calls :
    ∀ t ip' p v, (t, ScanPortCall ip' p v) ∈ trace s →
                 ip' = ip ∧ v = (p <=? 100);
  (* after the return nothing is pending, and the return came last *)
  inv_returned :
    main s = [] →
    unfinished_tasks s = 0 ∧ last (trace s) = Some (Main, QueueJoin);
}.

(* A probe I/O error: the port has a probe, and sending it, receiving the
   answer or decoding what was received raises. *)
Definition probe_fails (env : environment) (sock : socket) (port : Z) : Prop :=
  ∃ probe, SERVICE_PROBES !! port = Some probe
    ∧ ((∃ e, sendall_result sock probe = Raise e)
       ∨ (∃ e, recv_result sock = Raise e)
       ∨ (∃ data e, recv_result sock = Ok data
                    ∧ decode_ignore env (take 1024 data) = Raise e)).

(* --------------------------------------------------------------------- *)
(* Scripted sockets and a small network, for concrete runs               *)
(* --------------------------------------------------------------------- *)

(* Nobody listens: connect_ex returns ECONNREFUSED. *)
Definition refused : socket :=
  {| connect_ex_result := Ok 111;
     sendall_result := λ _, Ok tt;
     recv_result := Ok [] |}.

(* A listener that answers every probe with [greeting]. *)
Definition listener (greeting : bytes) : socket :=
  {| connect_ex_result := Ok 0;
     sendall_result := λ _, Ok tt;
     recv_result := Ok greeting |}.

(* A listener that accepts and then stays silent until recv times out. *)
Definition silent : socket :=
  {| connect_ex_result := Ok 0;
     sendall_result := λ _, Ok tt;
     recv_result := Raise (Exception (lit "timed out")) |}.

(* connect_ex refuses a port number that does not fit 16 bits. *)
Definition overflow : exception :=
  Exception (lit "connect_ex(): port must be 0-65535.").

Definition unaddressable : socket :=
  {| connect_ex_result := Raise overflow;
     sendall_result := λ _, Ok tt;
     recv_result := Ok [] |}.

(* A codec for octets below 128, enough for the greetings used here. *)
Definition decode_ascii (data : bytes) : result text :=
  Ok ((λ b, N_of_ascii (ascii_of_byte b)) <$> data).

(* A host with FTP on 21 and a mute listener on 22. *)
Definition lab : environment :=
  {| network := λ _ port,
       if (port <? 0) || (65535 <? port) then unaddressable
       else if port =? 21 then listener (blit "220 Welcome")
       else if port =? 22 then silent
       else refused;
     decode_ignore := decode_ascii |}.

Definition target : text := lit "192.0.2.7".

(* A schedule that scans the ports 21 and 22 of [lab] with two workers that
   take turns, and then lets the main thread through its join. *)
Definition two_workers_schedule : list thread :=
  replicate 5 Main
    ++ mjoin (replicate 11 [Worker 0%nat; Worker 1%nat])
    ++ [Main].


(* For any range: the main thread runs up to its join, worker 0 alone
   takes and finishes every port in turn, and the main thread joins. *)
Definition sequential_schedule (env : environment) (ip : text)
    (min_port max_port : Z) : list thread :=
  replicate (1 + pool_size min_port max_port
               + length (ports min_port max_port)) Main
    ++ mjoin ((λ p, replicate (2 + length (events (threader env ip p)))
                      (Worker 0%nat))
                <$> ports min_port max_port)
    ++ [Main].

(* --------------------------------------------------------------------- *)
(* Further readings of executions                                        *)
(* --------------------------------------------------------------------- *)

(* What the workers did, in the order it happened. *)
Definition by_workers (tr : list (thread * event)) : list event :=
  omap (λ te, match te.1 with Worker _ => Some te.2 | Main => None end) tr.

(* What the workers inside a call have still to do of it. *)
Definition todo_of (w : worker_state) : list event :=
  match w with Scanning _ todo _ => todo | _ => [] end.

Definition pending (ws : list worker_state) : list event :=
  mjoin (todo_of <$> ws).

(* Connection attempts, probes sent, sockets created and closed. *)
Definition connections (t : list event) : list (text * Z) :=
  omap (λ e, match e with ConnectEx ip p => Some (ip, p) | _ => None end) t.

Definition sent (t : list event) : list bytes :=
  omap (λ e, match e with SendAll data => Some data | _ => None end) t.

Definition created (t : list event) : list unit :=
  omap (λ e, match e with SocketCreate => Some tt | _ => None end) t.

Definition closed (t : list event) : list unit :=
  omap (λ e, match e with SocketClose => Some tt | _ => None end) t.

(* Does connect_ex return (an errno) rather than raise? *)
Definition connect_returns (env : environment) (ip : text) (p : Z) : bool :=
  match connect_ex_result (network env ip p) with
  | Ok _ => true
  | Raise _ => false
  end.

(* The service name scan_port prints for an open port when threader calls
   it: identified for a port up to 100, "Unknown" above. *)
Definition service_name (env : environment) (ip : text) (p : Z) : text :=
  if p <=? 100 then
    match outcome (identify_service env (network env ip p) p) with
    | Ok service => service
    | Raise _ => lit "Unknown"
    end
  else lit "Unknown".


(* --------------------------------------------------------------------- *)
(* resolve_dns and main                                                  *)
(* --------------------------------------------------------------------- *)

Module EntryPoint.

(* What socket.gethostbyname(host) does: it returns an address, raises
   socket.gaierror, or raises something else (UnicodeError for a label
   that cannot be encoded). *)
Inductive resolution : Type :=
| Resolved (ip : text)
| Gaierror (e : exception)
| OtherError (e : exception).

(* try: ... except socket.gaierror: ...; any other exception goes on. *)
Definition resolve_dns (gethostbyname : text → resolution) (host : text)
  : M (option text) :=
  match gethostbyname host with
  | Resolved ip =>
      emit (Print (lit "Resolved IP for " ++ host ++ lit ": " ++ ip)) ;;
      mret (Some ip)
  | Gaierror _ =>
      emit (Print (lit "Error: Unable to resolve " ++ host)) ;;
      mret None
  | OtherError e => ([], Raise e)
  end.

(* The result of parser.parse_args(): target, -p, --min, --max. *)
Record Namespace : Type := {
  args_target : text;
  args_p : bool;
  args_min : Z;
  args_max : Z;
}.

(* main() from parse_args() on. *)
Definition main (gethostbyname : text → resolution) (args : Namespace)
  : M unit :=
  ip ← resolve_dns gethostbyname (args_target args) ;
  match ip with
  | None => mret tt
  | Some ip => threaded_port_scan ip (args_min args) (args_max args)
  end.

End EntryPoint.

(* The calls of scan_port, with the arguments passed. *)
Definition calls (t : list event) : list (text * Z * bool) :=
  omap (λ e, match e with
             | ScanPortCall ip p verbose => Some (ip, p, verbose)
             | _ => None
             end) t.

(* A schedule for two ports nobody listens on: worker 0 scans the first,
   then worker 1 the second, then the main thread joins. *)
Definition boundary_schedule : list thread :=
  replicate 5 Main ++ replicate 8 (Worker 0%nat)
    ++ replicate 8 (Worker 1%nat) ++ [Main].

(* --------------------------------------------------------------------- *)
(* scan_port on a system whose every call can fail                       *)
(* --------------------------------------------------------------------- *)

(* The events of the queue and of thread creation: what a call of
   scan_port never does. *)
Definition queue_event (e : event) : Prop :=
  match e with
  | ThreadStart | QueuePut _ | QueueJoin | QueueGet _ | QueueTaskDone _ => True
  | _ => False
  end.

(* The items whose worker has died. *)
Definition dead (ws : list worker_state) : list Z :=
  omap (λ w, match w with Dead p => Some p | _ => None end) ws.

Module Full.

(* What the calls of scan_port other than the connection do during one
   call: socket.socket(), sock.settimeout(1) and sock.close() return or
   raise (OSError), and so does print(line) (a closed pipe, say). *)
Record effects : Type := {
  socket_result : result unit;
  settimeout_result : result unit;
  close_result : result unit;
  print_result : text → result unit;
}.

Definition print (fx : effects) (line : text) : M unit :=
  perform (Print line) (print_result fx line).

(* scan_port with every call of its try body, and the print of its except
   clause, performed: an event stands for the call, which returns or
   raises as [fx] and the socket say. An exception raised by the print of
   the except clause is not caught by anything. *)
Definition scan_port (env : environment) (fx : effects) (ip : text) (port : Z)
    (verbose : bool) : M unit :=
  emit (ScanPortCall ip port verbose) ;;
  try_except
    (let sock := network env ip port in
     perform SocketCreate (socket_result fx) ;;
     perform (SetTimeout 1) (settimeout_result fx) ;;
     result ← connect_ex sock ip port ;
     (if result =? 0 then
        service_name ←
          (if verbose then identify_service env sock port
           else mret (lit "Unknown")) ;
        print fx (open_line port service_name)
      else mret tt) ;;
     perform SocketClose (close_result fx))
    (λ e, print fx (error_line port e)) ;;
  emit ScanPortReturn.

(* [os ip port] is what the system does during the call for (ip, port). *)
Definition threader (env : environment) (os : text → Z → effects)
    (ip : text) (worker : Z) : M unit :=
  scan_port env (os ip worker) ip worker (worker <=? 100).

(* One step of worker [i], where [call port] is what the worker does with
   an item between queue.get() and queue.task_done(): as step_worker, for
   any such call. A call that ended with an exception ends the thread,
   which keeps the item and never marks it done. *)
Definition step_worker (call : Z → M unit) (i : nat) (s : state)
  : option state :=
  match workers s !! i with
  | None => None
  | Some Getting =>
      match queue s with
      | [] => None
      | port :: rest =>
          Some {| main := main s;
                  workers := <[i := Scanning port (events (call port))
                                       (outcome (call port))]>
                               (workers s);
                  queue := rest; unfinished_tasks := unfinished_tasks s;
                  trace := trace s ++ [(Worker i, QueueGet port)] |}
      end
  | Some (Scanning port (e :: todo) r) =>
      Some {| main := main s;
              workers := <[i := Scanning port todo r]> (workers s);
              queue := queue s; unfinished_tasks := unfinished_tasks s;
              trace := trace s ++ [(Worker i, e)] |}
  | Some (Scanning port [] (Ok _)) =>
      if unfinished_tasks s <=? 0 then
        Some {| main := main s; workers := <[i := Dead port]> (workers s);
                queue := queue s; unfinished_tasks := unfinished_tasks s;
                trace := trace s |}
      else
        Some {| main := main s; workers := <[i := Getting]> (workers s);
                queue := queue s;
                unfinished_tasks := unfinished_tasks s - 1;
                trace := trace s ++ [(Worker i, QueueTaskDone port)] |}
  | Some (Scanning port [] (Raise _)) =>
      Some {| main := main s; workers := <[i := Dead port]> (workers s);
              queue := queue s; unfinished_tasks := unfinished_tasks s;
              trace := trace s |}
  | Some (Dead _) => None
  end.

Definition step (call : Z → M unit) (t : thread) (s : state) : option state :=
  match t with
  | Main => step_main s
  | Worker i => step_worker call i s
  end.

Fixpoint run (call : Z → M unit) (schedule : list thread) (s : state)
  : option state :=
  match schedule with
  | [] => Some s
  | t :: schedule' =>
      match step call t s with
      | Some s' => run call schedule' s'
      | None => None
      end
  end.

Definition steps (call : Z → M unit) (s s' : state) : Prop :=
  ∃ t, step call t s = Some s'.

Definition reachable (call : Z → M unit) (ip : text) (min_port max_port : Z)
    (s : state) : Prop :=
  rtc (steps call) (init ip min_port max_port) s.

(* No thread can move: the main thread waits in join or has returned, every
   worker waits in get or is dead. *)
Definition stuck (call : Z → M unit) (s : state) : Prop :=
  ∀ t, step call t s = None.

(* A worker inside the call for an item, or dead of it, against the trace. *)
Definition worker_ok (call : Z → M unit) (tr : list (thread * event))
    (i : nat) (w : worker_state) : Prop :=
  match w with
  | Getting => True
  | Scanning p todo r =>
      r = outcome (call p)
      ∧ ∃ done, done ++ todo = events (call p)
          ∧ ((λ e, (Worker i, e)) <$> done) `sublist_of` tr
  | Dead p =>
      (∃ x, outcome (call p) = Raise x)
      ∧ ((λ e, (Worker i, e)) <$> events (call p)) `sublist_of` tr
  end.

Record invariant (call : Z → M unit) (ip : text) (min_port max_port : Z)
    (s : state) : Prop := {
  inv_main :
    by_thread Main (trace s) ++ main s
    = events (threaded_port_scan ip min_port max_port);
  inv_enqueued : enqueued (trace s) = puts (by_thread Main (trace s));
  inv_started : started (trace s) = starts (by_thread Main (trace s));
  inv_pool : length (workers s) = started (trace s);
  inv_fifo : enqueued (trace s) = dequeued (trace s) ++ queue s;
  inv_held : dequeued (trace s) ≡ₚ completed (trace s) ++ held (workers s);
  inv_count :
    unfinished_tasks s
    = Z.of_nat (length (queue s) + length (held (workers s)));
  inv_worker : ∀ i w, workers s !! i = Some w → worker_ok call (trace s) i w;
  (* a task is marked done only after its call returned *)
  inv_done :
    ∀ t p, (t, QueueTaskDone p) ∈ trace s → outcome (call p) = Ok tt;
  inv_returned : main s = [] → unfinished_tasks s = 0;
}.

(* The steps a port costs a worker: its get, its call, and its task_done
   or its death. *)
Definition cost (call : Z → M unit) (p : Z) : nat :=
  2 + length (events (call p)).

(* The steps an execution has still to make. *)
Definition work (call : Z → M unit) (s : state) : nat :=
  sum_list_with (λ e, match e with
                      | QueuePut p => S (cost call p)
                      | _ => 1%nat
                      end) (main s)
  + sum_list_with (cost call) (queue s)
  + sum_list_with (λ w, match w with
                        | Scanning _ todo _ => S (length todo)
                        | _ => 0%nat
                        end) (workers s).

(* Does the call for (ip, p) get as far as its connection attempt? *)
Definition connects (os : text → Z → effects) (ip : text) (p : Z) : bool :=
  match socket_result (os ip p), settimeout_result (os ip p) with
  | Ok _, Ok _ => true
  | _, _ => false
  end.

(* Does the call for (ip, p) get as far as sock.close()? Everything
   before it in the try body has to return. *)
Definition closes (env : environment) (fx : effects) (ip : text) (p : Z)
    (verbose : bool) : bool :=
  match socket_result fx, settimeout_result fx,
        connect_ex_result (network env ip p) with
  | Ok _, Ok _, Ok code =>
      if code =? 0 then
        match print_result fx
                (open_line p
                   match outcome (if verbose
                                  then identify_service env (network env ip p) p
                                  else mret (lit "Unknown")) with
                   | Ok service => service
                   | Raise _ => lit "Unknown"
                   end) with
        | Ok _ => true
        | Raise _ => false
        end
      else true
  | _, _, _ => false
  end.

(* A system on which nothing but the connection can fail. *)
Definition calm : effects :=
  {| socket_result := Ok tt;
     settimeout_result := Ok tt;
     close_result := Ok tt;
     print_result := λ _, Ok tt |}.

(* The process has run out of file descriptors. *)
Definition EMFILE : exception :=
  Exception (lit "[Errno 24] Too many open files").

Definition no_descriptors : effects :=
  {| socket_result := Raise EMFILE;
     settimeout_result := Ok tt;
     close_result := Ok tt;
     print_result := λ _, Ok tt |}.

(* The reader of the console has gone away. *)
Definition EPIPE : exception := Exception (lit "[Errno 32] Broken pipe").

Definition closed_pipe : effects :=
  {| socket_result := Ok tt;
     settimeout_result := Ok tt;
     close_result := Ok tt;
     print_result := λ _, Raise EPIPE |}.

(* No descriptor is left when port 22 is scanned. *)
Definition starved : text → Z → effects :=
  λ _ port, if port =? 22 then no_descriptors else calm.

(* The console is gone during every call of scan_port. *)
Definition piped : text → Z → effects := λ _ _, closed_pipe.

End Full.

(* Ports 21 and 22 of [lab] on the starved system: worker 0 scans 21,
   worker 1 scans 22, the main thread joins. *)
Definition starved_schedule : list thread :=
  replicate 5 Main ++ replicate 11 (Worker 0%nat)
    ++ replicate 6 (Worker 1%nat) ++ [Main].

(* Port 21 of [lab] on the piped system: the main thread runs up to its
   join, worker 0 takes the port and runs to the end of its thread. *)
Definition piped_schedule : list thread :=
  replicate 3 Main ++ replicate 10 (Worker 0%nat).

(* ===================================================================== *)
(* Part II. Theorems                                                     *)
(* ===================================================================== *)

(* --------------------------------------------------------------------- *)
(* Substrings                                                            *)
(* --------------------------------------------------------------------- *)

Lemma starts_with_spec (k t : text) :
  starts_with k t = true ↔ ∃ after, t = k ++ after.
Proof.
  revert t. induction k as [|a k IH]; intros t; simpl.
  - split; [intros _; by exists t | done].
  - destruct t as [|b t].
    + split; [done | intros [after H]; discriminate H].
    + rewrite andb_true_iff, N.eqb_eq, IH. split.
      * intros [-> [after ->]]. by exists after.
      * intros [after H]. injection H as -> ->. eauto.
Qed.

Lemma contains_spec (k t : text) : contains k t = true ↔ substring k t.
Proof.
  unfold substring. induction t as [|b t IH]; simpl.
  - rewrite orb_false_r, starts_with_spec. split.
    + intros [after H]. by exists [], after.
    + intros ([|x before] & after & H); [by exists after | discriminate H].
  - rewrite orb_true_iff, starts_with_spec, IH. split.
    + intros [[after H] | (before & after & H)].
      * by exists [], after.
      * exists (b :: before), after. by rewrite H.
    + intros ([|x before] & after & H).
      * left. by exists after.
      * right. injection H as _ H. eauto.
Qed.

Lemma contains_false (k t : text) : contains k t = false ↔ ¬ substring k t.
Proof. rewrite <- contains_spec. by destruct (contains k t). Qed.

Lemma substring_app_l (k k' t : text) : substring (k ++ k') t → substring k t.
Proof.
  intros (before & after & ->). exists before, (k' ++ after).
  by rewrite <- (assoc_L (++) k).
Qed.

(* --------------------------------------------------------------------- *)
(* Classification                                                        *)
(* --------------------------------------------------------------------- *)

(* The loop returns the service of the first entry whose keyword occurs. *)
Lemma first_keyword_spec (table : list (text * text)) (response : text) :
  match first_keyword table response with
  | Some service =>
      ∃ earlier keyword later,
        table = earlier ++ (keyword, service) :: later
        ∧ substring keyword response
        ∧ Forall (λ ks, ¬ substring ks.1 response) earlier
  | None => Forall (λ ks, ¬ substring ks.1 response) table
  end.
Proof.
  induction table as [|[keyword service] rest IH]; simpl; [constructor|].
  destruct (contains keyword response) eqn:Hc.
  - exists [], keyword, rest. split_and!; [done | by apply contains_spec | constructor].
  - apply contains_false in Hc. destruct (first_keyword rest response).
    + destruct IH as (earlier & kw & later & -> & Hkw & Hno).
      exists ((keyword, service) :: earlier), kw, later.
      split_and!; [done | done | by constructor].
    + by constructor.
Qed.

(** C5: classification walks SERVICE_KEYWORDS in the order of the table and
    returns the service of the first keyword that occurs in the decoded
    response as a substring, code point for code point (so the match is
    case-sensitive); it finds nothing exactly when no keyword occurs. A
    response with "220" and without "HTTP" is FTP; a response with both
    "HTTP" and "220" is HTTP, wherever the two stand in the text. *)
Theorem classify_first_keyword (response : text) :
  match classify response with
  | Some service =>
      ∃ earlier keyword later,
        SERVICE_KEYWORDS = earlier ++ (keyword, service) :: later
        ∧ substring keyword response
        ∧ Forall (λ ks, ¬ substring ks.1 response) earlier
  | None => Forall (λ ks, ¬ substring ks.1 response) SERVICE_KEYWORDS
  end
  ∧ (substring (lit "220") response → ¬ substring (lit "HTTP") response →
     classify response = Some (lit "FTP"))
  ∧ (substring (lit "HTTP") response → substring (lit "220") response →
     classify response = Some (lit "HTTP")).
Proof.
  split; [apply first_keyword_spec|].
  unfold classify, SERVICE_KEYWORDS. cbn [first_keyword]. split.
  - intros H220 Hhttp.
    apply contains_spec in H220. apply contains_false in Hhttp.
    by rewrite Hhttp, H220.
  - intros Hhttp _. apply contains_spec in Hhttp. by rewrite Hhttp.
Qed.

Lemma classify_first_keyword_witness :
  classify (lit "220 HTTP/1.0 ready") = Some (lit "HTTP")
  ∧ classify (lit "220 Welcome") = Some (lit "FTP").
Proof.
  split.
  - apply (proj2 (proj2 (classify_first_keyword (lit "220 HTTP/1.0 ready")))).
    + by exists (lit "220 "), (lit "/1.0 ready").
    + by exists [], (lit " HTTP/1.0 ready").
  - apply (proj1 (proj2 (classify_first_keyword (lit "220 Welcome")))).
    + by exists [], (lit " Welcome").
    + apply contains_false. reflexivity.
Defined.

(* The match is on code points: lower case does not hit the upper-case
   keywords. *)
Example classify_case_sensitive :
  classify (lit "http/1.1 ssh ftp") = None
  ∧ classify (lit "ssh-2.0 SSH") = Some (lit "SSH").
Proof. split; reflexivity. Qed.

(** C9: classification never answers "HTTPS": a text in which "HTTPS"
    occurs also has "HTTP", which stands first in SERVICE_KEYWORDS, so
    such a text is classified as "HTTP" and the last entry of the table
    is never reached. *)
Theorem classify_never_HTTPS (response : text) :
  classify response ≠ Some (lit "HTTPS")
  ∧ (substring (lit "HTTPS") response →
     classify response = Some (lit "HTTP")).
Proof.
  assert (Hsub : substring (lit "HTTPS") response →
                 contains (lit "HTTP") response = true).
  { intros H. apply contains_spec. by apply (substring_app_l _ (lit "S")). }
  unfold classify, SERVICE_KEYWORDS. cbn [first_keyword]. split.
  - destruct (contains (lit "HTTP") response) eqn:Hhttp; [by vm_compute|].
    repeat match goal with
           | |- context [contains ?k response] =>
               lazymatch k with
               | lit "HTTPS" => fail
               | _ => destruct (contains k response); [by vm_compute|]
               end
           end.
    destruct (contains (lit "HTTPS") response) eqn:Hhttps; [|done].
    apply contains_spec, Hsub in Hhttps. congruence.
  - intros H. by rewrite (Hsub H).
Qed.

Lemma classify_never_HTTPS_witness :
  classify (lit "HTTPS/1.1 200 OK") = Some (lit "HTTP").
Proof.
  apply (proj2 (classify_never_HTTPS (lit "HTTPS/1.1 200 OK"))).
  by exists [], (lit "/1.1 200 OK").
Defined.

(* --------------------------------------------------------------------- *)
(* identify_service and scan_port                                        *)
(* --------------------------------------------------------------------- *)

Ltac unfold_m :=
  unfold threader, scan_port, identify_service, connect_ex, sendall, recv,
    decode, try_except, emit, perform, events, outcome,
    mbind, M_bind, bind, mret, M_ret, ret in *.

Lemma identify_service_events (env : environment) (sock : socket) (port : Z) :
  ∀ e, e ∈ events (identify_service env sock port) →
       (∃ data, e = SendAll data) ∨ (∃ n, e = Recv n).
Proof.
  unfold_m. intros e.
  destruct (SERVICE_PROBES !! port) as [probe|]; cbn -[classify];
    [|by intros ?%elem_of_nil].
  assert (Hin : e ∈ [SendAll probe; Recv 1024] →
                (∃ data, e = SendAll data) ∨ (∃ n, e = Recv n)).
  { rewrite !elem_of_cons, elem_of_nil. intros [->|[->|[]]]; eauto. }
  destruct (sendall_result sock probe); cbn -[classify];
    [|rewrite elem_of_cons, elem_of_nil; intros [->|[]]; eauto].
  destruct (recv_result sock) as [data|]; cbn -[classify]; [|done].
  destruct (decode_ignore env (take 1024 data)) as [response|];
    cbn -[classify]; [|done].
  by destruct (classify response).
Qed.

Lemma identify_service_returns (env : environment) (sock : socket) (port : Z) :
  ∃ service, outcome (identify_service env sock port) = Ok service.
Proof.
  unfold_m.
  destruct (SERVICE_PROBES !! port) as [probe|]; cbn -[classify]; [|eauto].
  destruct (sendall_result sock probe); cbn -[classify]; [|eauto].
  destruct (recv_result sock) as [data|]; cbn -[classify]; [|eauto].
  destruct (decode_ignore env (take 1024 data)) as [response|];
    cbn -[classify]; [|eauto].
  destruct (classify response); cbn; eauto.
Qed.

Lemma identify_service_unknown (env : environment) (sock : socket) (port : Z) :
  probe_fails env sock port →
  outcome (identify_service env sock port) = Ok (lit "Unknown").
Proof.
  intros (probe & Hprobe & Hfail). unfold_m. rewrite Hprobe.
  destruct (sendall_result sock probe) as [[]|e1] eqn:Hsend;
    cbn -[classify]; [|done].
  destruct (recv_result sock) as [data|e2] eqn:Hrecv; cbn -[classify]; [|done].
  destruct (decode_ignore env (take 1024 data)) as [response|e3] eqn:Hdec;
    cbn -[classify]; [|done].
  destruct Hfail as [[e H] | [[e H] | (data' & e & H1 & H2)]]; try congruence.
Qed.

(* What scan_port does, by the way the connection attempt ends. *)
Lemma scan_port_refused (env : environment) (ip : text) (port : Z)
    (verbose : bool) (code : Z) :
  connect_ex_result (network env ip port) = Ok code → code ≠ 0 →
  scan_port env ip port verbose =
    ([ScanPortCall ip port verbose; SocketCreate; SetTimeout 1;
      ConnectEx ip port; SocketClose; ScanPortReturn], Ok tt).
Proof.
  intros Hc Hne. unfold_m. rewrite Hc.
  by destruct (Z.eqb_spec code 0).
Qed.

Lemma scan_port_raised (env : environment) (ip : text) (port : Z)
    (verbose : bool) (e : exception) :
  connect_ex_result (network env ip port) = Raise e →
  scan_port env ip port verbose =
    ([ScanPortCall ip port verbose; SocketCreate; SetTimeout 1;
      ConnectEx ip port; Print (error_line port e); ScanPortReturn], Ok tt).
Proof. intros Hc. unfold_m. by rewrite Hc. Qed.

Lemma scan_port_open (env : environment) (ip : text) (port : Z)
    (verbose : bool) :
  connect_ex_result (network env ip port) = Ok 0 →
  ∃ probing service,
    (if verbose
     then identify_service env (network env ip port) port
     else mret (lit "Unknown")) = (probing, Ok service)
    ∧ scan_port env ip port verbose =
        ([ScanPortCall ip port verbose; SocketCreate; SetTimeout 1;
          ConnectEx ip port] ++ probing
           ++ [Print (open_line port service); SocketClose; ScanPortReturn],
         Ok tt).
Proof.
  intros Hc.
  destruct (identify_service_returns env (network env ip port) port)
    as [service Hs].
  destruct (identify_service env (network env ip port) port)
    as [probing r] eqn:Hid.
  unfold outcome in Hs; simpl in Hs; subst r.
  destruct verbose.
  - exists probing, service. split; [done|].
    unfold scan_port, connect_ex, try_except, emit, perform,
      mbind, M_bind, bind. rewrite Hc. cbn -[identify_service].
    rewrite Hid. cbn. by rewrite <- !(assoc_L (++)).
  - exists [], (lit "Unknown"). split; [done|].
    unfold_m. rewrite Hc. done.
Qed.

Lemma scan_port_returns (env : environment) (ip : text) (port : Z)
    (verbose : bool) :
  outcome (scan_port env ip port verbose) = Ok tt.
Proof.
  destruct (connect_ex_result (network env ip port)) as [code|e] eqn:Hc.
  - destruct (decide (code = 0)) as [->|Hne].
    + destruct (scan_port_open env ip port verbose Hc) as (? & ? & _ & ->).
      done.
    + by rewrite (scan_port_refused _ _ _ _ code).
  - by rewrite (scan_port_raised _ _ _ _ e).
Qed.

Lemma printed_app (t1 t2 : list event) :
  printed (t1 ++ t2) = printed t1 ++ printed t2.
Proof. apply omap_app. Qed.

Lemma identify_service_silent (env : environment) (sock : socket) (port : Z) :
  printed (events (identify_service env sock port)) = [].
Proof.
  pose proof (identify_service_events env sock port) as Hev.
  induction (events (identify_service env sock port)) as [|e t IH]; [done|].
  unfold printed. simpl.
  destruct (Hev e) as [[data ->] | [n ->]]; [left | | ]; simpl;
    apply IH; intros e' He'; apply Hev; by right.
Qed.

(** C7: identify_service never hands an exception to its caller: it always
    returns a service name, and when sending the probe, receiving the
    answer or decoding it raises, that name is "Unknown". In scan_port a
    connection that succeeded is then still reported, as open with service
    "Unknown", and scan_port returns normally. *)
Theorem identify_service_contains_errors
    (env : environment) (sock : socket) (port : Z) :
  (∃ service, outcome (identify_service env sock port) = Ok service)
  ∧ (probe_fails env sock port →
     outcome (identify_service env sock port) = Ok (lit "Unknown"))
  ∧ (∀ ip verbose,
       sock = network env ip port →
       connect_ex_result sock = Ok 0 →
       probe_fails env sock port →
       outcome (scan_port env ip port verbose) = Ok tt
       ∧ printed (events (scan_port env ip port verbose))
         = [open_line port (lit "Unknown")]).
Proof.
  split_and!.
  - apply identify_service_returns.
  - apply identify_service_unknown.
  - intros ip verbose -> Hc Hfail. split; [apply scan_port_returns|].
    destruct (scan_port_open env ip port verbose Hc)
      as (probing & service & Hid & ->).
    unfold events; simpl. rewrite (printed_app probing). unfold printed at 2.
    simpl. destruct verbose.
    + pose proof (identify_service_unknown _ _ _ Hfail) as Hu.
      pose proof (identify_service_silent env (network env ip port) port) as Hs.
      rewrite Hid in Hu, Hs. unfold outcome, events in *; simpl in *.
      injection Hu as ->. by rewrite Hs.
    + injection Hid as <- <-. done.
Qed.

Lemma identify_service_contains_errors_witness :
  outcome (identify_service lab (network lab target 22) 22) = Ok (lit "Unknown")
  ∧ printed (events (scan_port lab target 22 true))
    = [lit "Port 22 is open (Service: Unknown)"].
Proof.
  assert (Hfail : probe_fails lab (network lab target 22) 22).
  { exists [LF]. split; [reflexivity|]. right; left.
    by exists (Exception (lit "timed out")). }
  destruct (identify_service_contains_errors lab (network lab target 22) 22)
    as (_ & Hunknown & Hopen).
  split; [exact (Hunknown Hfail)|].
  exact (proj2 (Hopen target true eq_refl eq_refl Hfail)).
Defined.




(** C6 (the code departs from it): when connect_ex raises, scan_port goes
    to its except clause and returns without closing the socket it
    created; on the two paths where connect_ex returns, the socket is
    closed. *)
Theorem scan_port_exception_skips_close :
  events (scan_port lab target 70000 false)
  = [ScanPortCall target 70000 false; SocketCreate; SetTimeout 1;
     ConnectEx target 70000; Print (error_line 70000 overflow);
     ScanPortReturn]
  ∧ SocketCreate ∈ events (scan_port lab target 70000 false)
  ∧ (SocketClose ∉ events (scan_port lab target 70000 false))
  ∧ SocketClose ∈ events (scan_port lab target 21 true)
  ∧ SocketClose ∈ events (scan_port lab target 23 true).
Proof.
  split_and!.
  - reflexivity.
  - vm_compute. apply list_elem_of_In. simpl. tauto.
  - vm_compute. intros H%list_elem_of_In. simpl in H.
    repeat (destruct H as [H|H]; [discriminate H|]). done.
  - vm_compute. apply list_elem_of_In. simpl. tauto.
  - vm_compute. apply list_elem_of_In. simpl. tauto.
Qed.

(* In general: no close on the exception path, one close otherwise. *)
Lemma scan_port_close_paths
    (env : environment) (ip : text) (port : Z) (verbose : bool) :
  match connect_ex_result (network env ip port) with
  | Raise _ => SocketClose ∉ events (scan_port env ip port verbose)
  | Ok _ => SocketClose ∈ events (scan_port env ip port verbose)
  end.
Proof.
  destruct (connect_ex_result (network env ip port)) as [code|e] eqn:Hc.
  - destruct (decide (code = 0)) as [->|Hne].
    + destruct (scan_port_open env ip port verbose Hc) as (? & ? & _ & ->).
      unfold events; simpl. rewrite !elem_of_cons, elem_of_app, !elem_of_cons.
      tauto.
    + rewrite (scan_port_refused _ _ _ _ code) by done.
      unfold events; simpl. rewrite !elem_of_cons. tauto.
  - rewrite (scan_port_raised _ _ _ _ e) by done.
    unfold events; simpl. rewrite !elem_of_cons, elem_of_nil.
    intros [H|[H|[H|[H|[H|[H|[]]]]]]]; discriminate H.
Qed.

(* --------------------------------------------------------------------- *)
(* threaded_port_scan, as the main thread runs it                        *)
(* --------------------------------------------------------------------- *)

Lemma for_each_emit {A} (xs : list A) (f : A → event) :
  for_each xs (λ x, emit (f x)) = (f <$> xs, Ok tt).
Proof.
  induction xs as [|x xs IH]; [done|].
  simpl. unfold mbind, M_bind, bind, emit in *. by rewrite IH.
Qed.

(* The main thread, call by call: the banner, the workers, the ports,
   the join; and it returns normally. *)
Lemma threaded_port_scan_unfold (ip : text) (min_port max_port : Z) :
  threaded_port_scan ip min_port max_port =
    ([Print (banner ip min_port max_port)]
       ++ replicate (pool_size min_port max_port) ThreadStart
       ++ (QueuePut <$> ports min_port max_port)
       ++ [QueueJoin],
     Ok tt).
Proof.
  unfold threaded_port_scan, range, pool_size, ports.
  rewrite (for_each_emit _ (λ _, ThreadStart)), (for_each_emit _ QueuePut).
  rewrite (const_fmap (λ _, ThreadStart) _ ThreadStart) by (intros; reflexivity).
  rewrite length_seqZ.
  unfold mbind, M_bind, bind, emit. simpl.
  by replace (max_port + 1 - min_port) with (max_port - min_port + 1) by lia;
    replace (Z.min 100 (max_port - min_port + 1) - 0)
      with (Z.min 100 (max_port - min_port + 1)) by lia.
Qed.

Lemma puts_app (t1 t2 : list event) : puts (t1 ++ t2) = puts t1 ++ puts t2.
Proof. apply omap_app. Qed.

Lemma starts_app (t1 t2 : list event) : starts (t1 ++ t2) = (starts t1 + starts t2)%nat.
Proof. unfold starts. by rewrite omap_app, length_app. Qed.

Lemma puts_replicate_start (n : nat) : puts (replicate n ThreadStart) = [].
Proof. by induction n. Qed.

Lemma starts_replicate_start (n : nat) : starts (replicate n ThreadStart) = n.
Proof. induction n; [done|]. unfold starts in *. simpl. by f_equal. Qed.

Lemma puts_fmap_put (ps : list Z) : puts (QueuePut <$> ps) = ps.
Proof. induction ps; [done|]. unfold puts in *. simpl. by f_equal. Qed.

Lemma starts_fmap_put (ps : list Z) : starts (QueuePut <$> ps) = 0%nat.
Proof. by induction ps. Qed.

Lemma ports_ascending (m len : Z) : StronglySorted Z.lt (seqZ m len).
Proof.
  destruct (decide (len ≤ 0)) as [Hle|Hpos];
    [rewrite seqZ_nil by done; constructor|].
  rewrite <- (Z2Nat.id len) by lia. generalize (Z.to_nat len).
  intros n. revert m. induction n as [|n IH]; intros m.
  - rewrite seqZ_nil by done. constructor.
  - rewrite seqZ_cons by lia.
    replace (Z.pred (Z.of_nat (S n))) with (Z.of_nat n) by lia.
    constructor; [apply IH|].
    apply Forall_seqZ. lia.
Qed.

(* --------------------------------------------------------------------- *)
(* Executions                                                            *)
(* --------------------------------------------------------------------- *)

Lemma enqueued_snoc tr t e :
  enqueued (tr ++ [(t, e)])
  = enqueued tr ++ match e with QueuePut p => [p] | _ => [] end.
Proof. unfold enqueued. rewrite omap_app. by destruct e. Qed.

Lemma dequeued_snoc tr t e :
  dequeued (tr ++ [(t, e)])
  = dequeued tr ++ match e with QueueGet p => [p] | _ => [] end.
Proof. unfold dequeued. rewrite omap_app. by destruct e. Qed.

Lemma completed_snoc tr t e :
  completed (tr ++ [(t, e)])
  = completed tr ++ match e with QueueTaskDone p => [p] | _ => [] end.
Proof. unfold completed. rewrite omap_app. by destruct e. Qed.

Lemma started_snoc tr t e :
  started (tr ++ [(t, e)])
  = (started tr + match e with ThreadStart => 1 | _ => 0 end)%nat.
Proof. unfold started. rewrite omap_app, length_app. by destruct e. Qed.

Lemma by_thread_snoc t tr t' e :
  by_thread t (tr ++ [(t', e)])
  = by_thread t tr ++ (if decide (t' = t) then [e] else []).
Proof. unfold by_thread. rewrite omap_app. simpl. by destruct (decide (t' = t)). Qed.

Lemma held_app ws1 ws2 : held (ws1 ++ ws2) = held ws1 ++ held ws2.
Proof. apply omap_app. Qed.

Lemma held_take_drop ws i w :
  ws !! i = Some w →
  ∀ w', held (<[i := w']> ws)
        = held (take i ws) ++ held [w'] ++ held (drop (S i) ws).
Proof.
  intros Hw w'. rewrite insert_take_drop by (by eapply lookup_lt_Some).
  rewrite held_app. f_equal. apply (held_app [w']).
Qed.

Lemma held_lookup ws i w :
  ws !! i = Some w →
  held ws = held (take i ws) ++ held [w] ++ held (drop (S i) ws).
Proof.
  intros Hw. rewrite <- (list_insert_id ws i w) at 1 by done.
  by apply (held_take_drop ws i w).
Qed.

Lemma held_nil_getting ws i w : held ws = [] → ws !! i = Some w → w = Getting.
Proof.
  intros Hh Hw. rewrite (held_lookup _ _ _ Hw) in Hh.
  apply app_eq_nil in Hh as [_ Hh]. apply app_eq_nil in Hh as [Hh _].
  by destruct w.
Qed.

Lemma held_insert_same ws i p todo r todo' r' :
  ws !! i = Some (Scanning p todo r) →
  held (<[i := Scanning p todo' r']> ws) = held ws.
Proof.
  intros Hw. by rewrite (held_take_drop _ _ _ Hw), (held_lookup _ _ _ Hw).
Qed.

Lemma held_insert_get ws i p todo r :
  ws !! i = Some Getting →
  held (<[i := Scanning p todo r]> ws) ≡ₚ p :: held ws.
Proof.
  intros Hw. rewrite (held_take_drop _ _ _ Hw), (held_lookup _ _ _ Hw).
  simpl. by rewrite Permutation_middle.
Qed.

Lemma held_insert_done ws i p todo r :
  ws !! i = Some (Scanning p todo r) →
  held ws ≡ₚ p :: held (<[i := Getting]> ws).
Proof.
  intros Hw. rewrite (held_take_drop _ _ _ Hw), (held_lookup _ _ _ Hw).
  simpl. by rewrite Permutation_middle.
Qed.

Lemma held_scanning ws i p todo r :
  ws !! i = Some (Scanning p todo r) → (0 < length (held ws))%nat.
Proof.
  intros Hw. rewrite (held_insert_done _ _ _ _ _ Hw). simpl. lia.
Qed.

(* The main thread only prints its banner, starts threads, puts, joins. *)
Lemma program_events ip min_port max_port e :
  e ∈ events (threaded_port_scan ip min_port max_port) →
  e = Print (banner ip min_port max_port) ∨ e = ThreadStart
  ∨ (∃ p, e = QueuePut p) ∨ e = QueueJoin.
Proof.
  rewrite threaded_port_scan_unfold. unfold events; simpl.
  rewrite elem_of_cons, !elem_of_app, elem_of_replicate, list_elem_of_fmap,
    elem_of_cons, elem_of_nil.
  intros [->|[[-> _]|[(p & -> & _)|[->|[]]]]]; eauto.
Qed.

(* A call of scan_port marks its entry with its own arguments; the rest is
   console and socket traffic. *)
Lemma scan_port_events env ip port verbose e :
  e ∈ events (scan_port env ip port verbose) →
  e = ScanPortCall ip port verbose ∨ scan_io e.
Proof.
  destruct (connect_ex_result (network env ip port)) as [code|x] eqn:Hc.
  - destruct (decide (code = 0)) as [->|Hne].
    + destruct (scan_port_open env ip port verbose Hc)
        as (probing & service & Hid & ->).
      unfold events; simpl.
      rewrite !elem_of_cons, elem_of_app, !elem_of_cons, elem_of_nil.
      intros [->|[->|[->|[->|[Hp|[->|[->|[->|[]]]]]]]]]; simpl; auto.
      right. destruct verbose.
      * pose proof (identify_service_events env (network env ip port) port e)
          as He. rewrite Hid in He.
        destruct (He Hp) as [[? ->]|[? ->]]; done.
      * injection Hid as <- _. by apply elem_of_nil in Hp.
    + rewrite (scan_port_refused _ _ _ _ code) by done. unfold events; simpl.
      rewrite !elem_of_cons, elem_of_nil.
      intros [->|[->|[->|[->|[->|[->|[]]]]]]]; simpl; auto.
  - rewrite (scan_port_raised _ _ _ _ x) by done. unfold events; simpl.
    rewrite !elem_of_cons, elem_of_nil.
    intros [->|[->|[->|[->|[->|[->|[]]]]]]]; simpl; auto.
Qed.

Section execution.
Context (env : environment) (ip : text) (min_port max_port : Z).

Local Abbreviation program := (events (threaded_port_scan ip min_port max_port)).
Local Abbreviation call p := (threader env ip p).

(* What a step can be. *)
Lemma step_inv t s s' :
  step env ip t s = Some s' →
  (∃ e rest,
      t = Main ∧ main s = e :: rest ∧ main s' = rest
      ∧ trace s' = trace s ++ [(Main, e)]
      ∧ workers s'
        = workers s ++ match e with ThreadStart => [Getting] | _ => [] end
      ∧ queue s'
        = queue s ++ match e with QueuePut p => [p] | _ => [] end
      ∧ unfinished_tasks s'
        = unfinished_tasks s + match e with QueuePut _ => 1 | _ => 0 end
      ∧ (e = QueueJoin → unfinished_tasks s = 0))
  ∨ (∃ i p rest,
      t = Worker i ∧ workers s !! i = Some Getting ∧ queue s = p :: rest
      ∧ main s' = main s
      ∧ workers s' = <[i := Scanning p (events (call p)) (outcome (call p))]>
                       (workers s)
      ∧ queue s' = rest ∧ unfinished_tasks s' = unfinished_tasks s
      ∧ trace s' = trace s ++ [(Worker i, QueueGet p)])
  ∨ (∃ i p e todo r,
      t = Worker i ∧ workers s !! i = Some (Scanning p (e :: todo) r)
      ∧ main s' = main s
      ∧ workers s' = <[i := Scanning p todo r]> (workers s)
      ∧ queue s' = queue s ∧ unfinished_tasks s' = unfinished_tasks s
      ∧ trace s' = trace s ++ [(Worker i, e)])
  ∨ (∃ i p,
      t = Worker i ∧ workers s !! i = Some (Scanning p [] (Ok tt))
      ∧ 0 < unfinished_tasks s
      ∧ main s' = main s ∧ workers s' = <[i := Getting]> (workers s)
      ∧ queue s' = queue s
      ∧ unfinished_tasks s' = unfinished_tasks s - 1
      ∧ trace s' = trace s ++ [(Worker i, QueueTaskDone p)])
  ∨ (∃ i p r,
      t = Worker i ∧ workers s !! i = Some (Scanning p [] r)
      ∧ (unfinished_tasks s ≤ 0 ∨ ∃ x, r = Raise x)
      ∧ workers s' = <[i := Dead p]> (workers s)).
Proof.
  intros H. destruct t as [|i]; simpl in H.
  - left. unfold step_main in H.
    destruct (main s) as [|e rest] eqn:Hm; [done|]. exists e, rest.
    destruct e;
      try (injection H as <-; simpl;
           by rewrite ?app_nil_r, ?Z.add_0_r).
    destruct (Z.eqb_spec (unfinished_tasks s) 0); [|done].
    injection H as <-; simpl. by rewrite ?app_nil_r, ?Z.add_0_r.
  - right. unfold step_worker in H.
    destruct (workers s !! i) as [[|p [|e todo] [[]|x]|p]|] eqn:Hw;
      try done.
    + left. destruct (queue s) as [|p rest] eqn:Hq; [done|].
      injection H as <-. exists i, p, rest. by simpl.
    + right; right. destruct (Z.leb_spec (unfinished_tasks s) 0).
      * right. injection H as <-. exists i, p, (Ok tt). simpl. split_and!; auto.
      * left. injection H as <-. exists i, p. by simpl.
    + right; right; right. injection H as <-.
      exists i, p, (Raise x). simpl. split_and!; eauto.
    + right; left. injection H as <-. exists i, p, e, todo, (Ok tt).
      by simpl.
    + right; left. injection H as <-. exists i, p, e, todo, (Raise x).
      by simpl.
Qed.

Lemma invariant_init : invariant env ip min_port max_port (init ip min_port max_port).
Proof.
  split; simpl; try done.
  - intros p Hp. by apply elem_of_nil in Hp.
  - intros i p Hp. by apply elem_of_nil in Hp.
  - intros t ip' p v Hp. by apply elem_of_nil in Hp.
  - rewrite threaded_port_scan_unfold. discriminate.
Qed.

Lemma worker_ok_mono tr k i w :
  worker_ok env ip tr i w → worker_ok env ip (tr ++ k) i w.
Proof.
  destruct w as [|p todo r|p]; simpl; [done| |done].
  intros (-> & done & Hd & Hsub). split; [done|]. exists done.
  split; [done|]. by apply sublist_inserts_r.
Qed.

Lemma program_last : last program = Some QueueJoin.
Proof.
  rewrite threaded_port_scan_unfold. unfold events; cbn [fst].
  by rewrite !app_assoc, last_snoc.
Qed.

Lemma invariant_main_step s s' :
  invariant env ip min_port max_port s →
  step env ip Main s = Some s' →
  invariant env ip min_port max_port s'.
Proof.
  intros I Hstep.
  destruct (step_inv _ _ _ Hstep)
    as [(e & rest & _ & Hm & Hm' & Htr & Hw & Hq & Hu & Hj)
       |[(? & ? & ? & ? & _)|[(? & ? & ? & ? & ? & ? & _)
       |[(? & ? & ? & _)|(? & ? & ? & ? & _)]]]]; try done.
  pose proof (inv_main _ _ _ _ _ I) as Hprog. rewrite Hm in Hprog.
  assert (Hin : e ∈ program).
  { rewrite <- Hprog. apply elem_of_app. right. by left. }
  assert (Hret : rest = [] → e = QueueJoin).
  { intros ->. pose proof program_last as Hl.
    rewrite <- Hprog, last_snoc in Hl. by injection Hl. }
  apply program_events in Hin.
  destruct I as [Imain Ienq Ist Ipool Ififo Iheld Icount Iworker Iqueue
                   Idone Icalls Iret].
  split; rewrite ?Hm', ?Htr, ?Hw, ?Hq, ?Hu, ?enqueued_snoc, ?dequeued_snoc,
    ?completed_snoc, ?started_snoc, ?by_thread_snoc, ?puts_app, ?starts_app,
    ?held_app, ?length_app; simpl.
  - by rewrite <- app_assoc.
  - rewrite Ienq. f_equal. by destruct e.
  - rewrite Ist. by destruct e.
  - rewrite Ipool. by destruct e.
  - rewrite Ififo.
    destruct Hin as [-> | [-> | [[p ->] | ->]]]; simpl;
      by rewrite ?app_nil_r, ?app_assoc.
  - destruct Hin as [-> | [-> | [[p ->] | ->]]]; simpl;
      by rewrite ?app_nil_r.
  - rewrite Icount.
    destruct Hin as [-> | [-> | [[p ->] | ->]]]; simpl; lia.
  - intros i w [Hi|[_ Hi]]%lookup_app_Some.
    + by apply worker_ok_mono, Iworker.
    + destruct e; try (by destruct (length (workers s) - i)%nat in Hi).
      apply list_elem_of_lookup_2, list_elem_of_singleton in Hi.
      by subst w.
  - intros p [Hp|Hp]%elem_of_app; apply elem_of_app.
    + left. by apply Iqueue.
    + right. destruct e; try (by apply elem_of_nil in Hp).
      apply list_elem_of_singleton in Hp as ->. by left.
  - intros i p [Hp|Hp]%elem_of_app.
    + by apply sublist_inserts_r, Idone.
    + by apply list_elem_of_singleton in Hp.
  - intros t ip' p v [Hp|Hp]%elem_of_app; [by eapply Icalls|].
    apply list_elem_of_singleton in Hp. injection Hp as _ <-.
    by destruct Hin as [? | [? | [[? ?] | ?]]].
  - intros ->. specialize (Hret eq_refl) as ->. split.
    + rewrite Hj by done. lia.
    + apply last_snoc.
Qed.

Lemma invariant_worker_step i s s' :
  invariant env ip min_port max_port s →
  step env ip (Worker i) s = Some s' →
  invariant env ip min_port max_port s'.
Proof.
  intros I Hstep.
  destruct I as [Imain Ienq Ist Ipool Ififo Iheld Icount Iworker Iqueue
                   Idone Icalls Iret].
  destruct (step_inv _ _ _ Hstep)
    as [(? & ? & ? & _)
       |[(i' & p & rest & Ht & Hwi & Hqs & Hm & Hw & Hq & Hu & Htr)
       |[(i' & p & e & todo & r & Ht & Hwi & Hm & Hw & Hq & Hu & Htr)
       |[(i' & p & Ht & Hwi & Hpos & Hm & Hw & Hq & Hu & Htr)
        |(i' & p & r & Ht & Hwi & Hbad & _)]]]]; try done;
    injection Ht as <-.
  - (* get *)
    split; rewrite ?Hm, ?Htr, ?Hw, ?Hq, ?Hu, ?enqueued_snoc, ?dequeued_snoc,
      ?completed_snoc, ?started_snoc, ?by_thread_snoc, ?length_insert;
      simpl; rewrite ?app_nil_r, ?Nat.add_0_r; try done.
    + by rewrite Ififo, Hqs, <- app_assoc.
    + rewrite (held_insert_get _ _ _ _ _ Hwi), Iheld,
        <- Permutation_cons_append.
      apply Permutation_middle.
    + rewrite (held_insert_get _ _ _ _ _ Hwi), Icount, Hqs. simpl. lia.
    + intros j w Hj. destruct (decide (j = i)) as [->|Hne].
      * rewrite list_lookup_insert_eq in Hj by (by eapply lookup_lt_Some).
        injection Hj as <-. simpl. split; [apply scan_port_returns|].
        exists []. split; [done|]. simpl.
        apply (sublist_app [_] _ [_]); [|done].
        apply singleton_sublist_l, Iqueue. rewrite Hqs. by left.
      * rewrite list_lookup_insert_ne in Hj by done.
        by apply worker_ok_mono, Iworker.
    + intros q Hq'. apply elem_of_app. left. apply Iqueue.
      rewrite Hqs. by right.
    + intros j q [Hp|Hp]%elem_of_app.
      * by apply sublist_inserts_r, Idone.
      * by apply list_elem_of_singleton in Hp.
    + intros t ip' q v [Hp|Hp]%elem_of_app; [by eapply Icalls|].
      by apply list_elem_of_singleton in Hp.
    + intros Hret. destruct (Iret Hret) as [Hz _].
      rewrite Icount, Hqs in Hz. simpl in Hz. lia.
  - (* one event of the call *)
    destruct (Iworker _ _ Hwi) as (-> & done & Hdone & Hsub).
    assert (He : e = ScanPortCall ip p (p <=? 100) ∨ scan_io e).
    { apply (scan_port_events env). fold (threader env ip p).
      rewrite <- Hdone. apply elem_of_app. right. by left. }
    split; rewrite ?Hm, ?Htr, ?Hw, ?Hq, ?Hu, ?enqueued_snoc, ?dequeued_snoc,
      ?completed_snoc, ?started_snoc, ?by_thread_snoc, ?length_insert,
      ?(held_insert_same _ _ _ _ _ _ _ Hwi);
      simpl; rewrite ?app_nil_r, ?Nat.add_0_r; try done.
    + rewrite Ienq. destruct He as [->|He]; [|destruct e; try done];
        by rewrite app_nil_r.
    + rewrite Ist. destruct He as [->|He]; [|destruct e; try done];
        by rewrite Nat.add_0_r.
    + rewrite Ipool. destruct He as [->|He]; [|destruct e; try done];
        by rewrite Nat.add_0_r.
    + rewrite Ififo. destruct He as [->|He]; [|destruct e; try done];
        by rewrite !app_nil_r.
    + destruct He as [->|He]; [|destruct e; try done];
        by rewrite !app_nil_r.
    + intros j w Hj. destruct (decide (j = i)) as [->|Hne].
      * rewrite list_lookup_insert_eq in Hj by (by eapply lookup_lt_Some).
        injection Hj as <-. simpl. split; [done|].
        exists (done ++ [e]). split; [by rewrite <- app_assoc|].
        rewrite fmap_app. simpl in Hsub |- *. rewrite !app_comm_cons.
        by apply sublist_app.
      * rewrite list_lookup_insert_ne in Hj by done.
        by apply worker_ok_mono, Iworker.
    + intros q Hq'. apply elem_of_app. left. by apply Iqueue.
    + intros j q [Hp|Hp]%elem_of_app.
      * by apply sublist_inserts_r, Idone.
      * apply list_elem_of_singleton in Hp. injection Hp as _ <-.
        by destruct He.
    + intros t ip' q v [Hp|Hp]%elem_of_app; [by eapply Icalls|].
      apply list_elem_of_singleton in Hp. injection Hp as _ <-.
      destruct He as [He|He]; [by injection He as -> -> ->|done].
    + intros Hret. destruct (Iret Hret) as [Hz _].
      pose proof (held_scanning _ _ _ _ _ Hwi). lia.
  - (* task_done *)
    destruct (Iworker _ _ Hwi) as (_ & done & Hdone & Hsub).
    rewrite app_nil_r in Hdone. subst done.
    split; rewrite ?Hm, ?Htr, ?Hw, ?Hq, ?Hu, ?enqueued_snoc, ?dequeued_snoc,
      ?completed_snoc, ?started_snoc, ?by_thread_snoc, ?length_insert;
      simpl; rewrite ?app_nil_r, ?Nat.add_0_r; try done.
    + by rewrite Iheld, (held_insert_done _ _ _ _ _ Hwi), <- app_assoc.
    + rewrite Icount.
      pose proof (held_insert_done _ _ _ _ _ Hwi) as Hperm.
      apply Permutation_length in Hperm. simpl in Hperm. lia.
    + intros j w Hj. destruct (decide (j = i)) as [->|Hne].
      * rewrite list_lookup_insert_eq in Hj by (by eapply lookup_lt_Some).
        by injection Hj as <-.
      * rewrite list_lookup_insert_ne in Hj by done.
        by apply worker_ok_mono, Iworker.
    + intros q Hq'. apply elem_of_app. left. by apply Iqueue.
    + intros j q [Hp|Hp]%elem_of_app.
      * by apply sublist_inserts_r, Idone.
      * apply list_elem_of_singleton in Hp. injection Hp as -> ->.
        unfold life_of_port. rewrite (app_assoc [_; _]).
        by apply sublist_app.
    + intros t ip' q v [Hp|Hp]%elem_of_app; [by eapply Icalls|].
      by apply list_elem_of_singleton in Hp.
    + intros Hret. destruct (Iret Hret) as [Hz _]. lia.
  - (* a worker cannot die *)
    destruct (Iworker _ _ Hwi) as (-> & _).
    destruct Hbad as [Hz|[x Hx]]; [|done].
    pose proof (held_scanning _ _ _ _ _ Hwi). lia.
Qed.

Lemma invariant_step t s s' :
  invariant env ip min_port max_port s →
  step env ip t s = Some s' →
  invariant env ip min_port max_port s'.
Proof.
  destruct t; [apply invariant_main_step | apply invariant_worker_step].
Qed.

Lemma reachable_invariant s :
  reachable env ip min_port max_port s →
  invariant env ip min_port max_port s.
Proof.
  revert s. apply rtc_ind_r.
  - apply invariant_init.
  - intros s s' _ [t Ht] I. by eapply invariant_step.
Qed.

(* Running a schedule stays within the reachable states. *)
Lemma run_steps schedule s s' :
  run env ip schedule s = Some s' → rtc (steps env ip) s s'.
Proof.
  revert s. induction schedule as [|t schedule IH]; intros s; simpl.
  - by intros [= ->].
  - destruct (step env ip t s) as [s1|] eqn:Ht; [|done].
    intros Hrun. eapply rtc_l; [by exists t | by apply IH].
Qed.

Lemma run_reachable schedule s :
  run env ip schedule (init ip min_port max_port) = Some s →
  reachable env ip min_port max_port s.
Proof. apply run_steps. Qed.

(* What the main thread has done so far, against its program. *)
Lemma main_progress s :
  reachable env ip min_port max_port s →
  let done := by_thread Main (trace s) in
  done ++ main s
  = ([Print (banner ip min_port max_port)]
       ++ replicate (pool_size min_port max_port) ThreadStart)
      ++ ((QueuePut <$> ports min_port max_port) ++ [QueueJoin])
  ∧ enqueued (trace s) = puts done
  ∧ started (trace s) = starts done
  ∧ length (workers s) = starts done.
Proof.
  intros [Imain Ienq Ist Ipool _ _ _ _ _ _ _ _]%reachable_invariant.
  rewrite threaded_port_scan_unfold in Imain. unfold events in Imain.
  cbn [fst] in Imain. split_and!; [|done|done|congruence].
  by rewrite Imain, <- !app_assoc.
Qed.

Lemma enqueued_prefix s :
  reachable env ip min_port max_port s →
  enqueued (trace s) ++ puts (main s) = ports min_port max_port.
Proof.
  intros (Hprog & -> & _)%main_progress.
  rewrite <- puts_app, Hprog, !puts_app, puts_replicate_start, puts_fmap_put.
  simpl. by rewrite app_nil_r.
Qed.

Lemma started_before_enqueued s :
  reachable env ip min_port max_port s →
  enqueued (trace s) ≠ [] →
  started (trace s) = pool_size min_port max_port
  ∧ length (workers s) = pool_size min_port max_port.
Proof.
  intros (Hprog & -> & -> & ->)%main_progress Hne.
  apply app_eq_inv in Hprog as [(k & Hd & Hk)|(k & Hd & Hk)].
  - assert (starts k = 0%nat) as Hz.
    { apply (f_equal starts) in Hk.
      rewrite !starts_app, starts_fmap_put in Hk.
      change (starts [QueueJoin]) with 0%nat in Hk. lia. }
    rewrite Hd, !starts_app, starts_replicate_start, Hz.
    change (starts [Print _]) with 0%nat. lia.
  - apply (f_equal puts) in Hd.
    rewrite !puts_app, puts_replicate_start in Hd.
    change (puts [Print _]) with (@nil Z) in Hd. simpl in Hd.
    symmetry in Hd. by apply app_eq_nil in Hd as [? _].
Qed.

Lemma run_app schedule1 schedule2 s :
  run env ip (schedule1 ++ schedule2) s
  = run env ip schedule1 s ≫= run env ip schedule2.
Proof.
  revert s. induction schedule1 as [|t schedule1 IH]; intros s; [done|].
  simpl. by destruct (step env ip t s).
Qed.

(* The main thread runs through calls that do not wait. *)
Lemma run_main_calls calls rest s :
  main s = calls ++ rest →
  QueueJoin ∉ calls →
  ∃ s', run env ip (replicate (length calls) Main) s = Some s'
        ∧ main s' = rest
        ∧ workers s' = workers s ++ replicate (starts calls) Getting
        ∧ queue s' = queue s ++ puts calls
        ∧ unfinished_tasks s'
          = unfinished_tasks s + Z.of_nat (length (puts calls)).
Proof.
  revert s. induction calls as [|e calls IH]; intros s Hm Hj.
  - exists s. simpl. rewrite !app_nil_r. split_and!; try done. lia.
  - apply not_elem_of_cons in Hj as [Hne Hj]. simpl.
    destruct (step_main s) as [s1|] eqn:Hs1;
      [|unfold step_main in Hs1; rewrite Hm in Hs1; by destruct e].
    destruct (step_inv Main s s1 Hs1)
      as [(e' & rest' & _ & Hm1 & Hm' & _ & Hw & Hq & Hu & _)
         |[(? & ? & ? & ? & _)|[(? & ? & ? & ? & ? & ? & _)
         |[(? & ? & ? & _)|(? & ? & ? & ? & _)]]]]; try done.
    rewrite Hm in Hm1. injection Hm1 as <- <-.
    destruct (IH s1 Hm' Hj) as (s' & Hrun & Hm2 & Hw2 & Hq2 & Hu2).
    exists s'. rewrite Hrun, Hm2, Hw2, Hq2, Hu2, Hw, Hq, Hu.
    split_and!; try done.
    + rewrite <- app_assoc. f_equal. by destruct e.
    + rewrite <- app_assoc. f_equal. by destruct e.
    + destruct e; unfold puts; simpl; lia.
Qed.

(* Worker 0 finishes the call it is in and marks the task done. *)
Lemma run_worker_call p todo s :
  workers s !! 0%nat = Some (Scanning p todo (Ok tt)) →
  0 < unfinished_tasks s →
  ∃ s', run env ip (replicate (S (length todo)) (Worker 0)) s = Some s'
        ∧ main s' = main s
        ∧ workers s' = <[0%nat := Getting]> (workers s)
        ∧ queue s' = queue s
        ∧ unfinished_tasks s' = unfinished_tasks s - 1.
Proof.
  revert s. induction todo as [|e todo IH]; intros s Hw Hpos.
  - simpl. unfold step_worker. rewrite Hw.
    destruct (Z.leb_spec (unfinished_tasks s) 0); [lia|].
    eexists. by split_and!.
  - change (replicate (S (length (e :: todo))) (Worker 0))
      with (Worker 0 :: replicate (S (length todo)) (Worker 0)).
    cbn [run step]. unfold step_worker at 1. rewrite Hw.
    match goal with |- context [run _ _ _ ?s1] =>
      destruct (IH s1) as (s' & Hrun & Hm & Hw' & Hq & Hu) end.
    + simpl. apply list_lookup_insert_eq. by eapply lookup_lt_Some.
    + done.
    + exists s'. split_and!; try done.
      rewrite Hw'. simpl. by rewrite list_insert_insert_eq.
Qed.

(* Worker 0, waiting in get, takes and finishes all queued ports. *)
Lemma run_worker_drain ps s :
  queue s = ps →
  (ps ≠ [] → workers s !! 0%nat = Some Getting) →
  Z.of_nat (length ps) ≤ unfinished_tasks s →
  ∃ s', run env ip
          (mjoin ((λ p, replicate (2 + length (events (threader env ip p)))
                          (Worker 0%nat)) <$> ps)) s = Some s'
        ∧ main s' = main s
        ∧ queue s' = []
        ∧ unfinished_tasks s' = unfinished_tasks s - Z.of_nat (length ps).
Proof.
  revert s. induction ps as [|p ps IH]; intros s Hq Hw Hu.
  - exists s. simpl. split_and!; try done. lia.
  - specialize (Hw ltac:(done)).
    change (length (p :: ps)) with (S (length ps)) in *.
    rewrite Nat2Z.inj_succ in *.
    cbn [fmap list_fmap mjoin list_join]. rewrite run_app.
    change (replicate (2 + ?n) (Worker 0%nat))
      with (Worker 0%nat :: replicate (S n) (Worker 0%nat)).
    cbn [run step]. unfold step_worker at 1. rewrite Hw, Hq.
    match goal with |- context [run _ _ (replicate _ _) ?s1] =>
      destruct (run_worker_call p (events (threader env ip p)) s1)
        as (s2 & Hrun & Hm2 & Hw2 & Hq2 & Hu2) end.
    { cbn [workers].
      rewrite list_lookup_insert_eq by (by eapply lookup_lt_Some).
      unfold threader. by rewrite scan_port_returns. }
    { cbn [unfinished_tasks]. lia. }
    rewrite Hrun. simpl in Hm2, Hw2, Hq2, Hu2 |- *.
    destruct (IH s2) as (s' & Hrun' & Hm' & Hq' & Hu'); [done| |lia|].
    { intros _. rewrite Hw2, list_insert_insert_eq.
      apply list_lookup_insert_eq. by eapply lookup_lt_Some. }
    exists s'. split_and!; try done; [congruence|lia].
Qed.

(* Some execution returns, whatever the range and the network. *)
Lemma sequential_schedule_returns :
  ∃ s, run env ip (sequential_schedule env ip min_port max_port)
         (init ip min_port max_port) = Some s
       ∧ returned s.
Proof.
  unfold sequential_schedule.
  set (calls := [Print (banner ip min_port max_port)]
                  ++ replicate (pool_size min_port max_port) ThreadStart
                  ++ (QueuePut <$> ports min_port max_port)).
  assert (Hlen : length calls
                 = (1 + pool_size min_port max_port
                      + length (ports min_port max_port))%nat).
  { unfold calls. rewrite !length_app, length_replicate, length_fmap.
    simpl. lia. }
  assert (Hputs : puts calls = ports min_port max_port).
  { unfold calls. rewrite !puts_app, puts_replicate_start, puts_fmap_put.
    done. }
  assert (Hstarts : starts calls = pool_size min_port max_port).
  { unfold calls. rewrite !starts_app, starts_replicate_start,
      starts_fmap_put. change (starts [Print _]) with 0%nat. lia. }
  destruct (run_main_calls calls [QueueJoin] (init ip min_port max_port))
    as (s1 & Hrun1 & Hm1 & Hw1 & Hq1 & Hu1).
  { simpl. rewrite threaded_port_scan_unfold. unfold events, calls.
    cbn [fst]. by rewrite <- !app_assoc. }
  { unfold calls.
    rewrite !elem_of_app, list_elem_of_singleton, elem_of_replicate,
      list_elem_of_fmap.
    intros [?|[[? _]|(? & ? & _)]]; done. }
  unfold init in Hw1, Hq1, Hu1.
  cbn [workers queue unfinished_tasks] in Hw1, Hq1, Hu1.
  rewrite Hputs in Hq1, Hu1. rewrite Hstarts in Hw1.
  rewrite app_nil_l in Hw1, Hq1.
  destruct (run_worker_drain (ports min_port max_port) s1)
    as (s2 & Hrun2 & Hm2 & Hq2 & Hu2); [done| |lia|].
  { intros Hne. rewrite Hw1.
    destruct (pool_size min_port max_port) as [|n] eqn:Hpool; [|done].
    exfalso. apply Hne. unfold ports, pool_size in *.
    apply seqZ_nil. lia. }
  rewrite <- Hlen, run_app, Hrun1. cbn [mbind option_bind].
  rewrite run_app, Hrun2. cbn [mbind option_bind run step].
  unfold step_main. rewrite Hm2, Hm1.
  replace (unfinished_tasks s2) with 0 by lia. simpl.
  eexists. split; [done|]. done.
Qed.

(* After the return no thread can move. *)
Lemma returned_quiescent s :
  reachable env ip min_port max_port s → returned s →
  queue s = [] ∧ held (workers s) = [] ∧ quiescent env ip s.
Proof.
  intros I%reachable_invariant Hret.
  destruct (inv_returned _ _ _ _ _ I Hret) as [Hz _].
  rewrite (inv_count _ _ _ _ _ I) in Hz.
  assert (queue s = [] ∧ held (workers s) = []) as [Hq Hh].
  { split; apply length_zero_iff_nil; lia. }
  split_and!; [done|done|]. intros [|i]; simpl.
  - unfold step_main. by rewrite Hret.
  - unfold step_worker. destruct (workers s !! i) as [w|] eqn:Hw; [|done].
    rewrite (held_nil_getting _ _ _ Hh Hw). by rewrite Hq.
Qed.

End execution.

(* --------------------------------------------------------------------- *)
(* The scan coordinator                                                  *)
(* --------------------------------------------------------------------- *)

Lemma ports_elem (min_port max_port p : Z) :
  p ∈ ports min_port max_port ↔ min_port ≤ p ≤ max_port.
Proof. unfold ports. rewrite elem_of_seqZ. lia. Qed.

Lemma ports_length (min_port max_port : Z) :
  min_port ≤ max_port →
  Z.of_nat (length (ports min_port max_port)) = max_port - min_port + 1.
Proof. intros. unfold ports. rewrite length_seqZ. lia. Qed.

(** C1: for min_port <= max_port, threaded_port_scan puts exactly
    max_port - min_port + 1 ports on the queue: the ports of
    [min_port, max_port] in ascending order, each once and none left out;
    and it does so after it has started all its workers: in every state of
    every execution the ports enqueued so far are an initial part of that
    list, once a port is enqueued the whole pool has been started, and at
    the return the list is complete. *)
Theorem threaded_port_scan_enqueues
    (env : environment) (ip : text) (min_port max_port : Z) :
  min_port ≤ max_port →
  events (threaded_port_scan ip min_port max_port)
  = [Print (banner ip min_port max_port)]
      ++ replicate (pool_size min_port max_port) ThreadStart
      ++ (QueuePut <$> ports min_port max_port)
      ++ [QueueJoin]
  ∧ Z.of_nat (length (ports min_port max_port)) = max_port - min_port + 1
  ∧ NoDup (ports min_port max_port)
  ∧ StronglySorted Z.lt (ports min_port max_port)
  ∧ (∀ p, p ∈ ports min_port max_port ↔ min_port ≤ p ≤ max_port)
  ∧ ∀ s, reachable env ip min_port max_port s →
      enqueued (trace s) `prefix_of` ports min_port max_port
      ∧ (enqueued (trace s) ≠ [] →
         started (trace s) = pool_size min_port max_port
         ∧ length (workers s) = pool_size min_port max_port)
      ∧ (returned s → enqueued (trace s) = ports min_port max_port).
Proof.
  intros Hle. split_and!.
  - by rewrite threaded_port_scan_unfold.
  - by apply ports_length.
  - apply NoDup_seqZ.
  - apply ports_ascending.
  - intros p. apply ports_elem.
  - intros s Hs. split_and!.
    + exists (puts (main s)). symmetry. by apply (enqueued_prefix env ip).
    + by apply (started_before_enqueued env ip).
    + intros Hret. pose proof (enqueued_prefix env ip _ _ _ Hs) as Hp.
      rewrite Hret in Hp. by rewrite app_nil_r in Hp.
Qed.

Lemma threaded_port_scan_enqueues_witness :
  events (threaded_port_scan target 21 22)
  = [Print (banner target 21 22); ThreadStart; ThreadStart;
     QueuePut 21; QueuePut 22; QueueJoin]
  ∧ ∃ s, run lab target two_workers_schedule (init target 21 22) = Some s
         ∧ enqueued (trace s) = [21; 22].
Proof.
  destruct (threaded_port_scan_enqueues lab target 21 22 ltac:(lia))
    as (Hprog & _ & _ & _ & _ & Hexec).
  split; [exact Hprog|].
  destruct (run lab target two_workers_schedule (init target 21 22))
    as [s|] eqn:Hrun; [|by vm_compute in Hrun].
  exists s. split; [done|].
  destruct (Hexec s (run_reachable _ _ _ _ _ _ Hrun)) as (_ & _ & Hret).
  apply Hret. vm_compute in Hrun. by injection Hrun as <-.
Defined.

Lemma life_of_port_before_join env ip i p tr :
  life_of_port env ip i p `sublist_of` tr ++ [(Main, QueueJoin)] →
  life_of_port env ip i p `sublist_of` tr.
Proof.
  intros (l1 & l2 & Hl & H1 & H2)%sublist_app_r.
  destruct l2 as [|x l2]; [by rewrite Hl, app_nil_r|].
  apply sublist_cons_r in H2 as [H2|(l' & [= -> ->] & H2)].
  - by apply sublist_nil_r in H2.
  - apply sublist_nil_r in H2 as ->.
    unfold life_of_port in Hl. rewrite !app_assoc in Hl.
    by apply app_inj_tail in Hl as [_ ?].
Qed.

(** C2: threaded_port_scan returns only after every port it enqueued has
    been taken by a worker and marked done, the task_done of a port coming
    after the whole call of scan_port for it: at the return the trace ends
    with the join, and before it stands, for each port of the range and in
    order, its put, its get by some worker, that worker's complete call of
    scan_port and its task_done. The ports marked done are the ports of the
    range, each once. After the return the queue is empty, every worker
    waits in get, and no thread can move, so nothing more is printed. And
    it does return: for every range and network some execution reaches
    the return. *)
Theorem threaded_port_scan_returns_after_all_done
    (env : environment) (ip : text) (min_port max_port : Z) :
  (∃ s, run env ip (sequential_schedule env ip min_port max_port)
          (init ip min_port max_port) = Some s
        ∧ returned s)
  ∧ ∀ s,
      reachable env ip min_port max_port s →
      returned s →
      (∃ before, trace s = before ++ [(Main, QueueJoin)]
         ∧ ∀ p, min_port ≤ p ≤ max_port →
                ∃ i, life_of_port env ip i p `sublist_of` before)
      ∧ dequeued (trace s) = ports min_port max_port
      ∧ completed (trace s) ≡ₚ ports min_port max_port
      ∧ queue s = []
      ∧ unfinished_tasks s = 0
      ∧ Forall (λ w, w = Getting) (workers s)
      ∧ quiescent env ip s
      ∧ (∀ s', rtc (steps env ip) s s' → s' = s).
Proof.
  split; [apply sequential_schedule_returns|].
  intros s Hs Hret.
  pose proof (reachable_invariant _ _ _ _ _ Hs) as I.
  destruct (returned_quiescent _ _ _ _ _ Hs Hret) as (Hq & Hh & Hquiet).
  destruct (inv_returned _ _ _ _ _ I Hret) as [Hz Hlast].
  assert (Hdeq : dequeued (trace s) = ports min_port max_port).
  { pose proof (enqueued_prefix _ _ _ _ _ Hs) as Hp.
    rewrite Hret, (inv_fifo _ _ _ _ _ I), Hq in Hp.
    by rewrite !app_nil_r in Hp. }
  assert (Hcomp : completed (trace s) ≡ₚ ports min_port max_port).
  { rewrite <- Hdeq, (inv_held _ _ _ _ _ I), Hh. by rewrite app_nil_r. }
  split_and!; try done.
  - apply last_Some in Hlast as [before Htr]. exists before.
    split; [done|]. intros p Hp.
    assert (p ∈ completed (trace s)) as Hin.
    { rewrite Hcomp. by apply ports_elem. }
    apply list_elem_of_omap in Hin as ([t e] & Hin & He).
    destruct e; try done. simpl in He. injection He as ->.
    destruct t as [|i].
    + (* the main thread marks nothing done *)
      assert (QueueTaskDone p ∈ by_thread Main (trace s)) as Hm.
      { apply list_elem_of_omap. exists (Main, QueueTaskDone p).
        split; [done|]. simpl. try case_decide; done. }
      assert (QueueTaskDone p
              ∈ events (threaded_port_scan ip min_port max_port)) as Hprog.
      { rewrite <- (inv_main _ _ _ _ _ I). apply elem_of_app. by left. }
      by apply program_events in Hprog as [? | [? | [[? ?] | ?]]].
    + exists i. apply life_of_port_before_join. rewrite <- Htr.
      by apply (inv_done _ _ _ _ _ I).
  - apply Forall_forall. intros w Hw.
    apply list_elem_of_lookup in Hw as [i Hw].
    by apply (held_nil_getting _ _ _ Hh Hw).
  - intros s' Hrtc. destruct Hrtc as [|s1 s2 s3 [t Ht] _]; [done|].
    by rewrite Hquiet in Ht.
Qed.

Lemma threaded_port_scan_returns_after_all_done_witness :
  ∃ s, run lab target two_workers_schedule (init target 21 22) = Some s
       ∧ completed (trace s) ≡ₚ [21; 22]
       ∧ printed (by_thread (Worker 0) (trace s))
         = [lit "Port 21 is open (Service: FTP)"]
       ∧ printed (by_thread (Worker 1) (trace s))
         = [lit "Port 22 is open (Service: Unknown)"]
       ∧ quiescent lab target s.
Proof.
  destruct (run lab target two_workers_schedule (init target 21 22))
    as [s|] eqn:Hrun; [|by vm_compute in Hrun].
  exists s. split; [done|].
  assert (Hret : returned s ∧ printed (by_thread (Worker 0) (trace s))
                              = [lit "Port 21 is open (Service: FTP)"]
                 ∧ printed (by_thread (Worker 1) (trace s))
                   = [lit "Port 22 is open (Service: Unknown)"]).
  { vm_compute in Hrun. injection Hrun as <-. by vm_compute. }
  destruct Hret as (Hret & Hout0 & Hout1).
  destruct (proj2 (threaded_port_scan_returns_after_all_done lab target 21 22)
              s (run_reachable _ _ _ _ _ _ Hrun) Hret)
    as (_ & _ & Hcomp & _ & _ & _ & Hquiet & _).
  by split_and!.
Defined.

(* The call threader makes, read off its definition. *)
Lemma threader_call (env : environment) (ip : text) (worker : Z) :
  head (events (threader env ip worker))
  = Some (ScanPortCall ip worker (bool_decide (worker ≤ 100))).
Proof.
  assert (Hb : (worker <=? 100) = bool_decide (worker ≤ 100)).
  { destruct (Z.leb_spec worker 100).
    - by rewrite bool_decide_eq_true_2.
    - rewrite bool_decide_eq_false_2; [done | lia]. }
  unfold threader, scan_port, events, mbind, M_bind, bind, emit.
  rewrite Hb. by destruct (try_except _ _) as [t [[]|e]].
Qed.

(* The pool never outgrows its size. *)
Lemma pool_bound env ip min_port max_port s :
  reachable env ip min_port max_port s →
  (length (workers s) ≤ pool_size min_port max_port)%nat.
Proof.
  intros (Hprog & _ & _ & ->)%main_progress.
  apply (f_equal starts) in Hprog.
  rewrite !starts_app, starts_replicate_start, starts_fmap_put in Hprog.
  change (starts [Print _]) with 0%nat in Hprog.
  change (starts [QueueJoin]) with 0%nat in Hprog. lia.
Qed.

(* Without workers the trace is the main thread's alone. *)
Lemma main_only env ip min_port max_port s :
  pool_size min_port max_port = 0%nat →
  reachable env ip min_port max_port s →
  workers s = []
  ∧ trace s = (λ e, (Main, e)) <$> by_thread Main (trace s).
Proof.
  intros Hpool Hs.
  assert (Hnone : ∀ s, reachable env ip min_port max_port s → workers s = []).
  { intros s0 Hb%pool_bound. apply length_zero_iff_nil. lia. }
  split; [by apply Hnone|]. revert s Hs. apply rtc_ind_r; [done|].
  intros s s' Hs [t Ht] IH. apply Hnone in Hs.
  destruct (step_inv _ _ _ _ _ Ht)
    as [(e & rest & _ & _ & _ & Htr & _)
       |[(i & ? & ? & _ & Hw & _)|[(i & ? & ? & ? & ? & _ & Hw & _)
       |[(i & ? & _ & Hw & _)|(i & ? & ? & _ & Hw & _)]]]];
    try (by rewrite Hs in Hw).
  rewrite Htr, by_thread_snoc, decide_True, fmap_app by done.
  by rewrite <- IH.
Qed.

(** C10: for min_port > max_port, threaded_port_scan starts no worker
    thread, puts nothing on the queue, scans no port and returns normally:
    it prints its banner, passes the join at once and ends without an
    exception; no execution contains anything else. *)
Theorem reversed_range_scans_nothing
    (env : environment) (ip : text) (min_port max_port : Z) :
  min_port > max_port →
  threaded_port_scan ip min_port max_port
  = ([Print (banner ip min_port max_port); QueueJoin], Ok tt)
  ∧ (∃ s, run env ip [Main; Main] (init ip min_port max_port) = Some s
          ∧ returned s
          ∧ trace s = [(Main, Print (banner ip min_port max_port));
                       (Main, QueueJoin)])
  ∧ ∀ s, reachable env ip min_port max_port s →
      workers s = [] ∧ queue s = []
      ∧ started (trace s) = 0%nat ∧ enqueued (trace s) = []
      ∧ trace s `prefix_of` [(Main, Print (banner ip min_port max_port));
                             (Main, QueueJoin)].
Proof.
  intros Hgt.
  assert (Hpool : pool_size min_port max_port = 0%nat)
    by (unfold pool_size; lia).
  assert (Hports : ports min_port max_port = [])
    by (unfold ports; apply seqZ_nil; lia).
  assert (Hprog : threaded_port_scan ip min_port max_port
                  = ([Print (banner ip min_port max_port); QueueJoin], Ok tt)).
  { by rewrite threaded_port_scan_unfold, Hpool, Hports. }
  split_and!; [done| |].
  - unfold init. rewrite Hprog. by eexists.
  - intros s Hs.
    destruct (main_only env ip _ _ s Hpool Hs) as [Hw Htr].
    pose proof (reachable_invariant _ _ _ _ _ Hs) as I.
    destruct (main_progress env ip _ _ s Hs) as (Hp & Henq & Hst & _).
    cbn zeta in Hp. rewrite Hpool, Hports in Hp. simpl in Hp.
    pose proof (enqueued_prefix env ip _ _ s Hs) as Hpre.
    rewrite Hports in Hpre. apply app_eq_nil in Hpre as [Hen _].
    assert (Hq : queue s = []).
    { pose proof (inv_fifo _ _ _ _ _ I) as Hf. rewrite Hen in Hf.
      symmetry in Hf. by apply app_eq_nil in Hf as [_ ?]. }
    split_and!; try done.
    + pose proof (pool_bound _ _ _ _ _ Hs) as Hb.
      rewrite (inv_pool _ _ _ _ _ I) in Hb. lia.
    + rewrite Htr. exists ((λ e, (Main, e)) <$> main s).
      by rewrite <- fmap_app, Hp.
Qed.

Lemma reversed_range_scans_nothing_witness :
  threaded_port_scan target 5 3
  = ([Print (banner target 5 3); QueueJoin], Ok tt)
  ∧ ∃ s, run lab target [Main; Main] (init target 5 3) = Some s
         ∧ returned s
         ∧ trace s = [(Main, Print (banner target 5 3)); (Main, QueueJoin)].
Proof.
  destruct (reversed_range_scans_nothing lab target 5 3 ltac:(lia))
    as (Hprog & Hrun & _).
  by split.
Defined.




(* --------------------------------------------------------------------- *)
(* Accounting for what the workers do                                    *)
(* --------------------------------------------------------------------- *)

Lemma workers_insert ws i (w w' : worker_state) :
  ws !! i = Some w →
  ∃ rest, ws ≡ₚ w :: rest ∧ <[i := w']> ws ≡ₚ w' :: rest.
Proof.
  revert i. induction ws as [|w0 ws IH]; intros [|i] Hw; simplify_eq/=.
  - by exists ws.
  - destruct (IH i Hw) as (rest & H1 & H2). exists (w0 :: rest).
    split; [rewrite H1 | rewrite H2]; apply perm_swap.
Qed.

Lemma by_workers_snoc tr t e :
  by_workers (tr ++ [(t, e)])
  = by_workers tr ++ match t with Worker _ => [e] | Main => [] end.
Proof. unfold by_workers. rewrite omap_app. by destruct t. Qed.

#[local] Instance held_Permutation : Proper ((≡ₚ) ==> (≡ₚ)) held.
Proof. intros ws ws' H. unfold held. by rewrite H. Qed.

#[local] Instance pending_Permutation : Proper ((≡ₚ) ==> (≡ₚ)) pending.
Proof. intros ws ws' H. unfold pending. by rewrite H. Qed.

Section accounting.
Context (env : environment) (ip : text) (min_port max_port : Z).
Context {X : Type} (sel : event → option X).
Hypothesis sel_get : ∀ p, sel (QueueGet p) = None.
Hypothesis sel_done : ∀ p, sel (QueueTaskDone p) = None.

Local Abbreviation share := (λ p, omap sel (events (threader env ip p))).

(* What the workers have done and have still to do in their calls is what
   the calls for the ports taken so far do. *)
Lemma accounting s :
  reachable env ip min_port max_port s →
  omap sel (by_workers (trace s)) ++ omap sel (pending (workers s))
  ≡ₚ mjoin (share <$> (completed (trace s) ++ held (workers s))).
Proof.
  revert s. apply rtc_ind_r; [done|].
  intros s s' Hs [t Ht] IH.
  pose proof (reachable_invariant _ _ _ _ _ Hs) as I.
  destruct (step_inv _ _ _ _ _ Ht)
    as [(e & rest & _ & Hm & _ & Htr & Hw & _)
       |[(i & p & rest & _ & Hwi & _ & _ & Hw & _ & _ & Htr)
       |[(i & p & e & todo & r & _ & Hwi & _ & Hw & _ & _ & Htr)
       |[(i & p & _ & Hwi & _ & _ & Hw & _ & _ & Htr)
        |(i & p & r & _ & Hwi & Hbad & _)]]]].
  - assert (He : e ∈ events (threaded_port_scan ip min_port max_port)).
    { rewrite <- (inv_main _ _ _ _ _ I), Hm. apply elem_of_app. right.
      by left. }
    rewrite Htr, Hw, by_workers_snoc, completed_snoc, held_app, app_nil_r.
    unfold pending. rewrite fmap_app, join_app.
    apply program_events in He as [-> | [-> | [[q ->] | ->]]]; simpl;
      by rewrite !app_nil_r.
  - destruct (workers_insert _ _ _
                (Scanning p (events (threader env ip p))
                   (outcome (threader env ip p))) Hwi)
      as (others & H1 & H2).
    rewrite Htr, Hw, by_workers_snoc, completed_snoc, omap_app. simpl.
    rewrite sel_get. simpl. rewrite !app_nil_r.
    rewrite H2. rewrite H1 in IH. unfold pending in *. simpl in IH |- *.
    rewrite fmap_app, join_app in IH |- *. simpl.
    rewrite omap_app, Permutation_app_swap_app.
    rewrite (Permutation_app_swap_app (mjoin _)).
    by apply Permutation_app_head.
  - destruct (workers_insert _ _ _ (Scanning p todo r) Hwi)
      as (others & H1 & H2).
    destruct (inv_worker _ _ _ _ _ I _ _ Hwi) as (_ & done & Hdone & _).
    assert (He : e = ScanPortCall ip p (p <=? 100) ∨ scan_io e).
    { apply (scan_port_events env). fold (threader env ip p).
      rewrite <- Hdone. apply elem_of_app. right. by left. }
    rewrite Htr, Hw, by_workers_snoc, completed_snoc, omap_app.
    rewrite H2. rewrite H1 in IH. unfold pending in *. simpl in IH |- *.
    replace (match e with QueueTaskDone q => [q] | _ => [] end)
      with (@nil Z) by (by destruct He as [->|He]; [|destruct e]).
    rewrite app_nil_r, <- IH.
    destruct (sel e); simpl; by rewrite <- ?app_assoc.
  - destruct (workers_insert _ _ _ Getting Hwi) as (others & H1 & H2).
    rewrite Htr, Hw, by_workers_snoc, completed_snoc, omap_app. simpl.
    rewrite sel_done. simpl. rewrite !app_nil_r.
    rewrite H2. rewrite H1 in IH. unfold pending in *. simpl in IH |- *.
    by rewrite <- app_assoc.
  - destruct (inv_worker _ _ _ _ _ I _ _ Hwi) as (-> & _).
    destruct Hbad as [Hz|[x Hx]]; [|done].
    pose proof (held_scanning _ _ _ _ _ Hwi).
    pose proof (inv_count _ _ _ _ _ I). lia.
Qed.

(* Whatever a worker did belongs to the call for a port of the range. *)
Lemma accounting_origin s x :
  reachable env ip min_port max_port s →
  x ∈ omap sel (by_workers (trace s)) →
  ∃ p, min_port ≤ p ≤ max_port ∧ x ∈ share p.
Proof.
  intros Hs Hx.
  pose proof (reachable_invariant _ _ _ _ _ Hs) as I.
  assert (x ∈ mjoin (share <$> (completed (trace s) ++ held (workers s))))
    as Hin.
  { rewrite <- (accounting s Hs). apply elem_of_app. by left. }
  apply list_elem_of_join in Hin as (l & Hxl & Hl).
  apply list_elem_of_fmap in Hl as (p & -> & Hp).
  exists p. split; [|done].
  rewrite <- (inv_held _ _ _ _ _ I) in Hp. apply ports_elem.
  rewrite <- (enqueued_prefix _ _ _ _ _ Hs), (inv_fifo _ _ _ _ _ I).
  apply elem_of_app. left. apply elem_of_app. by left.
Qed.

(* At the return it is what the calls for all ports of the range do. *)
Lemma accounting_returned s :
  reachable env ip min_port max_port s →
  returned s →
  omap sel (by_workers (trace s))
  ≡ₚ mjoin (share <$> ports min_port max_port).
Proof.
  intros Hs Hret.
  pose proof (reachable_invariant _ _ _ _ _ Hs) as I.
  destruct (returned_quiescent _ _ _ _ _ Hs Hret) as (Hq & Hh & _).
  pose proof (accounting s Hs) as Hacc.
  assert (pending (workers s) = []) as Hp.
  { unfold pending. apply join_nil_2, Forall_fmap, Forall_forall.
    intros w Hw. apply list_elem_of_lookup in Hw as [i Hw].
    by rewrite (held_nil_getting _ _ _ Hh Hw). }
  rewrite Hp, Hh, !app_nil_r in Hacc. rewrite Hacc.
  assert (completed (trace s) ≡ₚ ports min_port max_port) as ->; [|done].
  rewrite <- (enqueued_prefix _ _ _ _ _ Hs), Hret, (inv_fifo _ _ _ _ _ I), Hq.
  unfold puts. simpl. rewrite !app_nil_r.
  by rewrite (inv_held _ _ _ _ _ I), Hh, app_nil_r.
Qed.

End accounting.

(* --------------------------------------------------------------------- *)
(* More on identify_service and scan_port                                *)
(* --------------------------------------------------------------------- *)

(* The socket traffic of identify_service. *)
Lemma identify_service_trace (env : environment) (sock : socket) (port : Z) :
  events (identify_service env sock port)
  = match SERVICE_PROBES !! port with
    | None => []
    | Some probe =>
        SendAll probe
          :: match sendall_result sock probe with
             | Ok _ => [Recv 1024]
             | Raise _ => []
             end
    end.
Proof.
  unfold_m.
  destruct (SERVICE_PROBES !! port) as [probe|]; cbn -[classify]; [|done].
  destruct (sendall_result sock probe); cbn -[classify]; [|done].
  destruct (recv_result sock) as [data|]; cbn -[classify]; [|done].
  destruct (decode_ignore env (take 1024 data)) as [response|];
    cbn -[classify]; [|done].
  by destruct (classify response).
Qed.

(** X1: identify_service talks to the socket as little as the code shows:
    for a port without a probe nothing is sent or received and the answer
    is "Unknown"; for a port with a probe exactly that probe is sent once
    and, only when the send has succeeded, one recv of 1024 octets follows;
    there is never a second send or a second read. *)
Theorem identify_service_io (env : environment) (sock : socket) (port : Z) :
  match SERVICE_PROBES !! port with
  | None =>
      identify_service env sock port = ([], Ok (lit "Unknown"))
  | Some probe =>
      events (identify_service env sock port)
      = SendAll probe
          :: match sendall_result sock probe with
             | Ok _ => [Recv 1024]
             | Raise _ => []
             end
  end.
Proof.
  pose proof (identify_service_trace env sock port) as Ht.
  destruct (SERVICE_PROBES !! port) as [probe|] eqn:Hp; [done|].
  unfold_m. by rewrite Hp.
Qed.

(** X2: when the port has a probe and sending, receiving and decoding
    succeed, identify_service answers with the classification of the
    decoded text of the first 1024 octets received, and with "Unknown" when
    no keyword occurs in it; octets after the first 1024 play no part. *)
Theorem identify_service_classifies
    (env : environment) (sock : socket) (port : Z)
    (probe data : bytes) (response : text) :
  SERVICE_PROBES !! port = Some probe →
  sendall_result sock probe = Ok tt →
  recv_result sock = Ok data →
  decode_ignore env (take 1024 data) = Ok response →
  outcome (identify_service env sock port)
  = Ok (default (lit "Unknown") (classify response)).
Proof.
  intros Hp Hs Hr Hd. unfold_m. rewrite Hp, Hs. cbn -[classify].
  rewrite Hr. cbn -[classify]. rewrite Hd. cbn -[classify].
  by destruct (classify response).
Qed.

Lemma identify_service_classifies_witness :
  outcome (identify_service lab (listener (blit "SSH-2.0-OpenSSH_9.6")) 22)
  = Ok (lit "SSH").
Proof.
  exact (identify_service_classifies lab
           (listener (blit "SSH-2.0-OpenSSH_9.6")) 22
           [LF] (blit "SSH-2.0-OpenSSH_9.6") (lit "SSH-2.0-OpenSSH_9.6")
           eq_refl eq_refl eq_refl eq_refl).
Defined.

(** X3: identify_service never invents a name: its answer is "Unknown" or
    one of the service names of SERVICE_KEYWORDS. *)
Theorem identify_service_names (env : environment) (sock : socket) (port : Z) :
  ∃ service,
    outcome (identify_service env sock port) = Ok service
    ∧ (service = lit "Unknown" ∨ service ∈ SERVICE_KEYWORDS.*2).
Proof.
  assert (Hc : ∀ response service,
             classify response = Some service →
             service ∈ SERVICE_KEYWORDS.*2).
  { intros response service Hcl.
    pose proof (first_keyword_spec SERVICE_KEYWORDS response) as Hs.
    unfold classify in Hcl. rewrite Hcl in Hs.
    destruct Hs as (earlier & keyword & later & -> & _).
    rewrite fmap_app, fmap_cons. apply elem_of_app. right. by left. }
  unfold_m.
  destruct (SERVICE_PROBES !! port) as [probe|]; cbn -[classify]; [|eauto].
  destruct (sendall_result sock probe); cbn -[classify]; [|eauto].
  destruct (recv_result sock) as [data|]; cbn -[classify]; [|eauto].
  destruct (decode_ignore env (take 1024 data)) as [response|];
    cbn -[classify]; [|eauto].
  destruct (classify response) as [service|] eqn:Hcl; cbn; eauto.
Qed.

(* The three ways a call of scan_port can go. *)
Lemma scan_port_cases (env : environment) (ip : text) (port : Z)
    (verbose : bool) :
  ∃ probing tail,
    events (scan_port env ip port verbose)
    = [ScanPortCall ip port verbose; SocketCreate; SetTimeout 1;
       ConnectEx ip port] ++ probing ++ tail
    ∧ probing
      = (if verbose
         then match connect_ex_result (network env ip port) with
              | Ok 0 => events (identify_service env (network env ip port) port)
              | _ => []
              end
         else [])
    ∧ ((∃ line, tail = [Print line; SocketClose; ScanPortReturn]
                ∧ connect_ex_result (network env ip port) = Ok 0)
       ∨ (tail = [SocketClose; ScanPortReturn]
          ∧ ∃ code, connect_ex_result (network env ip port) = Ok code
                    ∧ code ≠ 0)
       ∨ (∃ line, tail = [Print line; ScanPortReturn]
                  ∧ ∃ e, connect_ex_result (network env ip port) = Raise e)).
Proof.
  destruct (connect_ex_result (network env ip port)) as [code|e] eqn:Hc.
  - destruct (decide (code = 0)) as [->|Hne].
    + destruct (scan_port_open env ip port verbose Hc)
        as (probing & service & Hid & ->).
      exists probing, [Print (open_line port service); SocketClose;
                       ScanPortReturn].
      split_and!; [done| |left; eauto].
      destruct verbose; [by rewrite Hid | by injection Hid as <- _].
    + rewrite (scan_port_refused _ _ _ _ code) by done.
      exists [], [SocketClose; ScanPortReturn].
      split_and!; [done| |right; left; eauto].
      destruct verbose; [|done]. by destruct code.
  - rewrite (scan_port_raised _ _ _ _ e) by done.
    exists [], [Print (error_line port e); ScanPortReturn].
    split_and!; [done|by destruct verbose|right; right; eauto].
Qed.

(* What one call of scan_port adds to each reading of a trace. *)
Lemma scan_port_tally
    (env : environment) (ip : text) (port : Z) (verbose : bool) :
  created (events (scan_port env ip port verbose)) = [()]
  ∧ connections (events (scan_port env ip port verbose)) = [(ip, port)]
  ∧ closed (events (scan_port env ip port verbose))
    = (if connect_returns env ip port then [()] else [])
  ∧ sent (events (scan_port env ip port verbose))
    = match SERVICE_PROBES !! port with
      | Some probe =>
          if verbose
          then match connect_ex_result (network env ip port) with
               | Ok 0 => [probe]
               | _ => []
               end
          else []
      | None => []
      end
  ∧ (length (printed (events (scan_port env ip port verbose))) ≤ 1)%nat.
Proof.
  destruct (scan_port_cases env ip port verbose)
    as (probing & tail & Hev & Hpr & Htail).
  assert (Hio : created probing = [] ∧ connections probing = []
                ∧ closed probing = [] ∧ printed probing = []
                ∧ sent probing
                  = match SERVICE_PROBES !! port with
                    | Some probe =>
                        if verbose
                        then match connect_ex_result (network env ip port) with
                             | Ok 0 => [probe]
                             | _ => []
                             end
                        else []
                    | None => []
                    end).
  { rewrite Hpr.
    destruct verbose; [|by destruct (SERVICE_PROBES !! port)].
    destruct (connect_ex_result _) as [[| |]|];
      try (by destruct (SERVICE_PROBES !! port)).
    rewrite identify_service_trace.
    destruct (SERVICE_PROBES !! port); [|done].
    by destruct (sendall_result _ _). }
  destruct Hio as (Hcr & Hco & Hcl & Hp & Hse).
  rewrite Hev. unfold created, connections, closed, sent, printed,
    connect_returns in *.
  rewrite !omap_app, Hcr, Hco, Hcl, Hp, Hse.
  destruct Htail as [(? & -> & ->)|[(-> & ? & -> & _)|(? & -> & ? & ->)]];
    simpl; rewrite ?app_nil_r; split_and!; try done; lia.
Qed.

(** X5: scan_port sends octets only when it was called with verbose, the
    connection succeeded and the port has a probe; what it sends is that
    probe, once. *)
Theorem scan_port_sends
    (env : environment) (ip : text) (port : Z) (verbose : bool) (data : bytes) :
  data ∈ sent (events (scan_port env ip port verbose)) →
  verbose = true
  ∧ connect_ex_result (network env ip port) = Ok 0
  ∧ SERVICE_PROBES !! port = Some data
  ∧ sent (events (scan_port env ip port verbose)) = [data].
Proof.
  destruct (scan_port_tally env ip port verbose) as (_ & _ & _ & -> & _).
  destruct (SERVICE_PROBES !! port) as [probe|]; [|by intros ?%elem_of_nil].
  destruct verbose; [|by intros ?%elem_of_nil].
  destruct (connect_ex_result _) as [[| |]|]; try (by intros ?%elem_of_nil).
  by intros ->%list_elem_of_singleton.
Qed.

Lemma scan_port_sends_witness :
  sent (events (scan_port lab target 21 true)) = [blit "HELLO" ++ [CR; LF]].
Proof.
  refine (proj2 (proj2 (proj2
            (scan_port_sends lab target 21 true (blit "HELLO" ++ [CR; LF]) _)))).
  vm_compute. by left.
Defined.

(* --------------------------------------------------------------------- *)
(* What a whole scan does                                                *)
(* --------------------------------------------------------------------- *)

Lemma trace_split (tr : list (thread * event)) :
  tr.*2 ≡ₚ by_thread Main tr ++ by_workers tr.
Proof.
  induction tr as [|[[|i] e] tr IH]; [done| |]; cbn.
  - by rewrite IH.
  - rewrite IH. apply Permutation_middle.
Qed.

Lemma omap_none {A B} (f : A → option B) (l : list A) :
  (∀ x, x ∈ l → f x = None) → omap f l = [].
Proof.
  induction l as [|x l IH]; [done|]. intros H. simpl.
  rewrite (H x) by (by left). apply IH. intros y Hy. apply H. by right.
Qed.

Lemma main_events env ip min_port max_port s e :
  reachable env ip min_port max_port s →
  e ∈ by_thread Main (trace s) →
  e = Print (banner ip min_port max_port) ∨ e = ThreadStart
  ∨ (∃ p, e = QueuePut p) ∨ e = QueueJoin.
Proof.
  intros I%reachable_invariant He. apply (program_events ip min_port max_port).
  rewrite <- (inv_main _ _ _ _ _ I). apply elem_of_app. by left.
Qed.

(* A reading that ignores what the main thread does reads the workers. *)
Lemma reading_workers {X} (sel : event → option X) env ip min_port max_port s :
  sel (Print (banner ip min_port max_port)) = None →
  sel ThreadStart = None → (∀ p, sel (QueuePut p) = None) →
  sel QueueJoin = None →
  reachable env ip min_port max_port s →
  omap sel (trace s).*2 ≡ₚ omap sel (by_workers (trace s)).
Proof.
  intros H1 H2 H3 H4 Hs. rewrite trace_split, omap_app, omap_none; [done|].
  intros e He.
  by destruct (main_events _ _ _ _ _ _ Hs He) as [-> | [-> | [[p ->] | ->]]].
Qed.


Lemma join_singletons {A B} (f : A → B) (l : list A) :
  mjoin ((λ x, [f x]) <$> l) = f <$> l.
Proof. induction l; [done|]. simpl. by f_equal. Qed.

Lemma taken_NoDup env ip min_port max_port s :
  reachable env ip min_port max_port s →
  NoDup (completed (trace s) ++ held (workers s)).
Proof.
  intros Hs. pose proof (reachable_invariant _ _ _ _ _ Hs) as I.
  rewrite <- (inv_held _ _ _ _ _ I).
  assert (NoDup (ports min_port max_port)) as Hnd by apply NoDup_seqZ.
  rewrite <- (enqueued_prefix _ _ _ _ _ Hs), (inv_fifo _ _ _ _ _ I) in Hnd.
  apply NoDup_app in Hnd as [Hnd _]. by apply NoDup_app in Hnd as [Hnd _].
Qed.

(* --------------------------------------------------------------------- *)
(* The identify flag                                                     *)
(* --------------------------------------------------------------------- *)

Lemma leb_bool_decide (p : Z) : (p <=? 100) = bool_decide (p ≤ 100).
Proof.
  destruct (Z.leb_spec p 100).
  - by rewrite bool_decide_eq_true_2.
  - rewrite bool_decide_eq_false_2; [done | lia].
Qed.

Lemma calls_threader (env : environment) (ip : text) (p : Z) :
  calls (events (threader env ip p)) = [(ip, p, bool_decide (p ≤ 100))].
Proof.
  unfold threader. rewrite <- leb_bool_decide.
  destruct (connect_ex_result (network env ip p)) as [code|e] eqn:Hc.
  - destruct (decide (code = 0)) as [->|Hne].
    + destruct (scan_port_open env ip p (p <=? 100) Hc)
        as (probing & service & Hid & ->).
      unfold events, calls; simpl. rewrite omap_app. simpl.
      rewrite omap_none; [done|]. intros e He.
      destruct (p <=? 100).
      * pose proof (identify_service_events env (network env ip p) p e) as Hio.
        rewrite Hid in Hio. by destruct (Hio He) as [[? ->]|[? ->]].
      * injection Hid as <- _. by apply elem_of_nil in He.
    + by rewrite (scan_port_refused _ _ _ _ code).
  - by rewrite (scan_port_raised _ _ _ _ e).
Qed.

(** C4: for every port p that a worker takes from the queue, threader
    calls scan_port for p, once, and the verbose flag it passes is True
    exactly when p <= 100, whatever the bounds of the range: the call is
    the first thing threader does with p; a worker that holds p has made
    that call or makes it next; every port marked done was called so; no
    call of scan_port in any execution carries another address, a port
    outside the range or another flag, and no port is called twice; at the
    return the calls made are exactly one call (ip, p, p <= 100) for each
    port p of the range. *)
Theorem identify_flag_policy
    (env : environment) (ip : text) (min_port max_port : Z) (s : state) :
  reachable env ip min_port max_port s →
  (∀ p, head (events (threader env ip p))
        = Some (ScanPortCall ip p (bool_decide (p ≤ 100)))
        ∧ calls (events (threader env ip p))
          = [(ip, p, bool_decide (p ≤ 100))])
  ∧ (∀ t ip' p verbose,
       (t, ScanPortCall ip' p verbose) ∈ trace s →
       ip' = ip ∧ min_port ≤ p ≤ max_port ∧ (verbose = true ↔ p ≤ 100))
  ∧ (∀ i p todo r,
       workers s !! i = Some (Scanning p todo r) →
       (Worker i, ScanPortCall ip p (bool_decide (p ≤ 100))) ∈ trace s
       ∨ head todo = Some (ScanPortCall ip p (bool_decide (p ≤ 100))))
  ∧ (∀ i p,
       (Worker i, QueueTaskDone p) ∈ trace s →
       (Worker i, ScanPortCall ip p (bool_decide (p ≤ 100))) ∈ trace s)
  ∧ NoDup (calls (trace s).*2)
  ∧ (returned s →
     calls (trace s).*2
     ≡ₚ (λ p, (ip, p, bool_decide (p ≤ 100))) <$> ports min_port max_port).
Proof.
  intros Hs. pose proof (reachable_invariant _ _ _ _ _ Hs) as I.
  set (sel := λ e, match e with
                   | ScanPortCall a p v => Some (a, p, v)
                   | _ => None
                   end).
  assert (Hw : calls (trace s).*2 ≡ₚ omap sel (by_workers (trace s))).
  { by apply (reading_workers sel env ip min_port max_port). }
  assert (Hshare : ∀ p, omap sel (events (threader env ip p))
                        = [(ip, p, bool_decide (p ≤ 100))]).
  { intros p. apply calls_threader. }
  assert (Hinj : Inj (=) (=) (λ p : Z, (ip, p, bool_decide (p ≤ 100)))).
  { by intros ?? [= ->]. }
  split_and!.
  - intros p. split; [apply threader_call | apply calls_threader].
  - intros t ip' p verbose Hin.
    assert ((ip', p, verbose) ∈ calls (trace s).*2) as Hc.
    { apply list_elem_of_omap. exists (ScanPortCall ip' p verbose).
      split; [|done]. apply list_elem_of_fmap.
      by exists (t, ScanPortCall ip' p verbose). }
    rewrite Hw in Hc.
    destruct (accounting_origin env ip min_port max_port sel
                (λ _, eq_refl) (λ _, eq_refl) s _ Hs Hc) as (q & Hq & Hx).
    rewrite Hshare in Hx. apply list_elem_of_singleton in Hx.
    injection Hx as -> -> ->. split_and!; [done|lia|lia|].
    apply bool_decide_eq_true.
  - intros i p todo r Hi.
    destruct (inv_worker _ _ _ _ _ I _ _ Hi) as (_ & done & Hd & Hsub).
    pose proof (threader_call env ip p) as Hhead. rewrite <- Hd in Hhead.
    destruct done as [|e done]; [by right|]. left.
    simpl in Hhead. injection Hhead as ->.
    eapply elem_of_sublist; [|exact Hsub].
    simpl. right. right. by left.
  - intros i p Hdone.
    pose proof (inv_done _ _ _ _ _ I _ _ Hdone) as Hlife.
    pose proof (threader_call env ip p) as Hhead.
    eapply elem_of_sublist; [|exact Hlife].
    unfold life_of_port. apply elem_of_app. right. apply elem_of_app. left.
    apply list_elem_of_fmap. eexists. split; [done|].
    destruct (events (threader env ip p)) as [|e l]; [done|].
    injection Hhead as ->. by left.
  - rewrite Hw.
    pose proof (accounting env ip min_port max_port sel
                  (λ _, eq_refl) (λ _, eq_refl) s Hs) as Hacc.
    assert (NoDup (mjoin ((λ p, omap sel (events (threader env ip p)))
                            <$> (completed (trace s) ++ held (workers s)))))
      as Hnd.
    { rewrite (list_fmap_ext _ (λ p, [(ip, p, bool_decide (p ≤ 100))]) _
                 (λ _ p _, Hshare p)).
      rewrite (join_singletons (λ p, (ip, p, bool_decide (p ≤ 100)))).
      apply (NoDup_fmap_2 (λ p : Z, (ip, p, bool_decide (p ≤ 100)))).
      by apply (taken_NoDup env ip min_port max_port). }
    rewrite <- Hacc in Hnd. by apply NoDup_app in Hnd as [? _].
  - intros Hret. rewrite Hw.
    rewrite (accounting_returned env ip min_port max_port sel
               (λ _, eq_refl) (λ _, eq_refl) s Hs Hret).
    rewrite (list_fmap_ext _ (λ p, [(ip, p, bool_decide (p ≤ 100))]) _
               (λ _ p _, Hshare p)).
    by rewrite (join_singletons (λ p, (ip, p, bool_decide (p ≤ 100)))).
Qed.

Lemma identify_flag_policy_witness :
  ∃ s, run lab target boundary_schedule (init target 100 101) = Some s
       ∧ calls (trace s).*2 ≡ₚ [(target, 100, true); (target, 101, false)].
Proof.
  destruct (run lab target boundary_schedule (init target 100 101))
    as [s|] eqn:Hrun; [|by vm_compute in Hrun].
  exists s. split; [done|].
  destruct (identify_flag_policy lab target 100 101 s
              (run_reachable _ _ _ _ _ _ Hrun))
    as (_ & _ & _ & _ & _ & Hall).
  apply Hall. vm_compute in Hrun. by injection Hrun as <-.
Defined.




Lemma probe_ports (p : Z) (data : bytes) :
  SERVICE_PROBES !! p = Some data → p ≤ 100 →
  p ∈ [20; 21; 22; 23; 25; 53; 80].
Proof.
  intros Hp Hle. unfold SERVICE_PROBES in Hp.
  apply elem_of_list_to_map_2 in Hp.
  repeat (apply elem_of_cons in Hp as [[= -> _]|Hp];
          [first [lia | rewrite !elem_of_cons; tauto]|]).
  by apply elem_of_nil in Hp.
Qed.

(** X9: a scan sends octets only to ports of its range that are at most
    100, have a probe and accepted the connection, and what it sends is the
    probe of SERVICE_PROBES for that port; so only the probes of the ports
    20, 21, 22, 23, 25, 53 and 80 are ever sent, and those of 110, 143,
    443, 587, 3306, 3389, 5900 and 8080 never. *)
Theorem scan_probes
    (env : environment) (ip : text) (min_port max_port : Z) (s : state)
    (data : bytes) :
  reachable env ip min_port max_port s →
  data ∈ sent (trace s).*2 →
  ∃ p, min_port ≤ p ≤ max_port
       ∧ p ∈ [20; 21; 22; 23; 25; 53; 80]
       ∧ SERVICE_PROBES !! p = Some data
       ∧ connect_ex_result (network env ip p) = Ok 0.
Proof.
  intros Hs Hin.
  set (sel := λ e, match e with SendAll d => Some d | _ => None end).
  change (sent (trace s).*2) with (omap sel (trace s).*2) in Hin.
  rewrite (reading_workers sel env ip min_port max_port s) in Hin by done.
  destruct (accounting_origin env ip min_port max_port sel
              (λ _, eq_refl) (λ _, eq_refl) s _ Hs Hin) as (p & Hp & Hx).
  exists p. split; [done|].
  destruct (scan_port_tally env ip p (p <=? 100)) as (_ & _ & _ & Hsent & _).
  change (data ∈ sent (events (scan_port env ip p (p <=? 100)))) in Hx.
  rewrite Hsent in Hx.
  destruct (SERVICE_PROBES !! p) as [probe|] eqn:Hprobe;
    [|by apply elem_of_nil in Hx].
  destruct (Z.leb_spec p 100); [|by apply elem_of_nil in Hx].
  destruct (connect_ex_result _) as [[| |]|];
    try (by apply elem_of_nil in Hx).
  apply list_elem_of_singleton in Hx as ->.
  split_and!; [by eapply probe_ports|done..].
Qed.

Lemma scan_probes_witness :
  ∃ p, 21 ≤ p ≤ 22
       ∧ p ∈ [20; 21; 22; 23; 25; 53; 80]
       ∧ SERVICE_PROBES !! p = Some [LF]
       ∧ connect_ex_result (network lab target p) = Ok 0.
Proof.
  destruct (run lab target two_workers_schedule (init target 21 22))
    as [s|] eqn:Hrun; [|by vm_compute in Hrun].
  apply (scan_probes lab target 21 22 s [LF]
           (run_reachable _ _ _ _ _ _ Hrun)).
  vm_compute in Hrun. injection Hrun as <-. vm_compute.
  apply list_elem_of_In. right. by left.
Defined.

(** X10: the pool never has more than 100 workers nor more workers than
    the range has ports; every worker in it was started by the main thread;
    and when the scan returns the pool has exactly
    min(100, max_port - min_port + 1) workers (none for an empty range). *)
Theorem worker_pool
    (env : environment) (ip : text) (min_port max_port : Z) (s : state) :
  reachable env ip min_port max_port s →
  (length (workers s) ≤ 100)%nat
  ∧ (length (workers s) ≤ length (ports min_port max_port))%nat
  ∧ length (workers s) = started (trace s)
  ∧ (returned s →
     Z.of_nat (length (workers s))
     = Z.max 0 (Z.min 100 (max_port - min_port + 1))).
Proof.
  intros Hs. pose proof (pool_bound _ _ _ _ _ Hs) as Hb.
  pose proof (reachable_invariant _ _ _ _ _ Hs) as I.
  unfold pool_size, ports in *. rewrite length_seqZ.
  split_and!; [lia|lia|apply (inv_pool _ _ _ _ _ I)|].
  intros Hret.
  destruct (main_progress _ _ _ _ _ Hs) as (Hprog & _ & _ & ->).
  cbn zeta in Hprog. rewrite Hret, app_nil_r in Hprog. rewrite Hprog.
  rewrite !starts_app, starts_replicate_start, starts_fmap_put.
  change (starts [Print _]) with 0%nat.
  change (starts [QueueJoin]) with 0%nat. unfold pool_size. lia.
Qed.

Lemma worker_pool_witness :
  ∃ s, run lab target two_workers_schedule (init target 21 22) = Some s
       ∧ Z.of_nat (length (workers s)) = 2.
Proof.
  destruct (run lab target two_workers_schedule (init target 21 22))
    as [s|] eqn:Hrun; [|by vm_compute in Hrun].
  exists s. split; [done|].
  destruct (worker_pool lab target 21 22 s (run_reachable _ _ _ _ _ _ Hrun))
    as (_ & _ & _ & Hsize).
  apply Hsize. vm_compute in Hrun. by injection Hrun as <-.
Defined.

(** X12: the queue hands the ports out in the order of the range: at every
    moment the range is the ports already taken by workers, followed by
    the ports waiting in the queue, followed by the ports the main thread
    has still to put. *)
Theorem ports_taken_in_order
    (env : environment) (ip : text) (min_port max_port : Z) (s : state) :
  reachable env ip min_port max_port s →
  dequeued (trace s) ++ queue s ++ puts (main s) = ports min_port max_port.
Proof.
  intros Hs. pose proof (reachable_invariant _ _ _ _ _ Hs) as I.
  by rewrite app_assoc, <- (inv_fifo _ _ _ _ _ I),
       (enqueued_prefix _ _ _ _ _ Hs).
Qed.

Lemma ports_taken_in_order_witness :
  ∃ s, run lab target (replicate 6 Main ++ [Worker 1]) (init target 21 23)
       = Some s
       ∧ dequeued (trace s) ++ queue s ++ puts (main s) = [21; 22; 23].
Proof.
  destruct (run lab target (replicate 6 Main ++ [Worker 1])
              (init target 21 23)) as [s|] eqn:Hrun;
    [|by vm_compute in Hrun].
  exists s. split; [done|].
  exact (ports_taken_in_order lab target 21 23 s
           (run_reachable _ _ _ _ _ _ Hrun)).
Defined.

(* --------------------------------------------------------------------- *)
(* More on classification                                                *)
(* --------------------------------------------------------------------- *)

Lemma substring_length (k t : text) :
  substring k t → (length k ≤ length t)%nat.
Proof. intros (before & after & ->). rewrite !length_app. lia. Qed.

(** X15: a response of fewer than three code points, the empty response of
    a peer that sent nothing among them, matches no keyword: every keyword
    of SERVICE_KEYWORDS has at least three. *)
Theorem classify_short (response : text) :
  (length response < 3)%nat → classify response = None.
Proof.
  intros Hlen. pose proof (first_keyword_spec SERVICE_KEYWORDS response) as Hs.
  unfold classify. destruct (first_keyword _ _) as [service|]; [|done].
  destruct Hs as (earlier & keyword & later & Htable & Hsub%substring_length & _).
  assert (Forall (λ ks, (3 ≤ length ks.1)%nat) SERVICE_KEYWORDS) as Hall
    by (repeat constructor).
  rewrite Htable in Hall.
  apply Forall_app in Hall as [_ Hall]. apply Forall_cons in Hall as [H3 _].
  simpl in H3. lia.
Qed.

Lemma classify_short_witness : classify (lit "OK") = None.
Proof. apply classify_short. simpl. lia. Defined.

(** X16: text around a match never makes the match disappear: when some
    keyword is found in a response, some keyword is found in every text
    that contains that response. *)
Theorem classify_extension (before response after : text) :
  is_Some (classify response) →
  is_Some (classify (before ++ response ++ after)).
Proof.
  intros [service Hs].
  pose proof (first_keyword_spec SERVICE_KEYWORDS response) as H1.
  pose proof (first_keyword_spec SERVICE_KEYWORDS
                (before ++ response ++ after)) as H2.
  unfold classify in *. rewrite Hs in H1.
  destruct (first_keyword _ (before ++ _)) as [service'|]; [by eexists|].
  exfalso.
  destruct H1 as (earlier & keyword & later & Htable & (b & a & ->) & _).
  rewrite Htable in H2. apply Forall_app in H2 as [_ H2].
  apply Forall_cons in H2 as [H2 _]. apply H2. simpl.
  exists (before ++ b), (a ++ after). by rewrite <- !app_assoc.
Qed.

Lemma classify_extension_witness :
  is_Some (classify (lit "Server: " ++ lit "SMTP" ++ lit " ready")).
Proof.
  apply (classify_extension (lit "Server: ") (lit "SMTP") (lit " ready")).
  by eexists.
Defined.

(** X17: an entry of SERVICE_KEYWORDS decides the classification whenever
    its keyword occurs in the response and no keyword listed before it
    does: the answer is then the service of that entry, whatever keywords
    listed after it occur as well. *)
Theorem classify_entry
    (earlier later : list (text * text)) (keyword service response : text) :
  SERVICE_KEYWORDS = earlier ++ (keyword, service) :: later →
  substring keyword response →
  Forall (λ ks, ¬ substring ks.1 response) earlier →
  classify response = Some service.
Proof.
  unfold classify. intros -> Hsub Hno.
  induction Hno as [|[k v] earlier Hk _ IH]; simpl.
  - apply contains_spec in Hsub. by rewrite Hsub.
  - apply contains_false in Hk. simpl in Hk. by rewrite Hk.
Qed.

Lemma classify_entry_witness :
  classify (lit "SSH-2.0 (RFB and MySQL mentioned)") = Some (lit "SSH").
Proof.
  apply (classify_entry (take 3 SERVICE_KEYWORDS) (drop 4 SERVICE_KEYWORDS)
           (lit "SSH")).
  - reflexivity.
  - by exists [], (lit "-2.0 (RFB and MySQL mentioned)").
  - repeat constructor; by apply contains_false.
Defined.

(* Each of the twelve entries before HTTPS is reached by its own keyword. *)
Example keywords_reachable :
  Forall (λ ks, classify ks.1 = Some ks.2) (take 12 SERVICE_KEYWORDS).
Proof. repeat constructor. Qed.

(* --------------------------------------------------------------------- *)
(* main                                                                  *)
(* --------------------------------------------------------------------- *)

(** X18: main scans when and only when the target was resolved, and then
    the range it was given, on the address resolution returned: it starts
    the pool and enqueues the ports of [min, max] after printing the
    resolved address. When gethostbyname raises gaierror it prints the
    error line, starts no thread, enqueues nothing and returns normally;
    any other exception of gethostbyname goes out of main, with nothing
    printed and nothing scanned. *)
Theorem main_scans_iff_resolved
    (gethostbyname : text → EntryPoint.resolution)
    (args : EntryPoint.Namespace) :
  match gethostbyname (EntryPoint.args_target args) with
  | EntryPoint.Resolved ip =>
      EntryPoint.main gethostbyname args
      = ([Print (lit "Resolved IP for " ++ EntryPoint.args_target args
                   ++ lit ": " ++ ip)]
           ++ events (threaded_port_scan ip (EntryPoint.args_min args)
                        (EntryPoint.args_max args)),
         Ok tt)
      ∧ starts (events (EntryPoint.main gethostbyname args))
        = pool_size (EntryPoint.args_min args) (EntryPoint.args_max args)
      ∧ puts (events (EntryPoint.main gethostbyname args))
        = ports (EntryPoint.args_min args) (EntryPoint.args_max args)
  | EntryPoint.Gaierror _ =>
      EntryPoint.main gethostbyname args
      = ([Print (lit "Error: Unable to resolve "
                   ++ EntryPoint.args_target args)], Ok tt)
      ∧ starts (events (EntryPoint.main gethostbyname args)) = 0%nat
      ∧ puts (events (EntryPoint.main gethostbyname args)) = []
  | EntryPoint.OtherError e =>
      EntryPoint.main gethostbyname args = ([], Raise e)
  end.
Proof.
  unfold EntryPoint.main, EntryPoint.resolve_dns.
  destruct (gethostbyname (EntryPoint.args_target args)) as [ip|e|e];
    [|done..].
  unfold mbind, M_bind, bind, emit, mret, M_ret, ret, events.
  rewrite !threaded_port_scan_unfold. cbn [fst snd].
  split_and!; [by simpl| |].
  - rewrite !starts_app, starts_replicate_start, starts_fmap_put.
    cbn. lia.
  - rewrite !puts_app, puts_replicate_start, puts_fmap_put.
    cbn. by rewrite app_nil_r.
Qed.

(* --------------------------------------------------------------------- *)
(* scan_port when its own calls fail                                     *)
(* --------------------------------------------------------------------- *)

(* On a calm system the full scan_port is the scan_port above. *)
Lemma full_scan_port_calm (env : environment) (ip : text) (port : Z)
    (verbose : bool) :
  Full.scan_port env Full.calm ip port verbose = scan_port env ip port verbose.
Proof. reflexivity. Qed.

(* The service name scan_port gets: identify_service never raises. *)
Lemma service_name_returns (env : environment) (ip : text) (port : Z)
    (verbose : bool) :
  ∃ probing service,
    (if verbose then identify_service env (network env ip port) port
     else mret (lit "Unknown")) = (probing, Ok service)
    ∧ (∀ e, e ∈ probing → (∃ data, e = SendAll data) ∨ (∃ n, e = Recv n)).
Proof.
  destruct verbose.
  - destruct (identify_service_returns env (network env ip port) port)
      as [service Hs].
    pose proof (identify_service_events env (network env ip port) port) as He.
    destruct (identify_service env (network env ip port) port)
      as [probing r]. unfold outcome, events in *; simpl in *; subst r.
    by exists probing, service.
  - exists [], (lit "Unknown"). split; [done|]. by intros e ?%elem_of_nil.
Qed.

(* The try body of scan_port: what it does and how it ends. *)
Lemma full_scan_port_unfold (env : environment) (fx : Full.effects)
    (ip : text) (port : Z) (verbose : bool) :
  ∃ probing service,
    (if verbose then identify_service env (network env ip port) port
     else mret (lit "Unknown")) = (probing, Ok service)
    ∧ (∀ e, e ∈ probing → (∃ data, e = SendAll data) ∨ (∃ n, e = Recv n))
    ∧ ∃ body r,
        (body, r)
        = match Full.socket_result fx with
          | Raise e => ([SocketCreate], Raise e)
          | Ok _ =>
            match Full.settimeout_result fx with
            | Raise e => ([SocketCreate; SetTimeout 1], Raise e)
            | Ok _ =>
              match connect_ex_result (network env ip port) with
              | Raise e =>
                  ([SocketCreate; SetTimeout 1; ConnectEx ip port], Raise e)
              | Ok code =>
                  if code =? 0 then
                    match Full.print_result fx (open_line port service) with
                    | Raise e =>
                        ([SocketCreate; SetTimeout 1; ConnectEx ip port]
                           ++ probing ++ [Print (open_line port service)],
                         Raise e)
                    | Ok _ =>
                        ([SocketCreate; SetTimeout 1; ConnectEx ip port]
                           ++ probing
                           ++ [Print (open_line port service); SocketClose],
                         Full.close_result fx)
                    end
                  else
                    ([SocketCreate; SetTimeout 1; ConnectEx ip port;
                      SocketClose], Full.close_result fx)
              end
            end
          end
        ∧ Full.scan_port env fx ip port verbose
          = match r with
            | Ok _ =>
                (ScanPortCall ip port verbose :: body ++ [ScanPortReturn],
                 Ok tt)
            | Raise e =>
                match Full.print_result fx (error_line port e) with
                | Ok _ =>
                    (ScanPortCall ip port verbose
                       :: body ++ [Print (error_line port e); ScanPortReturn],
                     Ok tt)
                | Raise x =>
                    (ScanPortCall ip port verbose
                       :: body ++ [Print (error_line port e)],
                     Raise x)
                end
            end.
Proof.
  destruct (service_name_returns env ip port verbose)
    as (probing & service & Hid & Hio).
  exists probing, service. split; [done|]. split; [done|].
  unfold Full.scan_port, Full.print, connect_ex, try_except, emit, perform,
    mbind, M_bind, bind.
  destruct (Full.socket_result fx) as [[]|e1].
  2:{ eexists _, _. split; [done|]. cbn -[error_line open_line].
      by destruct (Full.print_result fx (error_line port e1)) as [[]|]. }
  destruct (Full.settimeout_result fx) as [[]|e2].
  2:{ eexists _, _. split; [done|]. cbn -[error_line open_line].
      by destruct (Full.print_result fx (error_line port e2)) as [[]|]. }
  destruct (connect_ex_result (network env ip port)) as [code|e3].
  2:{ eexists _, _. split; [done|]. cbn -[error_line open_line].
      by destruct (Full.print_result fx (error_line port e3)) as [[]|]. }
  destruct (code =? 0).
  - rewrite Hid.
    destruct (Full.print_result fx (open_line port service)) as [[]|e4].
    + eexists _, _. split; [done|]. cbn -[error_line open_line].
      destruct (Full.close_result fx) as [[]|e5]; cbn -[error_line open_line].
      * by rewrite <- !(assoc_L (++)).
      * destruct (Full.print_result fx (error_line port e5)) as [[]|];
          cbn -[error_line open_line]; by rewrite <- !(assoc_L (++)).
    + eexists _, _. split; [done|]. cbn -[error_line open_line].
      destruct (Full.print_result fx (error_line port e4)) as [[]|];
        cbn -[error_line open_line]; by rewrite <- !(assoc_L (++)).
  - eexists _, _. split; [done|]. cbn -[error_line open_line].
    destruct (Full.close_result fx) as [[]|e5]; cbn -[error_line open_line]; [done|].
    by destruct (Full.print_result fx (error_line port e5)) as [[]|].
Qed.

(* What identify_service does is no creation, connection, closing or
   printing. *)
Lemma probing_silent (probing : list event) :
  (∀ e, e ∈ probing → (∃ data, e = SendAll data) ∨ (∃ n, e = Recv n)) →
  created probing = [] ∧ connections probing = [] ∧ closed probing = []
  ∧ printed probing = [].
Proof.
  intros Hio. unfold created, connections, closed, printed.
  split_and!; apply omap_none; intros e He;
    by destruct (Hio e He) as [[? ->]|[? ->]].
Qed.

Ltac full_paths env fx ip port verbose :=
  let probing := fresh "probing" in
  let service := fresh "service" in
  let Hid := fresh "Hid" in
  let Hio := fresh "Hio" in
  let body := fresh "body" in
  let r := fresh "r" in
  let Hbody := fresh "Hbody" in
  let Heq := fresh "Heq" in
  let Hcr := fresh "Hcr" in
  let Hco := fresh "Hco" in
  let Hcl := fresh "Hcl" in
  let Hpr := fresh "Hpr" in
  destruct (full_scan_port_unfold env fx ip port verbose)
    as (probing & service & Hid & Hio & body & r & Hbody & Heq);
  destruct (probing_silent probing Hio) as (Hcr & Hco & Hcl & Hpr);
  destruct (Full.socket_result fx) as [[]|?e] eqn:?Hsock;
    [destruct (Full.settimeout_result fx) as [[]|?e] eqn:?Htime;
       [destruct (connect_ex_result (network env ip port)) as [?code|?e]
          eqn:?Hconn;
          [destruct (Z.eqb_spec code 0) as [?Hcode|?Hcode];
             [destruct (Full.print_result fx (open_line port service))
                as [[]|?e] eqn:?Hopen;
                [destruct (Full.close_result fx) as [[]|?e] eqn:?Hclose|]
             |destruct (Full.close_result fx) as [[]|?e] eqn:?Hclose]
          |]
       |]
    |];
  injection Hbody as -> ->;
  cbn -[error_line open_line Full.scan_port] in Heq;
  rewrite <- ?(assoc_L (++)) in Heq;
  cbn -[error_line open_line Full.scan_port] in Heq;
  try match type of Heq with
      | context [Full.print_result fx (error_line port ?e)] =>
          destruct (Full.print_result fx (error_line port e)) as [[]|?x]
            eqn:?Herr
      end;
  cbn -[error_line open_line Full.scan_port] in Heq;
  rewrite <- ?(assoc_L (++)) in Heq;
  cbn -[error_line open_line Full.scan_port] in Heq.

(** X4: what a call of scan_port does when its own calls can fail. It
    calls socket.socket() once, first. When that raises, it prints the
    error line and makes no connection attempt, sets no timeout and
    closes nothing. It attempts a connection exactly when socket() and
    settimeout(1) returned, then once, to the address and port it was
    given, right after settimeout(1). It returns normally or lets out the
    exception that the print of its except clause raised, that print being
    the last thing it did; so it returns normally whenever that print does
    not raise. It prints at most two lines. *)
Theorem scan_port_failures
    (env : environment) (fx : Full.effects) (ip : text) (port : Z)
    (verbose : bool) :
  (∃ rest, events (Full.scan_port env fx ip port verbose)
           = [ScanPortCall ip port verbose; SocketCreate] ++ rest
           ∧ created rest = [])
  ∧ (∀ e, Full.socket_result fx = Raise e →
          events (Full.scan_port env fx ip port verbose)
          = [ScanPortCall ip port verbose; SocketCreate;
             Print (error_line port e)]
              ++ match Full.print_result fx (error_line port e) with
                 | Ok _ => [ScanPortReturn]
                 | Raise _ => []
                 end
          ∧ outcome (Full.scan_port env fx ip port verbose)
            = Full.print_result fx (error_line port e))
  ∧ match Full.socket_result fx, Full.settimeout_result fx with
    | Ok _, Ok _ =>
        ∃ rest, events (Full.scan_port env fx ip port verbose)
                = [ScanPortCall ip port verbose; SocketCreate; SetTimeout 1;
                   ConnectEx ip port] ++ rest
                ∧ connections rest = []
    | _, _ => connections (events (Full.scan_port env fx ip port verbose)) = []
    end
  ∧ (outcome (Full.scan_port env fx ip port verbose) = Ok tt
     ∧ last (events (Full.scan_port env fx ip port verbose))
       = Some ScanPortReturn
     ∨ ∃ e x,
         outcome (Full.scan_port env fx ip port verbose) = Raise x
         ∧ last (events (Full.scan_port env fx ip port verbose))
           = Some (Print (error_line port e))
         ∧ Full.print_result fx (error_line port e) = Raise x)
  ∧ ((∀ e, Full.print_result fx (error_line port e) = Ok tt) →
     outcome (Full.scan_port env fx ip port verbose) = Ok tt)
  ∧ (length (printed (events (Full.scan_port env fx ip port verbose))) ≤ 2)%nat.
Proof.
  split_and!.
  - full_paths env fx ip port verbose; rewrite Heq; unfold events;
      cbn [fst]; (eexists; split; [reflexivity|]);
      unfold created; cbn -[error_line open_line];
      rewrite ?omap_app; fold (created probing); by rewrite ?Hcr.
  - intros e0 He0.
    full_paths env fx ip port verbose; try discriminate;
      injection He0 as <-; rewrite Heq, Herr; done.
  - full_paths env fx ip port verbose; rewrite Heq; unfold events;
      cbn [fst]; try (eexists; split; [reflexivity|]);
      unfold connections; cbn -[error_line open_line];
      rewrite ?omap_app; fold (connections probing); by rewrite ?Hco.
  - full_paths env fx ip port verbose; rewrite Heq; unfold events, outcome;
      cbn [fst snd];
      first [ left; split; [done|];
              by rewrite ?last_cons, ?last_app
            | right; eexists _, _; split_and!; [done| |eassumption];
              by rewrite ?last_cons, ?last_app ].
  - intros Hok.
    full_paths env fx ip port verbose; rewrite Heq; try done;
      by rewrite Hok in Herr.
  - full_paths env fx ip port verbose; rewrite Heq; unfold events;
      cbn [fst]; unfold printed; cbn -[error_line open_line];
      rewrite ?omap_app; fold (printed probing); rewrite ?Hpr; simpl; lia.
Qed.

Lemma scan_port_failures_witness :
  events (Full.scan_port lab Full.no_descriptors target 22 true)
  = [ScanPortCall target 22 true; SocketCreate;
     Print (error_line 22 Full.EMFILE); ScanPortReturn]
  ∧ connections (events (Full.scan_port lab Full.no_descriptors target 22 true))
    = []
  ∧ outcome (Full.scan_port lab Full.closed_pipe target 70000 false)
    = Raise Full.EPIPE.
Proof.
  destruct (scan_port_failures lab Full.no_descriptors target 22 true)
    as (_ & Hraise & Hconn & _).
  destruct (scan_port_failures lab Full.closed_pipe target 70000 false)
    as (_ & _ & _ & [[Hok _]|(e & x & -> & _ & Hprint)] & _).
  - by vm_compute in Hok.
  - split_and!; [exact (proj1 (Hraise Full.EMFILE eq_refl))|exact Hconn|].
    by injection Hprint as <-.
Defined.

(** X8: scan_port calls sock.close() at most once, and exactly when every
    call before it in the try body returned: socket(), settimeout(1),
    connect_ex and, for an open port, the print of the open line. So a
    socket that was created is never closed by scan_port when
    settimeout(1) or connect_ex raises, or when the port is open and print
    raises. Where only the connection can fail, the socket is closed
    exactly when connect_ex returned. *)
Theorem scan_port_closes
    (env : environment) (fx : Full.effects) (ip : text) (port : Z)
    (verbose : bool) :
  closed (events (Full.scan_port env fx ip port verbose))
  = (if Full.closes env fx ip port verbose then [()] else [])
  ∧ ((∃ e, Full.settimeout_result fx = Raise e)
     ∨ (∃ e, connect_ex_result (network env ip port) = Raise e)
     ∨ (connect_ex_result (network env ip port) = Ok 0
        ∧ ∀ line, ∃ e, Full.print_result fx line = Raise e) →
     closed (events (Full.scan_port env fx ip port verbose)) = [])
  ∧ Full.closes env Full.calm ip port verbose = connect_returns env ip port.
Proof.
  assert (Hclosed :
    closed (events (Full.scan_port env fx ip port verbose))
    = (if Full.closes env fx ip port verbose then [()] else [])).
  { unfold Full.closes.
    full_paths env fx ip port verbose; rewrite Heq; unfold events;
      cbn [fst]; rewrite ?Hid; unfold outcome; cbn [snd];
      rewrite ?Hopen; subst;
      try (destruct (Z.eqb_spec code 0); [done|]);
      unfold closed; cbn -[error_line open_line];
      rewrite ?omap_app; fold (closed probing); by rewrite ?Hcl. }
  split_and!; [done| |].
  - rewrite Hclosed. unfold Full.closes.
    intros [[e He]|[[e He]|[He Hp]]]; rewrite ?He.
    + by destruct (Full.socket_result fx).
    + by destruct (Full.socket_result fx), (Full.settimeout_result fx).
    + destruct (Full.socket_result fx), (Full.settimeout_result fx);
        try done. simpl.
      match goal with |- context [Full.print_result fx ?line] =>
        destruct (Hp line) as [e ->] end. done.
  - unfold Full.closes, connect_returns. simpl.
    destruct (connect_ex_result (network env ip port)) as [code|]; [|done].
    by destruct (code =? 0).
Qed.

Lemma scan_port_closes_witness :
  closed (events (Full.scan_port lab Full.calm target 70000 false)) = []
  ∧ closed (events (Full.scan_port lab Full.closed_pipe target 21 true)) = [].
Proof.
  split.
  - apply (scan_port_closes lab Full.calm target 70000 false).
    right; left. by eexists.
  - apply (scan_port_closes lab Full.closed_pipe target 21 true).
    right; right. split; [done|]. intros line. by eexists.
Defined.

(* --------------------------------------------------------------------- *)
(* Executions when calls can end with an exception                       *)
(* --------------------------------------------------------------------- *)

(* The model of the executions above is the one with threader for the
   call. *)
Lemma full_step_threader (env : environment) (ip : text) (t : thread)
    (s : state) :
  Full.step (threader env ip) t s = step env ip t s.
Proof. by destruct t. Qed.

Lemma full_threader_calm (env : environment) (ip : text) (p : Z) :
  Full.threader env (λ _ _, Full.calm) ip p = threader env ip p.
Proof. reflexivity. Qed.

(* So the executions above are the executions on a calm system. *)
Lemma full_reachable_calm (env : environment) (ip : text)
    (min_port max_port : Z) (s : state) :
  Full.reachable (Full.threader env (λ _ _, Full.calm) ip) ip
    min_port max_port s
  ↔ reachable env ip min_port max_port s.
Proof.
  unfold Full.reachable, reachable. split; revert s; apply rtc_ind_r;
    try apply rtc_refl; intros s1 s2 _ [t Ht] IH;
    (eapply rtc_r; [exact IH|]); exists t.
  - by rewrite <- full_step_threader.
  - by rewrite <- full_step_threader in Ht.
Qed.

Lemma held_insert_dead ws i p todo r :
  ws !! i = Some (Scanning p todo r) →
  held (<[i := Dead p]> ws) = held ws.
Proof.
  intros Hw. by rewrite (held_take_drop _ _ _ Hw), (held_lookup _ _ _ Hw).
Qed.

Lemma held_elem ws i w p :
  ws !! i = Some w →
  match w with Scanning q _ _ | Dead q => q = p | Getting => False end →
  p ∈ held ws.
Proof.
  intros Hw Hp. rewrite (held_lookup _ _ _ Hw).
  apply elem_of_app. right. apply elem_of_app. left.
  destruct w; simpl in *; subst; try done; by left.
Qed.

Lemma held_worker ws :
  held ws ≠ [] →
  ∃ i w, ws !! i = Some w ∧ w ≠ Getting.
Proof.
  induction ws as [|w ws IH]; [done|]. intros Hne.
  destruct (decide (held ws = [])) as [Hnil|Hws].
  - exists 0%nat, w. split; [done|]. intros ->. by apply Hne.
  - destruct (IH Hws) as (i & w' & Hi & Hw'). by exists (S i), w'.
Qed.

Lemma weight_insert (f : worker_state → nat) ws i w w' :
  ws !! i = Some w →
  (sum_list_with f (<[i := w']> ws) + f w = sum_list_with f ws + f w')%nat.
Proof.
  revert i. induction ws as [|w0 ws IH]; intros [|i] Hw; simplify_eq/=.
  - lia.
  - specialize (IH i Hw). lia.
Qed.

Section pool.
Context (call : Z → M unit) (ip : text) (min_port max_port : Z).
Hypothesis call_events : ∀ p e, e ∈ events (call p) → ¬ queue_event e.

Local Abbreviation program := (events (threaded_port_scan ip min_port max_port)).

(* What a step can be. *)
Lemma full_step_inv t s s' :
  Full.step call t s = Some s' →
  (∃ e rest,
      t = Main ∧ main s = e :: rest ∧ main s' = rest
      ∧ trace s' = trace s ++ [(Main, e)]
      ∧ workers s'
        = workers s ++ match e with ThreadStart => [Getting] | _ => [] end
      ∧ queue s'
        = queue s ++ match e with QueuePut p => [p] | _ => [] end
      ∧ unfinished_tasks s'
        = unfinished_tasks s + match e with QueuePut _ => 1 | _ => 0 end
      ∧ (e = QueueJoin → unfinished_tasks s = 0))
  ∨ (∃ i p rest,
      t = Worker i ∧ workers s !! i = Some Getting ∧ queue s = p :: rest
      ∧ main s' = main s
      ∧ workers s' = <[i := Scanning p (events (call p)) (outcome (call p))]>
                       (workers s)
      ∧ queue s' = rest ∧ unfinished_tasks s' = unfinished_tasks s
      ∧ trace s' = trace s ++ [(Worker i, QueueGet p)])
  ∨ (∃ i p e todo r,
      t = Worker i ∧ workers s !! i = Some (Scanning p (e :: todo) r)
      ∧ main s' = main s
      ∧ workers s' = <[i := Scanning p todo r]> (workers s)
      ∧ queue s' = queue s ∧ unfinished_tasks s' = unfinished_tasks s
      ∧ trace s' = trace s ++ [(Worker i, e)])
  ∨ (∃ i p,
      t = Worker i ∧ workers s !! i = Some (Scanning p [] (Ok tt))
      ∧ 0 < unfinished_tasks s
      ∧ main s' = main s ∧ workers s' = <[i := Getting]> (workers s)
      ∧ queue s' = queue s
      ∧ unfinished_tasks s' = unfinished_tasks s - 1
      ∧ trace s' = trace s ++ [(Worker i, QueueTaskDone p)])
  ∨ (∃ i p r,
      t = Worker i ∧ workers s !! i = Some (Scanning p [] r)
      ∧ (unfinished_tasks s ≤ 0 ∨ ∃ x, r = Raise x)
      ∧ main s' = main s ∧ workers s' = <[i := Dead p]> (workers s)
      ∧ queue s' = queue s ∧ unfinished_tasks s' = unfinished_tasks s
      ∧ trace s' = trace s).
Proof.
  intros H. destruct t as [|i]; simpl in H.
  - left. unfold step_main in H.
    destruct (main s) as [|e rest] eqn:Hm; [done|]. exists e, rest.
    destruct e;
      try (injection H as <-; simpl;
           by rewrite ?app_nil_r, ?Z.add_0_r).
    destruct (Z.eqb_spec (unfinished_tasks s) 0); [|done].
    injection H as <-; simpl. by rewrite ?app_nil_r, ?Z.add_0_r.
  - right. unfold Full.step_worker in H.
    destruct (workers s !! i) as [[|p [|e todo] [[]|x]|p]|] eqn:Hw;
      try done.
    + left. destruct (queue s) as [|p rest] eqn:Hq; [done|].
      injection H as <-. exists i, p, rest. by simpl.
    + right; right. destruct (Z.leb_spec (unfinished_tasks s) 0).
      * right. injection H as <-. exists i, p, (Ok tt). simpl.
        split_and!; auto.
      * left. injection H as <-. exists i, p. by simpl.
    + right; right; right. injection H as <-.
      exists i, p, (Raise x). simpl. split_and!; eauto.
    + right; left. injection H as <-. exists i, p, e, todo, (Ok tt).
      by simpl.
    + right; left. injection H as <-. exists i, p, e, todo, (Raise x).
      by simpl.
Qed.

Lemma full_invariant_init :
  Full.invariant call ip min_port max_port (init ip min_port max_port).
Proof.
  split; simpl; try done.
  intros t p Hp. by apply elem_of_nil in Hp.
Qed.

Lemma full_worker_ok_mono tr k i w :
  Full.worker_ok call tr i w → Full.worker_ok call (tr ++ k) i w.
Proof.
  destruct w as [|p todo r|p]; simpl; [done| |].
  - intros (-> & done & Hd & Hsub). split; [done|]. exists done.
    split; [done|]. by apply sublist_inserts_r.
  - intros [Hx Hsub]. split; [done|]. by apply sublist_inserts_r.
Qed.

Lemma full_invariant_main_step s s' :
  Full.invariant call ip min_port max_port s →
  Full.step call Main s = Some s' →
  Full.invariant call ip min_port max_port s'.
Proof.
  intros I Hstep.
  destruct (full_step_inv _ _ _ Hstep)
    as [(e & rest & _ & Hm & Hm' & Htr & Hw & Hq & Hu & Hj)
       |[(? & ? & ? & ? & _)|[(? & ? & ? & ? & ? & ? & _)
       |[(? & ? & ? & _)|(? & ? & ? & ? & _)]]]]; try done.
  pose proof (Full.inv_main _ _ _ _ _ I) as Hprog. rewrite Hm in Hprog.
  assert (Hin : e ∈ program).
  { rewrite <- Hprog. apply elem_of_app. right. by left. }
  assert (Hret : rest = [] → e = QueueJoin).
  { intros ->. pose proof (program_last ip min_port max_port) as Hl.
    rewrite <- Hprog, last_snoc in Hl. by injection Hl. }
  apply program_events in Hin.
  destruct I as [Imain Ienq Ist Ipool Ififo Iheld Icount Iworker Idone Iret].
  split; rewrite ?Hm', ?Htr, ?Hw, ?Hq, ?Hu, ?enqueued_snoc, ?dequeued_snoc,
    ?completed_snoc, ?started_snoc, ?by_thread_snoc, ?puts_app, ?starts_app,
    ?held_app, ?length_app; simpl.
  - by rewrite <- app_assoc.
  - rewrite Ienq. f_equal. by destruct e.
  - rewrite Ist. by destruct e.
  - rewrite Ipool. by destruct e.
  - rewrite Ififo.
    destruct Hin as [-> | [-> | [[p ->] | ->]]]; simpl;
      by rewrite ?app_nil_r, ?app_assoc.
  - destruct Hin as [-> | [-> | [[p ->] | ->]]]; simpl;
      by rewrite ?app_nil_r.
  - rewrite Icount.
    destruct Hin as [-> | [-> | [[p ->] | ->]]]; simpl; lia.
  - intros i w [Hi|[_ Hi]]%lookup_app_Some.
    + by apply full_worker_ok_mono, Iworker.
    + destruct e; try (by destruct (length (workers s) - i)%nat in Hi).
      apply list_elem_of_lookup_2, list_elem_of_singleton in Hi.
      by subst w.
  - intros t p [Hp|Hp]%elem_of_app; [by eapply Idone|].
    apply list_elem_of_singleton in Hp. injection Hp as _ <-.
    by destruct Hin as [? | [? | [[? ?] | ?]]].
  - intros ->. specialize (Hret eq_refl) as ->.
    rewrite Hj by done. lia.
Qed.

Lemma full_invariant_worker_step i s s' :
  Full.invariant call ip min_port max_port s →
  Full.step call (Worker i) s = Some s' →
  Full.invariant call ip min_port max_port s'.
Proof.
  intros I Hstep.
  destruct I as [Imain Ienq Ist Ipool Ififo Iheld Icount Iworker Idone Iret].
  destruct (full_step_inv _ _ _ Hstep)
    as [(? & ? & ? & _)
       |[(i' & p & rest & Ht & Hwi & Hqs & Hm & Hw & Hq & Hu & Htr)
       |[(i' & p & e & todo & r & Ht & Hwi & Hm & Hw & Hq & Hu & Htr)
       |[(i' & p & Ht & Hwi & Hpos & Hm & Hw & Hq & Hu & Htr)
        |(i' & p & r & Ht & Hwi & Hbad & Hm & Hw & Hq & Hu & Htr)]]]];
    try done; injection Ht as <-.
  - (* get *)
    split; rewrite ?Hm, ?Htr, ?Hw, ?Hq, ?Hu, ?enqueued_snoc, ?dequeued_snoc,
      ?completed_snoc, ?started_snoc, ?by_thread_snoc, ?length_insert;
      simpl; rewrite ?app_nil_r, ?Nat.add_0_r; try done.
    + by rewrite Ififo, Hqs, <- app_assoc.
    + rewrite (held_insert_get _ _ _ _ _ Hwi), Iheld,
        <- Permutation_cons_append.
      apply Permutation_middle.
    + rewrite (held_insert_get _ _ _ _ _ Hwi), Icount, Hqs. simpl. lia.
    + intros j w Hj. destruct (decide (j = i)) as [->|Hne].
      * rewrite list_lookup_insert_eq in Hj by (by eapply lookup_lt_Some).
        injection Hj as <-. simpl. split; [done|].
        exists []. split; [done|]. apply sublist_nil_l.
      * rewrite list_lookup_insert_ne in Hj by done.
        by apply full_worker_ok_mono, Iworker.
    + intros t q [Hp|Hp]%elem_of_app; [by eapply Idone|].
      by apply list_elem_of_singleton in Hp.
  - (* one event of the call *)
    destruct (Iworker _ _ Hwi) as (-> & done & Hdone & Hsub).
    assert (He : ¬ queue_event e).
    { apply (call_events p). rewrite <- Hdone. apply elem_of_app. right.
      by left. }
    split; rewrite ?Hm, ?Htr, ?Hw, ?Hq, ?Hu, ?enqueued_snoc, ?dequeued_snoc,
      ?completed_snoc, ?started_snoc, ?by_thread_snoc, ?length_insert,
      ?(held_insert_same _ _ _ _ _ _ _ Hwi);
      simpl; rewrite ?app_nil_r, ?Nat.add_0_r; try done.
    + rewrite Ienq. destruct e; try done; by rewrite app_nil_r.
    + rewrite Ist. destruct e; try done; by rewrite Nat.add_0_r.
    + rewrite Ipool. destruct e; try done; by rewrite Nat.add_0_r.
    + rewrite Ififo. destruct e; try done; by rewrite !app_nil_r.
    + destruct e; try done; by rewrite !app_nil_r.
    + intros j w Hj. destruct (decide (j = i)) as [->|Hne].
      * rewrite list_lookup_insert_eq in Hj by (by eapply lookup_lt_Some).
        injection Hj as <-. simpl. split; [done|].
        exists (done ++ [e]). split; [by rewrite <- app_assoc|].
        rewrite fmap_app. by apply sublist_app.
      * rewrite list_lookup_insert_ne in Hj by done.
        by apply full_worker_ok_mono, Iworker.
    + intros t q [Hp|Hp]%elem_of_app; [by eapply Idone|].
      apply list_elem_of_singleton in Hp. injection Hp as _ <-.
      by destruct He.
  - (* task_done *)
    destruct (Iworker _ _ Hwi) as (Hr & done & Hdone & Hsub).
    split; rewrite ?Hm, ?Htr, ?Hw, ?Hq, ?Hu, ?enqueued_snoc, ?dequeued_snoc,
      ?completed_snoc, ?started_snoc, ?by_thread_snoc, ?length_insert;
      simpl; rewrite ?app_nil_r, ?Nat.add_0_r; try done.
    + by rewrite Iheld, (held_insert_done _ _ _ _ _ Hwi), <- app_assoc.
    + rewrite Icount.
      pose proof (held_insert_done _ _ _ _ _ Hwi) as Hperm.
      apply Permutation_length in Hperm. simpl in Hperm. lia.
    + intros j w Hj. destruct (decide (j = i)) as [->|Hne].
      * rewrite list_lookup_insert_eq in Hj by (by eapply lookup_lt_Some).
        by injection Hj as <-.
      * rewrite list_lookup_insert_ne in Hj by done.
        by apply full_worker_ok_mono, Iworker.
    + intros t q [Hp|Hp]%elem_of_app; [by eapply Idone|].
      apply list_elem_of_singleton in Hp. by injection Hp as _ ->.
    + intros Hret. specialize (Iret Hret). lia.
  - (* the thread ends: its call raised *)
    destruct (Iworker _ _ Hwi) as (Hr & done & Hdone & Hsub).
    rewrite app_nil_r in Hdone. subst done.
    destruct Hbad as [Hz|[x Hx]].
    { pose proof (held_scanning _ _ _ _ _ Hwi). lia. }
    split; rewrite ?Hm, ?Htr, ?Hw, ?Hq, ?Hu, ?length_insert,
      ?(held_insert_dead _ _ _ _ _ Hwi); try done.
    intros j w Hj. destruct (decide (j = i)) as [->|Hne].
    + rewrite list_lookup_insert_eq in Hj by (by eapply lookup_lt_Some).
      injection Hj as <-. simpl. split; [|done]. exists x. congruence.
    + rewrite list_lookup_insert_ne in Hj by done. by apply Iworker.
Qed.

Lemma full_reachable_invariant s :
  Full.reachable call ip min_port max_port s →
  Full.invariant call ip min_port max_port s.
Proof.
  revert s. apply rtc_ind_r.
  - apply full_invariant_init.
  - intros s s' _ [[|i] Ht] I.
    + by eapply full_invariant_main_step.
    + by eapply full_invariant_worker_step.
Qed.


Lemma full_run_steps schedule s s' :
  Full.run call schedule s = Some s' → rtc (Full.steps call) s s'.
Proof.
  revert s. induction schedule as [|t schedule IH]; intros s; simpl.
  - by intros [= ->].
  - destruct (Full.step call t s) as [s1|] eqn:Ht; [|done].
    intros Hrun. eapply rtc_l; [by exists t | by apply IH].
Qed.

Lemma full_run_reachable schedule s :
  Full.run call schedule (init ip min_port max_port) = Some s →
  Full.reachable call ip min_port max_port s.
Proof. apply full_run_steps. Qed.

Lemma full_main_progress s :
  Full.reachable call ip min_port max_port s →
  by_thread Main (trace s) ++ main s
  = ([Print (banner ip min_port max_port)]
       ++ replicate (pool_size min_port max_port) ThreadStart)
      ++ ((QueuePut <$> ports min_port max_port) ++ [QueueJoin]).
Proof.
  intros I%full_reachable_invariant.
  rewrite (Full.inv_main _ _ _ _ _ I), threaded_port_scan_unfold.
  unfold events. cbn [fst]. by rewrite <- !app_assoc.
Qed.

Lemma full_enqueued_prefix s :
  Full.reachable call ip min_port max_port s →
  enqueued (trace s) ++ puts (main s) = ports min_port max_port.
Proof.
  intros Hs. pose proof (full_reachable_invariant _ Hs) as I.
  rewrite (Full.inv_enqueued _ _ _ _ _ I), <- puts_app,
    (full_main_progress _ Hs), !puts_app, puts_replicate_start,
    puts_fmap_put.
  simpl. by rewrite app_nil_r.
Qed.

(* The pool is complete before the first put. *)
Lemma full_pool_complete s :
  Full.reachable call ip min_port max_port s →
  enqueued (trace s) ≠ [] →
  length (workers s) = pool_size min_port max_port
  ∧ pool_size min_port max_port ≠ 0%nat.
Proof.
  intros Hs Hne. pose proof (full_reachable_invariant _ Hs) as I.
  split.
  - rewrite (Full.inv_pool _ _ _ _ _ I), (Full.inv_started _ _ _ _ _ I).
    rewrite (Full.inv_enqueued _ _ _ _ _ I) in Hne.
    pose proof (full_main_progress _ Hs) as Hprog.
    apply app_eq_inv in Hprog as [(k & Hd & Hk)|(k & Hd & Hk)].
    + assert (starts k = 0%nat) as Hz.
      { apply (f_equal starts) in Hk.
        rewrite !starts_app, starts_fmap_put in Hk.
        change (starts [QueueJoin]) with 0%nat in Hk. lia. }
      rewrite Hd, !starts_app, starts_replicate_start, Hz.
      change (starts [Print _]) with 0%nat. lia.
    + apply (f_equal puts) in Hd.
      rewrite !puts_app, puts_replicate_start in Hd.
      change (puts [Print _]) with (@nil Z) in Hd. simpl in Hd.
      symmetry in Hd. by apply app_eq_nil in Hd as [? _].
  - pose proof (full_enqueued_prefix _ Hs) as Hp.
    unfold pool_size. intros Hzero. unfold ports in Hp.
    rewrite (seqZ_nil min_port) in Hp by lia.
    by apply app_eq_nil in Hp as [? _].
Qed.

(* A port that was taken is a port of the range, and taken once. *)
Lemma full_taken s p :
  Full.reachable call ip min_port max_port s →
  p ∈ completed (trace s) ++ held (workers s) →
  min_port ≤ p ≤ max_port.
Proof.
  intros Hs Hp. pose proof (full_reachable_invariant _ Hs) as I.
  rewrite <- (Full.inv_held _ _ _ _ _ I) in Hp. apply ports_elem.
  rewrite <- (full_enqueued_prefix _ Hs), (Full.inv_fifo _ _ _ _ _ I).
  apply elem_of_app. left. apply elem_of_app. by left.
Qed.

Lemma full_taken_NoDup s :
  Full.reachable call ip min_port max_port s →
  NoDup (completed (trace s) ++ held (workers s)).
Proof.
  intros Hs. pose proof (full_reachable_invariant _ Hs) as I.
  rewrite <- (Full.inv_held _ _ _ _ _ I).
  assert (NoDup (ports min_port max_port)) as Hnd by apply NoDup_seqZ.
  rewrite <- (full_enqueued_prefix _ Hs), (Full.inv_fifo _ _ _ _ _ I) in Hnd.
  apply NoDup_app in Hnd as [Hnd _]. by apply NoDup_app in Hnd as [Hnd _].
Qed.

(* At the return every port of the range is done and nothing moves. *)
Lemma full_returned_idle s :
  Full.reachable call ip min_port max_port s → returned s →
  queue s = [] ∧ held (workers s) = []
  ∧ completed (trace s) ≡ₚ ports min_port max_port
  ∧ Full.stuck call s.
Proof.
  intros Hs Hret. pose proof (full_reachable_invariant _ Hs) as I.
  pose proof (Full.inv_returned _ _ _ _ _ I Hret) as Hz.
  rewrite (Full.inv_count _ _ _ _ _ I) in Hz.
  assert (queue s = [] ∧ held (workers s) = []) as [Hq Hh].
  { split; apply length_zero_iff_nil; lia. }
  split_and!; [done|done| |].
  - rewrite <- (full_enqueued_prefix _ Hs), Hret,
      (Full.inv_fifo _ _ _ _ _ I), Hq.
    unfold puts. simpl. rewrite !app_nil_r.
    by rewrite (Full.inv_held _ _ _ _ _ I), Hh, app_nil_r.
  - intros [|i]; simpl.
    + unfold step_main. by rewrite Hret.
    + unfold Full.step_worker.
      destruct (workers s !! i) as [w|] eqn:Hw; [|done].
      rewrite (held_nil_getting _ _ _ Hh Hw). by rewrite Hq.
Qed.

(* A dead worker stays dead. *)
Lemma full_dead_step t s s' i p :
  Full.step call t s = Some s' →
  workers s !! i = Some (Dead p) → workers s' !! i = Some (Dead p).
Proof.
  intros Ht Hd.
  destruct (full_step_inv _ _ _ Ht)
    as [(e & rest & _ & _ & _ & _ & Hw & _)
       |[(j & q & rest & _ & Hwj & _ & _ & Hw & _)
       |[(j & q & e & todo & r & _ & Hwj & _ & Hw & _)
       |[(j & q & _ & Hwj & _ & _ & Hw & _)
        |(j & q & r & _ & Hwj & _ & _ & Hw & _)]]]]; rewrite Hw.
  - by apply lookup_app_l_Some.
  - rewrite list_lookup_insert_ne; [done|]. intros ->. congruence.
  - rewrite list_lookup_insert_ne; [done|]. intros ->. congruence.
  - rewrite list_lookup_insert_ne; [done|]. intros ->. congruence.
  - rewrite list_lookup_insert_ne; [done|]. intros ->. congruence.
Qed.

Lemma full_dead_steps s s' i p :
  rtc (Full.steps call) s s' →
  workers s !! i = Some (Dead p) → workers s' !! i = Some (Dead p).
Proof.
  induction 1 as [|s s1 s' [t Ht] _ IH]; [done|].
  intros Hd. apply IH. by eapply full_dead_step.
Qed.

(* Before the return some thread can move, unless a worker is dead. *)
Lemma full_moves_or_dead s :
  Full.reachable call ip min_port max_port s →
  ¬ returned s →
  (∃ t s', Full.step call t s = Some s')
  ∨ (∃ i p, workers s !! i = Some (Dead p)).
Proof.
  intros Hs Hnot. pose proof (full_reachable_invariant _ Hs) as I.
  unfold returned in Hnot. destruct (main s) as [|e rest] eqn:Hm; [done|].
  destruct (decide (unfinished_tasks s = 0)) as [Hz|Hu].
  - left. exists Main. simpl. unfold step_main. rewrite Hm, Hz.
    destruct e; eauto.
  - destruct (decide (held (workers s) = [])) as [Hh|Hh].
    + left.
      assert (queue s ≠ []) as Hq.
      { intros Hq. rewrite (Full.inv_count _ _ _ _ _ I), Hq, Hh in Hu. done. }
      assert (enqueued (trace s) ≠ []) as Henq.
      { rewrite (Full.inv_fifo _ _ _ _ _ I). intros [_ ?]%app_eq_nil. done. }
      destruct (full_pool_complete _ Hs Henq) as [Hlen Hpool].
      destruct (workers s !! 0%nat) as [w|] eqn:Hw.
      * exists (Worker 0). simpl. unfold Full.step_worker.
        rewrite Hw, (held_nil_getting _ _ _ Hh Hw).
        destruct (queue s); [done|]. eauto.
      * apply lookup_ge_None in Hw. lia.
    + destruct (held_worker _ Hh) as (i & w & Hw & Hne).
      destruct w as [|p [|e' todo] r|p]; [done| | |right; eauto]; left;
        exists (Worker i); simpl; unfold Full.step_worker; rewrite Hw.
      * destruct r as [[]|x]; [|eauto].
        destruct (Z.leb_spec (unfinished_tasks s) 0); eauto.
      * eauto.
Qed.

(* A worker is dead only of a call that raised, for a port of the range
   that is never marked done. *)
Lemma full_dead_cause s i p :
  Full.reachable call ip min_port max_port s →
  workers s !! i = Some (Dead p) →
  min_port ≤ p ≤ max_port
  ∧ (∃ x, outcome (call p) = Raise x)
  ∧ ((λ e, (Worker i, e)) <$> events (call p)) `sublist_of` trace s
  ∧ (∀ t, (t, QueueTaskDone p) ∉ trace s)
  ∧ ¬ returned s.
Proof.
  intros Hs Hd. pose proof (full_reachable_invariant _ Hs) as I.
  destruct (Full.inv_worker _ _ _ _ _ I _ _ Hd) as [[x Hx] Hsub].
  assert (p ∈ held (workers s)) as Hp by (by eapply held_elem).
  split; [|split; [by exists x|split; [done|split]]].
  - apply (full_taken s); [done|]. apply elem_of_app. by right.
  - intros t Ht. rewrite (Full.inv_done _ _ _ _ _ I _ _ Ht) in Hx. done.
  - intros Hret. destruct (full_returned_idle _ Hs Hret) as (_ & Hh & _).
    rewrite Hh in Hp. by apply elem_of_nil in Hp.
Qed.

(* No worker dies where no call raises. *)
Lemma full_no_dead s :
  (∀ p, min_port ≤ p ≤ max_port → outcome (call p) = Ok tt) →
  Full.reachable call ip min_port max_port s →
  dead (workers s) = [].
Proof.
  intros Hok Hs. unfold dead. apply omap_none. intros w Hw.
  apply list_elem_of_lookup in Hw as [i Hw].
  destruct w as [| |p]; try done.
  destruct (full_dead_cause _ _ _ Hs Hw) as (Hp & [x Hx] & _).
  rewrite (Hok p Hp) in Hx. done.
Qed.

(* Where a call raises, the scan does not return. *)
Lemma full_never_returns s p x :
  min_port ≤ p ≤ max_port → outcome (call p) = Raise x →
  Full.reachable call ip min_port max_port s →
  ¬ returned s.
Proof.
  intros Hp Hx Hs Hret. pose proof (full_reachable_invariant _ Hs) as I.
  destruct (full_returned_idle _ Hs Hret) as (_ & _ & Hall & _).
  apply ports_elem in Hp. rewrite <- Hall in Hp.
  apply list_elem_of_omap in Hp as ([t e] & Hin & He).
  simpl in He. destruct e; simplify_eq.
  rewrite (Full.inv_done _ _ _ _ _ I _ _ Hin) in Hx. done.
Qed.

(* Each step uses up one unit of work. *)
Lemma full_work_step t s s' :
  Full.step call t s = Some s' →
  Full.work call s = S (Full.work call s').
Proof.
  intros Ht. unfold Full.work.
  set (wt := λ w, match w with
                  | Scanning _ todo _ => S (length todo)
                  | _ => 0%nat
                  end).
  destruct (full_step_inv _ _ _ Ht)
    as [(e & rest & _ & Hm & Hm' & _ & Hw & Hq & _)
       |[(i & p & rest & _ & Hwi & Hqs & Hm' & Hw & Hq & _)
       |[(i & p & e & todo & r & _ & Hwi & Hm' & Hw & Hq & _)
       |[(i & p & _ & Hwi & _ & Hm' & Hw & Hq & _)
        |(i & p & r & _ & Hwi & _ & Hm' & Hw & Hq & _)]]]].
  - rewrite Hm, Hm', Hw, Hq, !sum_list_with_app. destruct e; simpl; lia.
  - pose proof (weight_insert wt _ _ _
                  (Scanning p (events (call p)) (outcome (call p))) Hwi)
      as Hwt.
    rewrite Hm', Hw, Hq, Hqs. unfold Full.cost. simpl in *. lia.
  - pose proof (weight_insert wt _ _ _ (Scanning p todo r) Hwi) as Hwt.
    rewrite Hm', Hw, Hq. simpl in *. lia.
  - pose proof (weight_insert wt _ _ _ Getting Hwi) as Hwt.
    rewrite Hm', Hw, Hq. simpl in *. lia.
  - pose proof (weight_insert wt _ _ _ (Dead p) Hwi) as Hwt.
    rewrite Hm', Hw, Hq. simpl in *. lia.
Qed.

Lemma full_work_run schedule s s' :
  Full.run call schedule s = Some s' →
  (length schedule + Full.work call s' = Full.work call s)%nat.
Proof.
  revert s. induction schedule as [|t schedule IH]; intros s; simpl.
  - by intros [= ->].
  - destruct (Full.step call t s) as [s1|] eqn:Ht; [|done]. intros Hrun.
    rewrite (full_work_step _ _ _ Ht), <- (IH s1 Hrun). lia.
Qed.

Lemma full_work_init :
  Full.work call (init ip min_port max_port)
  = (2 + pool_size min_port max_port
     + sum_list_with (λ p, 3 + length (events (call p)))
         (ports min_port max_port))%nat.
Proof.
  unfold Full.work, init. cbn [main queue workers].
  rewrite threaded_port_scan_unfold. unfold events at 1. cbn [fst].
  rewrite !sum_list_with_app. simpl.
  assert (sum_list_with
            (λ e, match e with
                  | QueuePut p => S (Full.cost call p)
                  | _ => 1%nat
                  end)
            (replicate (pool_size min_port max_port) ThreadStart)
          = pool_size min_port max_port) as ->.
  { induction (pool_size min_port max_port); [done|]. simpl. by f_equal. }
  assert (sum_list_with
            (λ e, match e with
                  | QueuePut p => S (Full.cost call p)
                  | _ => 1%nat
                  end)
            (QueuePut <$> ports min_port max_port)
          = sum_list_with (λ p, 3 + length (events (call p)))%nat
              (ports min_port max_port)) as ->.
  { induction (ports min_port max_port) as [|p ps IH]; [done|].
    unfold Full.cost in *. simpl. do 4 f_equal. exact IH. }
  simpl. lia.
Qed.

Lemma full_work_returned s :
  Full.reachable call ip min_port max_port s →
  Full.work call s = 0%nat ↔ returned s.
Proof.
  intros Hs. unfold returned, Full.work. split.
  - destruct (main s) as [|e rest]; [done|]. simpl. destruct e; lia.
  - intros Hret.
    destruct (full_returned_idle _ Hs Hret) as (-> & Hh & _).
    rewrite Hret. simpl.
    assert (Forall (λ w, w = Getting) (workers s)) as Hall.
    { apply Forall_forall. intros w Hw.
      apply list_elem_of_lookup in Hw as [i Hw].
      by apply (held_nil_getting _ _ _ Hh Hw). }
    revert Hall. generalize (workers s). clear.
    intros ws Hall. induction Hall as [|w ws -> _ IH]; [done|]. exact IH.
Qed.

End pool.

Section pool_accounting.
Context (call : Z → M unit) (ip : text) (min_port max_port : Z).
Hypothesis call_events : ∀ p e, e ∈ events (call p) → ¬ queue_event e.
Context {X : Type} (sel : event → option X).
Hypothesis sel_get : ∀ p, sel (QueueGet p) = None.
Hypothesis sel_done : ∀ p, sel (QueueTaskDone p) = None.

Local Abbreviation share := (λ p, omap sel (events (call p))).

(* What the workers have done and have still to do in their calls is what
   the calls for the ports taken so far do, also when workers die. *)
Lemma full_accounting s :
  Full.reachable call ip min_port max_port s →
  omap sel (by_workers (trace s)) ++ omap sel (pending (workers s))
  ≡ₚ mjoin (share <$> (completed (trace s) ++ held (workers s))).
Proof.
  revert s. apply rtc_ind_r; [done|].
  intros s s' Hs [t Ht] IH.
  pose proof (full_reachable_invariant call ip min_port max_port
                call_events _ Hs) as I.
  destruct (full_step_inv _ _ _ _ Ht)
    as [(e & rest & _ & Hm & _ & Htr & Hw & _)
       |[(i & p & rest & _ & Hwi & _ & _ & Hw & _ & _ & Htr)
       |[(i & p & e & todo & r & _ & Hwi & _ & Hw & _ & _ & Htr)
       |[(i & p & _ & Hwi & _ & _ & Hw & _ & _ & Htr)
        |(i & p & r & _ & Hwi & _ & _ & Hw & _ & _ & Htr)]]]].
  - assert (He : e ∈ events (threaded_port_scan ip min_port max_port)).
    { rewrite <- (Full.inv_main _ _ _ _ _ I), Hm. apply elem_of_app. right.
      by left. }
    rewrite Htr, Hw, by_workers_snoc, completed_snoc, held_app, app_nil_r.
    unfold pending. rewrite fmap_app, join_app.
    apply program_events in He as [-> | [-> | [[q ->] | ->]]]; simpl;
      by rewrite !app_nil_r.
  - destruct (workers_insert _ _ _
                (Scanning p (events (call p)) (outcome (call p))) Hwi)
      as (others & H1 & H2).
    rewrite Htr, Hw, by_workers_snoc, completed_snoc, omap_app. simpl.
    rewrite sel_get. simpl. rewrite !app_nil_r.
    rewrite H2. rewrite H1 in IH. unfold pending in *. simpl in IH |- *.
    rewrite fmap_app, join_app in IH |- *. simpl.
    rewrite omap_app, Permutation_app_swap_app.
    rewrite (Permutation_app_swap_app (mjoin _)).
    by apply Permutation_app_head.
  - destruct (workers_insert _ _ _ (Scanning p todo r) Hwi)
      as (others & H1 & H2).
    destruct (Full.inv_worker _ _ _ _ _ I _ _ Hwi) as (_ & done & Hdone & _).
    assert (He : ¬ queue_event e).
    { apply (call_events p). rewrite <- Hdone. apply elem_of_app. right.
      by left. }
    rewrite Htr, Hw, by_workers_snoc, completed_snoc, omap_app.
    rewrite H2. rewrite H1 in IH. unfold pending in *. simpl in IH |- *.
    replace (match e with QueueTaskDone q => [q] | _ => [] end)
      with (@nil Z) by (by destruct e).
    rewrite app_nil_r, <- IH.
    destruct (sel e); simpl; by rewrite <- ?app_assoc.
  - destruct (workers_insert _ _ _ Getting Hwi) as (others & H1 & H2).
    rewrite Htr, Hw, by_workers_snoc, completed_snoc, omap_app. simpl.
    rewrite sel_done. simpl. rewrite !app_nil_r.
    rewrite H2. rewrite H1 in IH. unfold pending in *. simpl in IH |- *.
    by rewrite <- app_assoc.
  - destruct (workers_insert _ _ _ (Dead p) Hwi) as (others & H1 & H2).
    rewrite Htr, Hw, H2. rewrite H1 in IH. exact IH.
Qed.

(* Whatever a worker did belongs to the call for a port of the range. *)
Lemma full_accounting_origin s x :
  Full.reachable call ip min_port max_port s →
  x ∈ omap sel (by_workers (trace s)) →
  ∃ p, min_port ≤ p ≤ max_port ∧ x ∈ share p.
Proof.
  intros Hs Hx.
  assert (x ∈ mjoin (share <$> (completed (trace s) ++ held (workers s))))
    as Hin.
  { rewrite <- (full_accounting s Hs). apply elem_of_app. by left. }
  apply list_elem_of_join in Hin as (l & Hxl & Hl).
  apply list_elem_of_fmap in Hl as (p & -> & Hp).
  exists p. split; [|done].
  by apply (full_taken call ip min_port max_port call_events s).
Qed.

(* At the return it is what the calls for all ports of the range do. *)
Lemma full_accounting_returned s :
  Full.reachable call ip min_port max_port s →
  returned s →
  omap sel (by_workers (trace s))
  ≡ₚ mjoin (share <$> ports min_port max_port).
Proof.
  intros Hs Hret.
  destruct (full_returned_idle call ip min_port max_port call_events
              _ Hs Hret) as (Hq & Hh & Hall & _).
  pose proof (full_accounting s Hs) as Hacc.
  assert (pending (workers s) = []) as Hp.
  { unfold pending. apply join_nil_2, Forall_fmap, Forall_forall.
    intros w Hw. apply list_elem_of_lookup in Hw as [i Hw].
    by rewrite (held_nil_getting _ _ _ Hh Hw). }
  rewrite Hp, Hh, !app_nil_r in Hacc. by rewrite Hacc, Hall.
Qed.

(* A reading that ignores what the main thread does reads the workers. *)
Lemma full_reading_workers s :
  sel (Print (banner ip min_port max_port)) = None →
  sel ThreadStart = None → (∀ p, sel (QueuePut p) = None) →
  sel QueueJoin = None →
  Full.reachable call ip min_port max_port s →
  omap sel (trace s).*2 ≡ₚ omap sel (by_workers (trace s)).
Proof.
  intros H1 H2 H3 H4 Hs. rewrite trace_split, omap_app, omap_none; [done|].
  intros e He.
  pose proof (full_reachable_invariant call ip min_port max_port
                call_events _ Hs) as I.
  assert (e ∈ events (threaded_port_scan ip min_port max_port)) as Hin.
  { rewrite <- (Full.inv_main _ _ _ _ _ I). apply elem_of_app. by left. }
  by apply program_events in Hin as [-> | [-> | [[p ->] | ->]]].
Qed.

End pool_accounting.

Section pool_runs.
Context (call : Z → M unit) (ip : text) (min_port max_port : Z).
Hypothesis call_events : ∀ p e, e ∈ events (call p) → ¬ queue_event e.

(* Some thread can move, or none can. *)
Lemma full_stuck_dec s :
  (∃ t s', Full.step call t s = Some s') ∨ Full.stuck call s.
Proof.
  destruct (step_main s) as [s'|] eqn:Hm; [left; by exists Main, s'|].
  assert (∀ n, (∃ i s', Full.step_worker call i s = Some s')
               ∨ (∀ i, (i < n)%nat → Full.step_worker call i s = None))
    as Hn.
  { induction n as [|n IH]; [right; lia|].
    destruct IH as [?|IH]; [by left|].
    destruct (Full.step_worker call n s) as [s'|] eqn:Hstep;
      [left; eauto|].
    right. intros i Hi. destruct (decide (i = n)) as [->|]; [done|].
    apply IH. lia. }
  destruct (Hn (length (workers s))) as [(i & s' & Hi)|Hnone].
  - left. by exists (Worker i), s'.
  - right. intros [|i]; [done|]. simpl.
    destruct (decide (i < length (workers s))%nat); [by apply Hnone|].
    unfold Full.step_worker. by rewrite lookup_ge_None_2 by lia.
Qed.

(* Every execution can be run on until no thread can move. *)
Lemma full_runs_out s :
  ∃ rest s', Full.run call rest s = Some s' ∧ Full.stuck call s'.
Proof.
  remember (Full.work call s) as n eqn:Hn. revert s Hn.
  induction n as [n IH] using lt_wf_ind. intros s ->.
  destruct (full_stuck_dec s) as [(t & s1 & Ht)|Hstuck].
  - destruct (IH (Full.work call s1)) with (s := s1)
      as (rest & s' & Hrun & Hstuck); [|done|].
    { rewrite (full_work_step _ _ _ _ Ht). lia. }
    exists (t :: rest), s'. simpl. by rewrite Ht.
  - by exists [], s.
Qed.

(* Where no call raises, some thread can move before the return. *)
Lemma full_progress s :
  (∀ p, min_port ≤ p ≤ max_port → outcome (call p) = Ok tt) →
  Full.reachable call ip min_port max_port s →
  ¬ returned s →
  ∃ t s', Full.step call t s = Some s'.
Proof.
  intros Hok Hs Hnot.
  destruct (full_moves_or_dead call ip min_port max_port call_events s Hs
              Hnot) as [?|(i & p & Hd)]; [done|].
  pose proof (full_no_dead call ip min_port max_port call_events s Hok Hs)
    as Hnone.
  assert (p ∈ dead (workers s)) as Hp.
  { unfold dead. apply list_elem_of_omap. exists (Dead p).
    split; [|done]. by eapply list_elem_of_lookup_2. }
  rewrite Hnone in Hp. by apply elem_of_nil in Hp.
Qed.

(* So there a state in which no thread can move is the return. *)
Lemma full_stuck_returned s :
  (∀ p, min_port ≤ p ≤ max_port → outcome (call p) = Ok tt) →
  Full.reachable call ip min_port max_port s →
  Full.stuck call s → returned s.
Proof.
  intros Hok Hs Hstuck. unfold returned.
  destruct (main s) as [|e m] eqn:Hm; [done|].
  destruct (full_progress s Hok Hs) as (t & s' & Ht).
  - unfold returned. by rewrite Hm.
  - by rewrite Hstuck in Ht.
Qed.

(* Where no call raises, every execution can be run on to the return. *)
Lemma full_completes s :
  (∀ p, min_port ≤ p ≤ max_port → outcome (call p) = Ok tt) →
  Full.reachable call ip min_port max_port s →
  ∃ rest s', Full.run call rest s = Some s' ∧ returned s'.
Proof.
  intros Hok Hs. destruct (full_runs_out s) as (rest & s' & Hrun & Hstuck).
  exists rest, s'. split; [done|].
  apply full_stuck_returned; [done| |done].
  eapply rtc_trans; [exact Hs|by eapply full_run_steps].
Qed.

(* Where a call raises, every execution can be run on until it hangs:
   no thread can move, threaded_port_scan has not returned. *)
Lemma full_hangs s p x :
  min_port ≤ p ≤ max_port → outcome (call p) = Raise x →
  Full.reachable call ip min_port max_port s →
  ∃ rest s', Full.run call rest s = Some s' ∧ Full.stuck call s'
             ∧ ¬ returned s'
             ∧ ∃ i q, workers s' !! i = Some (Dead q).
Proof.
  intros Hp Hx Hs. destruct (full_runs_out s) as (rest & s' & Hrun & Hstuck).
  exists rest, s'.
  assert (Hs' : Full.reachable call ip min_port max_port s').
  { eapply rtc_trans; [exact Hs|by eapply full_run_steps]. }
  pose proof (full_never_returns call ip min_port max_port call_events
                s' p x Hp Hx Hs') as Hnot.
  split_and!; [done|done|done|].
  destruct (full_moves_or_dead call ip min_port max_port call_events s' Hs'
              Hnot) as [(t & s2 & Ht)|Hd]; [|done].
  by rewrite Hstuck in Ht.
Qed.

End pool_runs.

(* --------------------------------------------------------------------- *)
(* Scans on a system whose calls can fail                                *)
(* --------------------------------------------------------------------- *)

Ltac in_list He :=
  repeat first
    [ apply elem_of_nil in He; destruct He
    | apply elem_of_cons in He as [->|He]; [simpl; auto|]
    | apply elem_of_app in He as [He|He] ].

(* A call of scan_port marks its entry with its own arguments; the rest is
   console and socket traffic. *)
Lemma full_scan_port_events env fx ip port verbose e :
  e ∈ events (Full.scan_port env fx ip port verbose) →
  e = ScanPortCall ip port verbose ∨ scan_io e.
Proof.
  intros He.
  full_paths env fx ip port verbose; rewrite Heq in He; unfold events in He;
    cbn [fst] in He; in_list He;
    destruct (Hio _ He) as [[? ->]|[? ->]]; simpl; auto.
Qed.

Lemma full_threader_events env os ip p e :
  e ∈ events (Full.threader env os ip p) → ¬ queue_event e.
Proof.
  intros [->|He]%full_scan_port_events; [simpl; tauto|].
  destruct e; simpl in *; tauto.
Qed.

(* The connection attempt of a call. *)
Lemma full_threader_connections env os ip p :
  connections (events (Full.threader env os ip p))
  = if Full.connects os ip p then [(ip, p)] else [].
Proof.
  unfold Full.threader, Full.connects.
  full_paths env (os ip p) ip p (p <=? 100); rewrite Heq; unfold events;
    cbn [fst]; unfold connections; cbn -[error_line open_line];
    rewrite ?omap_app; fold (connections probing); by rewrite ?Hco.
Qed.

(* A call lets an exception out only from the print of its except
   clause. *)
Lemma full_scan_port_raises env fx ip port verbose x :
  outcome (Full.scan_port env fx ip port verbose) = Raise x →
  ∃ e, Print (error_line port e) ∈ events (Full.scan_port env fx ip port verbose)
       ∧ Full.print_result fx (error_line port e) = Raise x.
Proof.
  full_paths env fx ip port verbose; rewrite Heq; unfold events, outcome;
    cbn [fst snd]; intros [= <-];
    (eexists; split; [|eassumption]);
    rewrite ?elem_of_cons, ?elem_of_app, ?elem_of_cons; tauto.
Qed.

Lemma full_scan_port_returns env fx ip port verbose :
  (∀ e, Full.print_result fx (error_line port e) = Ok tt) →
  outcome (Full.scan_port env fx ip port verbose) = Ok tt.
Proof.
  intros Hok.
  full_paths env fx ip port verbose; rewrite Heq; try done;
    by rewrite Hok in Herr.
Qed.

Lemma join_flags {A B} (c : A → bool) (f : A → B) (l : list A) :
  mjoin ((λ x, if c x then [f x] else []) <$> l)
  = f <$> filter (λ x, c x = true) l.
Proof.
  induction l as [|x l IH]; [done|]. simpl.
  rewrite filter_cons. case_decide as Hc; rewrite ?Hc; simpl.
  - by f_equal.
  - by destruct (c x).
Qed.

Lemma full_threader_returns env os ip min_port max_port :
  (∀ p e, min_port ≤ p ≤ max_port →
          Full.print_result (os ip p) (error_line p e) = Ok tt) →
  ∀ p, min_port ≤ p ≤ max_port → outcome (Full.threader env os ip p) = Ok tt.
Proof.
  intros Hok p Hp. apply full_scan_port_returns. intros e. by apply Hok.
Qed.

(** X6: a scan connects only to the address it was given and only to ports
    of its range, to no port twice, and to a port only when socket() and
    settimeout(1) returned in the call for it; when it returns it has made
    exactly one connection attempt for every port of the range for which
    they did, and none for the others. *)
Theorem scan_connections
    (env : environment) (os : text → Z → Full.effects) (ip : text)
    (min_port max_port : Z) (s : state) :
  Full.reachable (Full.threader env os ip) ip min_port max_port s →
  (∀ ip' p, (ip', p) ∈ connections (trace s).*2 →
            ip' = ip ∧ min_port ≤ p ≤ max_port
            ∧ Full.connects os ip p = true)
  ∧ NoDup (connections (trace s).*2)
  ∧ (returned s →
     connections (trace s).*2
     ≡ₚ (λ p, (ip, p))
          <$> filter (λ p, Full.connects os ip p = true)
                (ports min_port max_port)).
Proof.
  intros Hs.
  set (call := Full.threader env os ip) in *.
  assert (Hev : ∀ p e, e ∈ events (call p) → ¬ queue_event e)
    by apply full_threader_events.
  set (sel := λ e, match e with ConnectEx a p => Some (a, p) | _ => None end).
  assert (Hshare : ∀ p, omap sel (events (call p))
                        = if Full.connects os ip p then [(ip, p)] else [])
    by apply full_threader_connections.
  assert (Hw : connections (trace s).*2 ≡ₚ omap sel (by_workers (trace s))).
  { by apply (full_reading_workers call ip min_port max_port Hev sel). }
  assert (Inj (=) (=) (λ p : Z, (ip, p))) by (by intros ?? [= ->]).
  split_and!.
  - intros ip' p Hin. rewrite Hw in Hin.
    destruct (full_accounting_origin call ip min_port max_port Hev sel
                (λ _, eq_refl) (λ _, eq_refl) s _ Hs Hin) as (q & Hq & Hx).
    rewrite Hshare in Hx.
    destruct (Full.connects os ip q) eqn:Hc; [|by apply elem_of_nil in Hx].
    apply list_elem_of_singleton in Hx. by injection Hx as -> ->.
  - rewrite Hw.
    pose proof (full_accounting call ip min_port max_port Hev sel
                  (λ _, eq_refl) (λ _, eq_refl) s Hs) as Hacc.
    assert (NoDup (mjoin ((λ p, omap sel (events (call p)))
                            <$> (completed (trace s) ++ held (workers s)))))
      as Hnd.
    { rewrite (list_fmap_ext _ (λ p, if Full.connects os ip p
                                     then [(ip, p)] else [])
                 _ (λ _ p _, Hshare p)).
      rewrite (join_flags (Full.connects os ip) (λ p, (ip, p))).
      apply (NoDup_fmap_2 (λ p : Z, (ip, p))), NoDup_filter.
      by apply (full_taken_NoDup call ip min_port max_port). }
    rewrite <- Hacc in Hnd. by apply NoDup_app in Hnd as [? _].
  - intros Hret. rewrite Hw.
    rewrite (full_accounting_returned call ip min_port max_port Hev sel
               (λ _, eq_refl) (λ _, eq_refl) s Hs Hret).
    rewrite (list_fmap_ext _ (λ p, if Full.connects os ip p
                                   then [(ip, p)] else [])
               _ (λ _ p _, Hshare p)).
    by rewrite (join_flags (Full.connects os ip) (λ p, (ip, p))).
Qed.

Lemma scan_connections_witness :
  ∃ s, Full.run (Full.threader lab Full.starved target) starved_schedule
         (init target 21 22) = Some s
       ∧ connections (trace s).*2 ≡ₚ [(target, 21)].
Proof.
  destruct (Full.run (Full.threader lab Full.starved target)
              starved_schedule (init target 21 22))
    as [s|] eqn:Hrun; [|by vm_compute in Hrun].
  exists s. split; [done|].
  destruct (scan_connections lab Full.starved target 21 22 s
              (full_run_reachable _ _ _ _ _ _ Hrun)) as (_ & _ & Hall).
  apply Hall. vm_compute in Hrun. by injection Hrun as <-.
Defined.

(** X11: a worker thread dies only of the print in the except clause of
    scan_port. The count of the queue is never negative and always the
    number of ports queued or held by a worker, so task_done never raises
    ValueError. A dead worker held a port of the range whose call printed
    an error line and let out the exception of that print; the port is
    never marked done, the count stays positive and threaded_port_scan has
    not returned. Where that print never raises for a port of the range, no
    worker ever dies. *)
Theorem worker_death
    (env : environment) (os : text → Z → Full.effects) (ip : text)
    (min_port max_port : Z) (s : state) :
  Full.reachable (Full.threader env os ip) ip min_port max_port s →
  0 ≤ unfinished_tasks s
  ∧ unfinished_tasks s
    = Z.of_nat (length (queue s) + length (held (workers s)))
  ∧ (∀ i p, workers s !! i = Some (Dead p) →
       min_port ≤ p ≤ max_port
       ∧ (∃ e x, Full.print_result (os ip p) (error_line p e) = Raise x
                 ∧ outcome (Full.threader env os ip p) = Raise x
                 ∧ (Worker i, Print (error_line p e)) ∈ trace s)
       ∧ (∀ t, (t, QueueTaskDone p) ∉ trace s)
       ∧ 0 < unfinished_tasks s
       ∧ ¬ returned s)
  ∧ ((∀ p e, min_port ≤ p ≤ max_port →
             Full.print_result (os ip p) (error_line p e) = Ok tt) →
     dead (workers s) = []).
Proof.
  intros Hs.
  set (call := Full.threader env os ip) in *.
  assert (Hev : ∀ p e, e ∈ events (call p) → ¬ queue_event e)
    by apply full_threader_events.
  pose proof (full_reachable_invariant call ip min_port max_port Hev _ Hs)
    as I.
  pose proof (Full.inv_count _ _ _ _ _ I) as Hcount.
  split; [lia|]. split; [done|]. split.
  - intros i p Hd.
    destruct (full_dead_cause call ip min_port max_port Hev s i p Hs Hd)
      as (Hp & [x Hx] & Hsub & Hnever & Hnot).
    destruct (full_scan_port_raises _ _ _ _ _ _ Hx) as (e & He & Hprint).
    split; [done|]. split; [|split; [done|split; [|done]]].
    + exists e, x. split; [done|]. split; [done|].
      eapply elem_of_sublist; [|exact Hsub].
      apply list_elem_of_fmap. by exists (Print (error_line p e)).
    + pose proof (held_elem _ _ _ p Hd eq_refl) as Hin.
      destruct (held (workers s)); [by apply elem_of_nil in Hin|].
      simpl in Hcount. lia.
  - intros Hok.
    apply (full_no_dead call ip min_port max_port Hev); [|done].
    by apply full_threader_returns.
Qed.

Lemma worker_death_witness :
  ∃ s, Full.run (Full.threader lab Full.piped target) piped_schedule
         (init target 21 21) = Some s
       ∧ workers s = [Dead 21] ∧ unfinished_tasks s = 1 ∧ ¬ returned s.
Proof.
  destruct (Full.run (Full.threader lab Full.piped target)
              piped_schedule (init target 21 21))
    as [s|] eqn:Hrun; [|by vm_compute in Hrun].
  exists s. split; [done|].
  destruct (worker_death lab Full.piped target 21 21 s
              (full_run_reachable _ _ _ _ _ _ Hrun))
    as (_ & Hcount & Hdead & _).
  assert (Hw : workers s = [Dead 21])
    by (vm_compute in Hrun; by injection Hrun as <-).
  split; [done|]. rewrite Hw in Hcount, Hdead.
  destruct (Hdead 0%nat 21 eq_refl) as (_ & _ & _ & _ & Hnot).
  split; [|done]. rewrite Hcount.
  vm_compute in Hrun. by injection Hrun as <-.
Defined.

(** X13: a scan gets stuck before its return only through a dead worker.
    In every state an execution can reach before the return, some thread
    can make a step or some worker is dead. A dead worker stays dead and
    threaded_port_scan then never returns: queue.join() blocks for ever.
    Where the print of the except clause never raises for a port of the
    range, some thread can always make a step before the return. *)
Theorem scan_stuck
    (env : environment) (os : text → Z → Full.effects) (ip : text)
    (min_port max_port : Z) (s : state) :
  Full.reachable (Full.threader env os ip) ip min_port max_port s →
  (¬ returned s →
   (∃ t s', Full.step (Full.threader env os ip) t s = Some s')
   ∨ (∃ i p, workers s !! i = Some (Dead p)))
  ∧ (∀ i p, workers s !! i = Some (Dead p) →
       ∀ s', rtc (Full.steps (Full.threader env os ip)) s s' →
             workers s' !! i = Some (Dead p) ∧ ¬ returned s')
  ∧ ((∀ p e, min_port ≤ p ≤ max_port →
             Full.print_result (os ip p) (error_line p e) = Ok tt) →
     ¬ returned s →
     ∃ t s', Full.step (Full.threader env os ip) t s = Some s'
             ∧ Full.reachable (Full.threader env os ip) ip min_port max_port
                 s').
Proof.
  intros Hs.
  set (call := Full.threader env os ip) in *.
  assert (Hev : ∀ p e, e ∈ events (call p) → ¬ queue_event e)
    by apply full_threader_events.
  split; [|split].
  - by apply (full_moves_or_dead call ip min_port max_port Hev).
  - intros i p Hd s' Hsteps.
    pose proof (full_dead_steps call _ _ _ _ Hsteps Hd) as Hd'.
    split; [done|].
    assert (Hs' : Full.reachable call ip min_port max_port s')
      by (by eapply rtc_trans).
    by destruct (full_dead_cause call ip min_port max_port Hev s' i p Hs' Hd')
      as (_ & _ & _ & _ & ?).
  - intros Hok Hnot.
    destruct (full_progress call ip min_port max_port Hev s
                (full_threader_returns env os ip min_port max_port Hok)
                Hs Hnot) as (t & s' & Ht).
    exists t, s'. split; [done|]. eapply rtc_r; [exact Hs|by exists t].
Qed.

Lemma scan_stuck_witness :
  ∃ s, Full.run (Full.threader lab Full.piped target) piped_schedule
         (init target 21 21) = Some s
       ∧ ∀ s', rtc (Full.steps (Full.threader lab Full.piped target)) s s' →
               workers s' !! 0%nat = Some (Dead 21) ∧ ¬ returned s'.
Proof.
  destruct (Full.run (Full.threader lab Full.piped target)
              piped_schedule (init target 21 21))
    as [s|] eqn:Hrun; [|by vm_compute in Hrun].
  exists s. split; [done|].
  destruct (scan_stuck lab Full.piped target 21 21 s
              (full_run_reachable _ _ _ _ _ _ Hrun)) as (_ & Hdead & _).
  apply Hdead. vm_compute in Hrun. by injection Hrun as <-.
Defined.

(** X14: no execution of a scan is longer than 2 + the pool size + 3 + the
    length of the call of scan_port for every port of the range: each step
    of any thread uses up one unit of the work that is left. Where the
    print of the except clause never raises for a port of the range, the
    scan terminates whatever the scheduler does: the work left is zero
    exactly at the return, a state in which no thread can move is the
    return, and every execution can be run on to the return, which it
    reaches after exactly that many steps. Where the call of
    scan_port for some port of the range raises, the scan never returns:
    every execution can be run on to a state in which no thread can move
    and threaded_port_scan has not returned. *)
Theorem scan_termination
    (env : environment) (os : text → Z → Full.effects) (ip : text)
    (min_port max_port : Z) (schedule : list thread) (s : state) :
  Full.run (Full.threader env os ip) schedule (init ip min_port max_port)
  = Some s →
  (length schedule + Full.work (Full.threader env os ip) s
   = 2 + pool_size min_port max_port
     + sum_list_with
         (λ p, 3 + length (events (Full.threader env os ip p)))
         (ports min_port max_port))%nat
  ∧ ((∀ p e, min_port ≤ p ≤ max_port →
             Full.print_result (os ip p) (error_line p e) = Ok tt) →
     (Full.work (Full.threader env os ip) s = 0%nat ↔ returned s)
     ∧ (Full.stuck (Full.threader env os ip) s → returned s)
     ∧ ∃ rest s',
         Full.run (Full.threader env os ip) rest s = Some s'
         ∧ returned s'
         ∧ (length schedule + length rest
            = 2 + pool_size min_port max_port
              + sum_list_with
                  (λ p, 3 + length (events (Full.threader env os ip p)))
                  (ports min_port max_port))%nat)
  ∧ (∀ p x, min_port ≤ p ≤ max_port →
            outcome (Full.threader env os ip p) = Raise x →
            ¬ returned s
            ∧ ∃ rest s',
                Full.run (Full.threader env os ip) rest s = Some s'
                ∧ Full.stuck (Full.threader env os ip) s'
                ∧ ¬ returned s').
Proof.
  intros Hrun.
  set (call := Full.threader env os ip) in *.
  assert (Hev : ∀ p e, e ∈ events (call p) → ¬ queue_event e)
    by apply full_threader_events.
  assert (Hs : Full.reachable call ip min_port max_port s)
    by (by eapply full_run_reachable).
  assert (Hlen : (length schedule + Full.work call s
                  = 2 + pool_size min_port max_port
                    + sum_list_with (λ p, 3 + length (events (call p)))
                        (ports min_port max_port))%nat).
  { rewrite (full_work_run call schedule _ s Hrun).
    apply full_work_init. }
  split; [done|]. split.
  - intros Hok.
    split; [by apply (full_work_returned call ip min_port max_port Hev)|].
    split.
    { apply (full_stuck_returned call ip min_port max_port Hev); [|done].
      by apply full_threader_returns. }
    destruct (full_completes call ip min_port max_port Hev s
                (full_threader_returns env os ip min_port max_port Hok) Hs)
      as (rest & s' & Hrest & Hret).
    exists rest, s'. split; [done|]. split; [done|].
    assert (Hs' : Full.reachable call ip min_port max_port s').
    { eapply rtc_trans; [exact Hs|by eapply full_run_steps]. }
    apply (full_work_returned call ip min_port max_port Hev s' Hs') in Hret.
    pose proof (full_work_run call rest _ s' Hrest). lia.
  - intros p x Hp Hx. split.
    + by apply (full_never_returns call ip min_port max_port Hev s p x).
    + destruct (full_hangs call ip min_port max_port Hev s p x Hp Hx Hs)
        as (rest & s' & Hrest & Hstuck & Hnot & _).
      by exists rest, s'.
Qed.

Lemma scan_termination_witness :
  (∃ s, Full.run (Full.threader lab (λ _ _, Full.calm) target)
          two_workers_schedule (init target 21 22) = Some s
        ∧ (length two_workers_schedule
           + Full.work (Full.threader lab (λ _ _, Full.calm) target) s
           = 28)%nat
        ∧ returned s)
  ∧ (∃ s, Full.run (Full.threader lab Full.piped target) piped_schedule
            (init target 21 21) = Some s
          ∧ ¬ returned s).
Proof.
  split.
  - destruct (Full.run (Full.threader lab (λ _ _, Full.calm) target)
                two_workers_schedule (init target 21 22))
      as [s|] eqn:Hrun; [|by vm_compute in Hrun].
    exists s. split; [done|].
    destruct (scan_termination lab (λ _ _, Full.calm) target 21 22
                two_workers_schedule s Hrun) as (Hlen & Hok & _).
    split; [exact Hlen|]. apply (proj1 (Hok (λ _ _ _, eq_refl))).
    vm_compute in Hrun. by injection Hrun as <-.
  - destruct (Full.run (Full.threader lab Full.piped target)
                piped_schedule (init target 21 21))
      as [s|] eqn:Hrun; [|by vm_compute in Hrun].
    exists s. split; [done|].
    destruct (scan_termination lab Full.piped target 21 21
                piped_schedule s Hrun) as (_ & _ & Hraise).
    by destruct (Hraise 21 Full.EPIPE ltac:(lia) eq_refl) as [? _].
Defined.
